(** * GitHub_Monitoring: the credential pool and the scan pipeline

    A shallow embedding of the Go sources

    - the token pool of package [github] ([TokenPool], [TokenInfo],
      [GetClient], ...),
    - [github/search.go] ([SearchService]),
    - [monitor/monitor.go] ([MonitorService]),

    with explicit state passing.  Every call that leaves the process (the
    GitHub quota and search endpoints, the database, [time.Sleep]) appends
    an event to a trace; what the outside world answers is read from an
    environment of oracles indexed by the number of events so far, so an
    endpoint may answer differently each time it is asked.  What
    [log.Printf] writes is not modelled; the evaluation of its arguments
    is, where it can panic. *)

From Stdlib Require Import ZArith NArith QArith_base Ascii String Lia.
From Stdlib Require SpecFloat.
From stdpp Require Import list strings.

#[local] Open Scope Z_scope.
#[local] Close Scope Q_scope.

(** ** Go strings

    A Go [string] is a sequence of bytes, and so is a [string] here. *)

Module Strings.

(** [strings.HasPrefix]. *)
Fixpoint HasPrefix (s prefix : string) : bool :=
  match prefix, s with
  | EmptyString, _ => true
  | String c prefix', String d s' => if Ascii.eqb c d then HasPrefix s' prefix' else false
  | String _ _, EmptyString => false
  end.

(** [s[n:]]. *)
Fixpoint drop (n : nat) (s : string) : string :=
  match n, s with
  | O, _ => s
  | S n', String _ s' => drop n' s'
  | S _, EmptyString => EmptyString
  end.

(** [s[:n]]. *)
Fixpoint take (n : nat) (s : string) : string :=
  match n, s with
  | O, _ => EmptyString
  | S n', String c s' => String c (take n' s')
  | S _, EmptyString => EmptyString
  end.

(** [strings.TrimPrefix]. *)
Definition TrimPrefix (s prefix : string) : string :=
  if HasPrefix s prefix then drop (String.length prefix) s else s.

(** [strings.Contains]. *)
Fixpoint Contains (s substr : string) : bool :=
  if HasPrefix s substr then true
  else match s with
       | EmptyString => false
       | String _ s' => Contains s' substr
       end.

(** [strings.Join]. *)
Fixpoint Join (elems : list string) (sep : string) : string :=
  match elems with
  | [] => EmptyString
  | [e] => e
  | e :: rest => e +:+ sep +:+ Join rest sep
  end.

(** [s != ""]. *)
Definition nonEmpty (s : string) : bool :=
  match s with EmptyString => false | String _ _ => true end.

(** The byte 0x22, the double quote. *)
Definition dquote : string := String (ascii_of_nat 34) EmptyString.

End Strings.

(** ** Go [time]

    A [time.Time] is the number of nanoseconds since the zero instant of
    Go's [time.Time] (the value [IsZero] recognises); a [time.Duration] is
    a signed 64-bit count of nanoseconds. *)

Module GoTime.

Definition Time := Z.
Definition Duration := Z.

Definition minDuration : Duration := - 2 ^ 63.
Definition maxDuration : Duration := 2 ^ 63 - 1.

(** Signed 64-bit wrap-around, for arithmetic on [Duration]. *)
Definition wrap64 (z : Z) : Z := (z + 2 ^ 63) mod 2 ^ 64 - 2 ^ 63.

Definition Nanosecond : Duration := 1.
Definition Second : Duration := 1000000000.
Definition Minute : Duration := 60 * Second.

Definition IsZero (t : Time) : bool := t =? 0.
(** [t.After(u)] and [t.Before(u)]. *)
Definition After (t u : Time) : bool := u <? t.
Definition Before (t u : Time) : bool := t <? u.

(** [t.Sub(u)]: the difference, saturated to the range of [Duration]. *)
Definition Sub (t u : Time) : Duration :=
  if t - u <? minDuration then minDuration
  else if maxDuration <? t - u then maxDuration
  else t - u.

(** [time.Until(t)] and [time.Since(t)], at the instant [now]. *)
Definition Until (now t : Time) : Duration := Sub t now.
Definition Since (now t : Time) : Duration := Sub now t.

(** [float64(z)] of an integer, in IEEE 754 binary64. *)
Definition float64 (z : Z) : SpecFloat.spec_float :=
  SpecFloat.binary_normalize 53 1024 z 0 false.

(** [d.Seconds()], which is [float64(sec) + float64(nsec)/1e9] for
    [sec := d / Second] and [nsec := d % Second], both truncated. *)
Definition Seconds (d : Duration) : SpecFloat.spec_float :=
  SpecFloat.SFadd 53 1024
    (float64 (Z.quot d Second))
    (SpecFloat.SFdiv 53 1024 (float64 (Z.rem d Second)) (float64 1000000000)).

(** [int(f)] of a finite [float64]: the fraction is dropped.  The values
    of [Seconds] are finite and far inside the range of [int]. *)
Definition truncate (f : SpecFloat.spec_float) : Z :=
  match f with
  | SpecFloat.S754_finite sign m e =>
      let magnitude :=
        if 0 <=? e then Z.pos m * 2 ^ e else Z.pos m / 2 ^ (- e) in
      if sign then - magnitude else magnitude
  | _ => 0
  end.

(** [int(d.Seconds())]. *)
Definition SecondsInt (d : Duration) : Z := truncate (Seconds d).

End GoTime.
Export GoTime.

(** ** Data *)

(** [github.Rate] of go-github. *)
Record Rate := mkRate {
  Limit : Z;
  Remaining : Z;
  Reset : Time
}.

(** [TokenInfo].  The [Client] of a token is built from the token string
    alone ([createClient]), so a client is identified with its token. *)
Record TokenInfo := mkTokenInfo {
  Token : string;
  RateLimit : option Rate;
  IsAvailable : bool;
  LastChecked : Time
}.

(** [TokenPool].  The pool owns its [TokenInfo]s; the pointer [GetClient]
    returns is the index of the token in [tokens]. *)
Record TokenPool := mkTokenPool {
  tokens : list TokenInfo;
  currentIndex : nat
}.

(** [github.Repository], [github.TextMatch] and [github.CodeResult] of
    go-github, with the fields the program reads.  A nil pointer is [None]. *)
Record Repository := mkRepository {
  FullName : option string;
  RepoHTMLURL : option string
}.

Record TextMatch := mkTextMatch {
  Fragment : option string
}.

Record CodeResult := mkCodeResult {
  Name : option string;
  Path : option string;
  SHA : option string;
  HTMLURL : option string;
  Repo : option Repository;
  TextMatches : list TextMatch
}.

(** Answer of [client.RateLimit.Get]: an error, or the rate limits, whose
    [Core] entry may be missing ([rateLimit == nil || rateLimit.Core == nil]). *)
Inductive RateLimitResponse :=
| RateLimitErr (msg : string)
| RateLimitOk (core : option Rate).

(** Answer of [client.Search.Code]: an error together with the HTTP status
    of the response when there is one ([resp != nil]), or a page of hits,
    some of which may be nil pointers, and the reported total. *)
Inductive SearchResponse :=
| SearchErr (status : option Z) (msg : string)
| SearchOk (codeResults : list (option CodeResult)) (total : Z).

(** [SearchOptions]. *)
Record SearchOptions := mkSearchOptions {
  Keywords : list string;
  MatchType : string;
  ExcludeExts : list string;
  Language : string;
  Sort : string;
  Order : string
}.

(** [SearchResultItem]; [Score] is a [float64], of which only values that
    are exact rationals occur. *)
Record SearchResultItem := mkSearchResultItem {
  RepoFullName : string;
  RepoURL : string;
  FilePath : string;
  FileURL : string;
  ItemHTMLURL : string;
  MatchedKeywords : list string;
  ContentSnippet : string;
  Score : Q;
  CreatedAt : Time
}.

(** Rows of the tables the monitor reads and writes ([db/models]); the
    columns the ORM manages on its own (primary key, timestamps, soft
    deletion) are left out. *)
Record MonitorRule := mkMonitorRule {
  RuleID : N;
  RuleName : string;
  RuleKeywords : string;
  RuleMatchType : string;
  RuleIsActive : bool;
  RuleExcludeExts : string
}.

Record SearchResult := mkSearchResult {
  sr_RuleID : N;
  sr_RepoFullName : string;
  sr_RepoURL : string;
  sr_FilePath : string;
  sr_FileURL : string;
  sr_MatchedKeywords : string;
  sr_ContentSnippet : string;
  sr_HTMLURL : string;
  sr_Score : Q;
  sr_Status : string
}.

Record Whitelist := mkWhitelist {
  wl_Type : string;
  wl_Value : string
}.

Record ScanHistory := mkScanHistory {
  sh_RuleID : N;
  sh_ResultsCount : Z;
  sh_NewResults : Z;
  sh_TokenUsed : string;
  sh_Status : string;
  sh_ErrorMessage : string;
  sh_Duration : Z
}.

Record DB := mkDB {
  monitor_rules : list MonitorRule;
  search_results : list SearchResult;
  whitelists : list Whitelist;
  scan_histories : list ScanHistory
}.

(** ** The outside world *)

(** What the process does to the outside, in order. *)
Inductive Event :=
| EvRateLimitGet (token : string)
| EvSearchCode (token : string) (query : string) (page : Z)
| EvSleep (d : Duration)
| EvDB (statement : string).

Record World := mkWorld {
  trace : list Event;
  db : DB
}.

(** The number of events so far; the oracles are indexed by it. *)
Definition tick (w : World) : nat := length (trace w).

Definition emit (ev : Event) (w : World) : World :=
  {| trace := trace w ++ [ev]; db := db w |}.

Definition setDB (d : DB) (w : World) : World :=
  {| trace := trace w; db := d |}.

(** What the outside answers, and the library functions the program calls
    that are not part of the repository. *)
Record Env := mkEnv {
  (** [time.Now()] after [n] events *)
  clock : nat -> Time;
  (** the quota endpoint, asked with a token after [n] events *)
  rateLimitGet : nat -> string -> RateLimitResponse;
  (** the code-search endpoint, asked with a token, a query and a page *)
  searchCodeApi : nat -> string -> string -> Z -> SearchResponse;
  (** whether the database statement issued after [n] events fails *)
  dbFault : nat -> option string;
  (** [json.Unmarshal] into a [[]string]: an error message or the slice *)
  jsonUnmarshalStrings : string -> string + list string;
  (** [json.Marshal] of a [[]string] *)
  jsonMarshalStrings : list string -> string;
  (** [strings.ToLower] *)
  ToLower : string -> string;
  (** how [%v] prints a [time.Time] *)
  formatTime : Time -> string
}.

(** ** Errors

    The program builds its errors with [fmt.Errorf] and only ever reads
    them back through [Error()]; the constructors keep the shape, [Error]
    gives the message. *)
Inductive error :=
| ErrUpstream (msg : string)
| ErrNoTokensProvided
| ErrNoValidTokensProvided
| ErrNoAvailableTokens
| ErrAllRateLimited (nextReset : Time)
| ErrWrap (prefix : string) (cause : error)
| ErrWrapNil (prefix : string)
| ErrIndexOutOfRange
| ErrNilDereference.

(** [err.Error()].  [ErrWrap prefix cause] is
    [fmt.Errorf(prefix + ": %w", cause)], [ErrWrapNil] the same with a nil
    cause.  [ErrIndexOutOfRange] and [ErrNilDereference] are not error
    values of the program: they stand for the run-time panics of an index
    out of range and of a nil pointer that is dereferenced.  No function
    of the program recovers from a panic, so it unwinds every caller:
    each function below passes a panic on as it is and does nothing
    more. *)
Fixpoint Error (formatTime : Time -> string) (e : error) : string :=
  match e with
  | ErrUpstream msg => msg
  | ErrNoTokensProvided => "no tokens provided"
  | ErrNoValidTokensProvided => "no valid tokens provided"
  | ErrNoAvailableTokens => "no available tokens"
  | ErrAllRateLimited nextReset =>
      "all tokens rate limited, next reset at " +:+ formatTime nextReset
  | ErrWrap prefix cause => prefix +:+ ": " +:+ Error formatTime cause
  | ErrWrapNil prefix => prefix +:+ ": %!w(<nil>)"
  | ErrIndexOutOfRange => "runtime error: index out of range"
  | ErrNilDereference =>
      "runtime error: invalid memory address or nil pointer dereference"
  end.

(** Whether an outcome is a panic. *)
Definition isPanic (e : error) : bool :=
  match e with
  | ErrIndexOutOfRange | ErrNilDereference => true
  | _ => false
  end.

(** ** The token pool (package [github]) *)

Section Pool.

Context (env : Env).

(** [NewTokenPool]: empty token strings are dropped; a pool is never
    built empty. *)
Definition NewTokenPool (toks : list string) (w : World) : error + TokenPool :=
  match toks with
  | [] => inl ErrNoTokensProvided
  | _ =>
      let infos :=
        map (fun token => {| Token := token; RateLimit := None;
                             IsAvailable := true;
                             LastChecked := clock env (tick w) |})
            (filter (fun token => Strings.nonEmpty token = true) toks) in
      match infos with
      | [] => inl ErrNoValidTokensProvided
      | _ => inr {| tokens := infos; currentIndex := 0 |}
      end
  end.

(** [TokenInfo.UpdateRateLimit]: one call to the quota endpoint.  On
    success with a core rate the snapshot is replaced, and the token is
    made available again when more than 10 calls remain. *)
Definition UpdateRateLimit (t : TokenInfo) (w : World)
  : option error * TokenInfo * World :=
  let w' := emit (EvRateLimitGet (Token t)) w in
  match rateLimitGet env (tick w) (Token t) with
  | RateLimitErr msg => (Some (ErrUpstream msg), t, w')
  | RateLimitOk None => (None, t, w')
  | RateLimitOk (Some core) =>
      (None,
       {| Token := Token t;
          RateLimit := Some core;
          IsAvailable := if 10 <? Remaining core then true else IsAvailable t;
          LastChecked := clock env (tick w') |},
       w')
  end.

(** [TokenInfo.HasRemainingCalls], at the instant [now]. *)
Definition HasRemainingCalls (t : TokenInfo) (threshold : Z) (now : Time) : bool :=
  match RateLimit t with
  | None => true
  | Some rate =>
      if After now (Reset rate) then true
      else threshold <? Remaining rate
  end.

Definition setAvailable (b : bool) (t : TokenInfo) : TokenInfo :=
  {| Token := Token t; RateLimit := RateLimit t;
     IsAvailable := b; LastChecked := LastChecked t |}.

(** [TokenPool.markTokenUnavailable]; an index out of range is ignored. *)
Definition markTokenUnavailable (index : nat) (p : TokenPool) : TokenPool :=
  {| tokens := alter (setAvailable false) index (tokens p);
     currentIndex := currentIndex p |}.

(** [TokenPool.nextToken].  It is only reached with a pool that is not
    empty. *)
Definition nextToken (p : TokenPool) : TokenPool :=
  {| tokens := tokens p;
     currentIndex := ((currentIndex p + 1) mod length (tokens p))%nat |}.

(** [TokenPool.getNextResetTime]: the loop over the tokens, with the
    running [nextReset]. *)
Fixpoint getNextResetTime_from (nextReset : Time) (ts : list TokenInfo) : Time :=
  match ts with
  | [] => nextReset
  | tokenInfo :: rest =>
      match RateLimit tokenInfo with
      | Some rate =>
          let resetTime := Reset rate in
          if IsZero nextReset || Before resetTime nextReset
          then getNextResetTime_from resetTime rest
          else getNextResetTime_from nextReset rest
      | None => getNextResetTime_from nextReset rest
      end
  end.

Definition getNextResetTime (p : TokenPool) : Time :=
  getNextResetTime_from 0 (tokens p).

(** The write through the [*TokenInfo] at [index]. *)
Definition storeToken (index : nat) (t : TokenInfo) (p : TokenPool) : TokenPool :=
  {| tokens := <[index := t]> (tokens p); currentIndex := currentIndex p |}.

(** The loop of [GetClient].  [remaining] is [maxAttempts - attempts],
    the number of iterations the guard [attempts < maxAttempts] still
    allows: every path that stays in the loop increments [attempts].
    Before it returns a token the loop logs
    [tokenInfo.RateLimit.Remaining]: a token without snapshot, which
    [HasRemainingCalls] lets through, makes it panic there. *)
Fixpoint GetClient_loop (startIndex maxAttempts : nat) (remaining attempts : nat)
    (p : TokenPool) (w : World) : (error + nat) * TokenPool * World :=
  match remaining with
  | O => (inl ErrNoAvailableTokens, p, w)
  | S remaining' =>
      (* the end of the loop body, from [p.nextToken()] on *)
      let advance (p : TokenPool) (w : World) :=
        let p := nextToken p in
        let attempts := S attempts in
        if (currentIndex p =? startIndex)%nat && (attempts =? maxAttempts)%nat then
          let nextReset := getNextResetTime p in
          if negb (IsZero nextReset)
             && (Until (clock env (tick w)) nextReset <? 5 * Minute)
          then (inl (ErrAllRateLimited nextReset), p, w)
          else GetClient_loop startIndex maxAttempts remaining' attempts p w
        else GetClient_loop startIndex maxAttempts remaining' attempts p w in
      match tokens p !! currentIndex p with
      | None => (inl ErrIndexOutOfRange, p, w)
      | Some tokenInfo =>
          if IsAvailable tokenInfo then
            let '(err, tokenInfo, w) := UpdateRateLimit tokenInfo w in
            let p := storeToken (currentIndex p) tokenInfo p in
            match err with
            | Some _ =>
                let p := markTokenUnavailable (currentIndex p) p in
                let p := nextToken p in
                GetClient_loop startIndex maxAttempts remaining' (S attempts) p w
            | None =>
                if HasRemainingCalls tokenInfo 10 (clock env (tick w))
                then match RateLimit tokenInfo with
                     | None => (inl ErrNilDereference, p, w)
                     | Some _ => (inr (currentIndex p), p, w)
                     end
                else advance (markTokenUnavailable (currentIndex p) p) w
            end
          else advance p w
      end
  end.

(** [TokenPool.GetClient]. *)
Definition GetClient (p : TokenPool) (w : World) : (error + nat) * TokenPool * World :=
  let startIndex := currentIndex p in
  let maxAttempts := length (tokens p) in
  GetClient_loop startIndex maxAttempts maxAttempts 0 p w.

(** [TokenPool.RefreshAllTokens]; a failure is logged and the loop goes on. *)
Fixpoint RefreshAll_from (ts : list TokenInfo) (w : World) : list TokenInfo * World :=
  match ts with
  | [] => ([], w)
  | tokenInfo :: rest =>
      let '(_, tokenInfo, w) := UpdateRateLimit tokenInfo w in
      let '(rest, w) := RefreshAll_from rest w in
      (tokenInfo :: rest, w)
  end.

Definition RefreshAllTokens (p : TokenPool) (w : World) : TokenPool * World :=
  let '(ts, w) := RefreshAll_from (tokens p) w in
  ({| tokens := ts; currentIndex := currentIndex p |}, w).

End Pool.

(** ** The search service ([github/search.go]) *)

Section Search.

Context (env : Env).

(** The nil-safe getters of go-github ([GetName], [GetPath], ...). *)
Definition GetString (field : option string) : string :=
  match field with Some s => s | None => EmptyString end.

(** [SearchService.buildQuery]. *)
Definition buildQuery (opts : SearchOptions) : string :=
  let queryParts :=
    if String.eqb (MatchType opts) "precise" then
      map (fun keyword => Strings.dquote +:+ keyword +:+ Strings.dquote)
          (filter (fun keyword => Strings.nonEmpty keyword = true) (Keywords opts))
    else
      filter (fun keyword => Strings.nonEmpty keyword = true) (Keywords opts) in
  let query := Strings.Join queryParts " " in
  let query :=
    fold_left
      (fun query ext =>
         if Strings.nonEmpty ext
         then query +:+ " -extension:" +:+ Strings.TrimPrefix ext "."
         else query)
      (ExcludeExts opts) query in
  if Strings.nonEmpty (Language opts)
  then query +:+ " language:" +:+ Language opts
  else query.

(** [SearchService.findMatchedKeywords]. *)
Definition findMatchedKeywords (result : CodeResult) (keywords : list string)
  : list string :=
  let content := ToLower env (GetString (Name result) +:+ " " +:+ GetString (Path result)) in
  let content :=
    fold_left
      (fun content m => content +:+ " " +:+ ToLower env (GetString (Fragment m)))
      (TextMatches result) content in
  filter
    (fun keyword =>
       Strings.nonEmpty keyword && Strings.Contains content (ToLower env keyword) = true)
    keywords.

(** [SearchService.extractSnippet]. *)
Definition extractSnippet (result : CodeResult) : string :=
  match TextMatches result with
  | m :: _ =>
      let snippet := GetString (Fragment m) in
      if (500 <? String.length snippet)%nat
      then Strings.take 500 snippet +:+ "..."
      else snippet
  | [] => EmptyString
  end.

(** [SearchService.convertToSearchResultItem], at the instant [now]. *)
Definition convertToSearchResultItem (result : option CodeResult)
    (keywords : list string) (now : Time) : option SearchResultItem :=
  match result with
  | None => None
  | Some result =>
      match Repo result with
      | None => None
      | Some repository =>
          Some {| RepoFullName := GetString (FullName repository);
                  RepoURL := GetString (RepoHTMLURL repository);
                  FilePath := GetString (Path result);
                  FileURL := GetString (HTMLURL result);
                  ItemHTMLURL := GetString (HTMLURL result);
                  MatchedKeywords := findMatchedKeywords result keywords;
                  ContentSnippet := extractSnippet result;
                  Score := 1%Q;
                  CreatedAt := now |}
      end
  end.

(** The page loop of [SearchCode], run with the client of [token].
    [left] is [10 - page]: the loop breaks at [page >= 10], that is with
    nothing left, or on an empty page. *)
Fixpoint SearchCode_pages (left : nat) (token query : string)
    (keywords : list string) (results : list SearchResultItem) (w : World)
  : (error + list SearchResultItem) * World :=
  let page := 10 - Z.of_nat left in
  let response := searchCodeApi env (tick w) token query page in
  let w := emit (EvSearchCode token query page) w in
  match response with
  | SearchErr status msg =>
      if match status with Some code => code =? 403 | None => false end
      then (inl (ErrWrap "rate limit exceeded" (ErrUpstream msg)), w)
      else (inl (ErrWrap "search failed" (ErrUpstream msg)), w)
  | SearchOk codeResults total =>
      let results :=
        results ++
        omap (fun result => convertToSearchResultItem result keywords (clock env (tick w)))
             codeResults in
      match left with
      | O => (inr results, w)
      | S left' =>
          if (length codeResults =? 0)%nat then (inr results, w)
          else SearchCode_pages left' token query keywords results
                 (emit (EvSleep (2 * Second)) w)
      end
  end.

(** [SearchService.SearchCode]. *)
Definition SearchCode (opts : SearchOptions) (p : TokenPool) (w : World)
  : (error + list SearchResultItem) * TokenPool * World :=
  let query := buildQuery opts in
  let '(client, p, w) := GetClient env p w in
  match client with
  | inl err =>
      if isPanic err then (inl err, p, w)
      else (inl (ErrWrap "failed to get client" err), p, w)
  | inr tokenInfo =>
      match tokens p !! tokenInfo with
      | None => (inl ErrIndexOutOfRange, p, w)
      | Some t =>
          let '(res, w) := SearchCode_pages 9 (Token t) query (Keywords opts) [] w in
          (res, p, w)
      end
  end.

(** [time.Duration(i+1) * 10 * time.Second], in 64-bit arithmetic. *)
Definition retryDelay (i : Z) : Duration :=
  wrap64 (wrap64 ((i + 1) * 10) * Second).

(** [fmt.Errorf("max retries exceeded: %w", lastErr)]; [lastErr] is nil
    when the loop made no attempt. *)
Definition maxRetriesExceeded (lastErr : option error) : error :=
  match lastErr with
  | Some err => ErrWrap "max retries exceeded" err
  | None => ErrWrapNil "max retries exceeded"
  end.

(** The loop of [SearchWithRetry]; [remaining] is [maxRetries - i]. *)
Fixpoint SearchWithRetry_loop (remaining : nat) (i : Z) (lastErr : option error)
    (opts : SearchOptions) (p : TokenPool) (w : World)
  : (error + list SearchResultItem) * TokenPool * World :=
  match remaining with
  | O => (inl (maxRetriesExceeded lastErr), p, w)
  | S remaining' =>
      let '(res, p, w) := SearchCode opts p w in
      match res with
      | inr results => (inr results, p, w)
      | inl err =>
          if isPanic err then (inl err, p, w)
          else if Strings.Contains (Error (formatTime env) err) "rate limit" then
            SearchWithRetry_loop remaining' (i + 1) (Some err) opts p
              (emit (EvSleep (retryDelay i)) w)
          else (inl err, p, w)
      end
  end.

(** [SearchService.SearchWithRetry]. *)
Definition SearchWithRetry (opts : SearchOptions) (maxRetries : Z)
    (p : TokenPool) (w : World)
  : (error + list SearchResultItem) * TokenPool * World :=
  SearchWithRetry_loop (Z.to_nat maxRetries) 0 None opts p w.

(** [ParseKeywords]. *)
Definition ParseKeywords (keywordsJSON : string) : error + list string :=
  match jsonUnmarshalStrings env keywordsJSON with
  | inl msg => inl (ErrUpstream msg)
  | inr keywords => inr keywords
  end.

(** [ParseExcludeExts]. *)
Definition ParseExcludeExts (extsJSON : string) : error + list string :=
  if Strings.nonEmpty extsJSON then
    match jsonUnmarshalStrings env extsJSON with
    | inl msg => inl (ErrUpstream msg)
    | inr exts => inr exts
    end
  else inr [].

End Search.

(** ** The monitor ([monitor/monitor.go]) *)

Section Monitor.

Context (env : Env).

(** A statement sent to the database: it is recorded, and the
    environment tells whether it fails. *)
Definition dbExec (statement : string) (w : World) : option string * World :=
  (dbFault env (tick w), emit (EvDB statement) w).

(** [monitor.splitRepoName]: split at the first ['/']. *)
Fixpoint splitRepoName_from (before fullName : string) : list string :=
  match fullName with
  | EmptyString => []
  | String c rest =>
      if Ascii.eqb c "/" then [before; rest]
      else splitRepoName_from (before +:+ String c EmptyString) rest
  end.

Definition splitRepoName (fullName : string) : list string :=
  splitRepoName_from EmptyString fullName.

(** The inner loop of [filterWhitelist] over the whitelist entries. *)
Fixpoint isWhitelisted (result : SearchResultItem) (whitelist : list Whitelist) : bool :=
  match whitelist with
  | [] => false
  | entry :: rest =>
      if String.eqb (wl_Type entry) "repo" && String.eqb (RepoFullName result) (wl_Value entry)
      then true
      else if String.eqb (wl_Type entry) "user"
              && (0 <? String.length (RepoFullName result))%nat
              && match splitRepoName (RepoFullName result) with
                 | part :: _ => String.eqb part (wl_Value entry)
                 | [] => false
                 end
      then true
      else isWhitelisted result rest
  end.

(** [MonitorService.filterWhitelist]. *)
Definition filterWhitelist (results : list SearchResultItem) (w : World)
  : list SearchResultItem * World :=
  let '(err, w) := dbExec "SELECT * FROM whitelists" w in
  match err with
  | Some _ => (results, w)
  | None =>
      let whitelist := whitelists (db w) in
      if (length whitelist =? 0)%nat then (results, w)
      else (filter (fun result => isWhitelisted result whitelist = false) results, w)
  end.

(** Whether a stored row has the de-duplication key of the query
    [rule_id = ? AND repo_full_name = ? AND file_path = ?], the strings
    compared byte by byte. *)
Definition sameKey (ruleID : N) (repoFullName filePath : string) (row : SearchResult) : bool :=
  N.eqb (sr_RuleID row) ruleID
  && String.eqb (sr_RepoFullName row) repoFullName
  && String.eqb (sr_FilePath row) filePath.

(** [db.Where(...).First(&existingResult)]: the row, or [None] when the
    statement fails or finds no record ([err != nil]). *)
Definition dbFirstResult (ruleID : N) (repoFullName filePath : string) (w : World)
  : option SearchResult * World :=
  let '(err, w) := dbExec "SELECT * FROM search_results WHERE rule_id = ? AND repo_full_name = ? AND file_path = ? LIMIT 1" w in
  match err with
  | Some _ => (None, w)
  | None =>
      (List.find (sameKey ruleID repoFullName filePath) (search_results (db w)), w)
  end.

(** [db.Create(&newResult)]: [true] when the row was inserted. *)
Definition dbCreateResult (row : SearchResult) (w : World) : bool * World :=
  let '(err, w) := dbExec "INSERT INTO search_results" w in
  match err with
  | Some _ => (false, w)
  | None =>
      let d := db w in
      (true,
       setDB {| monitor_rules := monitor_rules d;
                search_results := search_results d ++ [row];
                whitelists := whitelists d;
                scan_histories := scan_histories d |} w)
  end.

(** The row [saveResults] builds for a result. *)
Definition newResult (ruleID : N) (result : SearchResultItem) : SearchResult :=
  {| sr_RuleID := ruleID;
     sr_RepoFullName := RepoFullName result;
     sr_RepoURL := RepoURL result;
     sr_FilePath := FilePath result;
     sr_FileURL := FileURL result;
     sr_MatchedKeywords := jsonMarshalStrings env (MatchedKeywords result);
     sr_ContentSnippet := ContentSnippet result;
     sr_HTMLURL := ItemHTMLURL result;
     sr_Score := Score result;
     sr_Status := "pending" |}.

(** [MonitorService.saveResults], with the running [newCount]. *)
Fixpoint saveResults_from (newCount : Z) (ruleID : N)
    (results : list SearchResultItem) (w : World) : Z * World :=
  match results with
  | [] => (newCount, w)
  | result :: rest =>
      let '(existing, w) := dbFirstResult ruleID (RepoFullName result) (FilePath result) w in
      match existing with
      | None =>
          let '(created, w) := dbCreateResult (newResult ruleID result) w in
          if created then saveResults_from (newCount + 1) ruleID rest w
          else saveResults_from newCount ruleID rest w
      | Some _ => saveResults_from newCount ruleID rest w
      end
  end.

Definition saveResults (ruleID : N) (results : list SearchResultItem) (w : World)
  : Z * World :=
  saveResults_from 0 ruleID results w.

(** [MonitorService.recordScanHistory]; a failure is only logged. *)
Definition recordScanHistory (ruleID : N) (resultsCount newResults : Z)
    (tokenUsed status errorMsg : string) (duration : Z) (w : World) : World :=
  let history :=
    {| sh_RuleID := ruleID; sh_ResultsCount := resultsCount;
       sh_NewResults := newResults; sh_TokenUsed := tokenUsed;
       sh_Status := status; sh_ErrorMessage := errorMsg;
       sh_Duration := duration |} in
  let '(err, w) := dbExec "INSERT INTO scan_histories" w in
  match err with
  | Some _ => w
  | None =>
      let d := db w in
      setDB {| monitor_rules := monitor_rules d;
               search_results := search_results d;
               whitelists := whitelists d;
               scan_histories := scan_histories d ++ [history] |} w
  end.

(** [MonitorService.scanRule].  It returns nothing; the first component
    here is the panic that unwinds it, if any. *)
Definition scanRule (rule : MonitorRule) (p : TokenPool) (w : World)
  : option error * TokenPool * World :=
  let startTime := clock env (tick w) in
  match ParseKeywords env (RuleKeywords rule) with
  | inl err =>
      (None, p, recordScanHistory (RuleID rule) 0 0 "" "failed"
                  (Error (formatTime env) err) 0 w)
  | inr keywords =>
      let excludeExts :=
        match ParseExcludeExts env (RuleExcludeExts rule) with
        | inl _ => []
        | inr excludeExts => excludeExts
        end in
      let searchOpts :=
        {| Keywords := keywords; MatchType := RuleMatchType rule;
           ExcludeExts := excludeExts; Language := "";
           Sort := "indexed"; Order := "desc" |} in
      let '(res, p, w) := SearchWithRetry env searchOpts 3 p w in
      match res with
      | inl err =>
          if isPanic err then (Some err, p, w)
          else
            let status :=
              if String.eqb (Error (formatTime env) err) "rate limit exceeded"
              then "rate_limited" else "failed" in
            let duration := SecondsInt (Since (clock env (tick w)) startTime) in
            (None, p, recordScanHistory (RuleID rule) 0 0 "" status
                        (Error (formatTime env) err) duration w)
      | inr results =>
          let '(filteredResults, w) := filterWhitelist results w in
          let '(newResultsCount, w) := saveResults (RuleID rule) filteredResults w in
          let duration := SecondsInt (Since (clock env (tick w)) startTime) in
          (None, p, recordScanHistory (RuleID rule) (Z.of_nat (length filteredResults))
                      newResultsCount "" "success" "" duration w)
      end
  end.

(** The loop of [scan] over the rules; a panic in the scan of a rule
    ends it. *)
Fixpoint scan_rules (rules : list MonitorRule) (p : TokenPool) (w : World)
  : option error * TokenPool * World :=
  match rules with
  | [] => (None, p, w)
  | rule :: rest =>
      let '(panic, p, w) := scanRule rule p w in
      match panic with
      | Some err => (Some err, p, w)
      | None => scan_rules rest p (emit (EvSleep (5 * Second)) w)
      end
  end.

(** [MonitorService.scan]. *)
Definition scan (p : TokenPool) (w : World) : option error * TokenPool * World :=
  let '(err, w) := dbExec "SELECT * FROM monitor_rules WHERE is_active = ?" w in
  match err with
  | Some _ => (None, p, w)
  | None =>
      scan_rules (filter (fun rule => RuleIsActive rule = true) (monitor_rules (db w))) p w
  end.

End Monitor.

(** ** Callers and concrete runs used in the statements below *)

(** [n] consecutive calls of [GetClient] on the same pool; a call that
    panics is the last. *)
Fixpoint GetClient_times (env : Env) (n : nat) (p : TokenPool) (w : World)
  : list (error + nat) * TokenPool * World :=
  match n with
  | O => ([], p, w)
  | S n' =>
      let '(client, p, w) := GetClient env p w in
      if match client with inl err => isPanic err | inr _ => false end
      then ([client], p, w)
      else
        let '(clients, p, w) := GetClient_times env n' p w in
        (client :: clients, p, w)
  end.

(** A hit as the search API serialises it: the fields go-github decodes
    into a [CodeResult], and the relevance score of the item, for which
    [CodeResult] has no field. *)
Record UpstreamHit := mkUpstreamHit {
  hit_result : CodeResult;
  hit_score : option Q
}.

(** The normalisation of one upstream hit: what [SearchCode] does with
    each decoded item. *)
Definition normalize (env : Env) (hit : UpstreamHit) (keywords : list string)
    (now : Time) : option SearchResultItem :=
  convertToSearchResultItem env (Some (hit_result hit)) keywords now.

Module Scenario.

(** ASCII lower-casing, which is what [strings.ToLower] does on ASCII
    input. *)
Definition lowerByte (c : ascii) : ascii :=
  let n := nat_of_ascii c in
  if ((65 <=? n) && (n <=? 90))%nat then ascii_of_nat (n + 32) else c.

Fixpoint lower (s : string) : string :=
  match s with
  | EmptyString => EmptyString
  | String c s' => String (lowerByte c) (lower s')
  end.

(** The JSON text of the array with the single string [password]. *)
Definition passwordJSON : string :=
  "[" +:+ Strings.dquote +:+ "password" +:+ Strings.dquote +:+ "]".

(** A stand-in for [json.Unmarshal] into a [[]string] that agrees with
    it on the texts the runs below use: the array above, the empty array,
    and the texts [{md] and [{password], which are not JSON and are given
    up at their second byte.  Any other text is answered as the empty
    text is. *)
Definition unmarshal (text : string) : string + list string :=
  if String.eqb text passwordJSON then inr ["password"]
  else if String.eqb text "[]" then inr []
  else if String.eqb text "{md"
  then inl "invalid character 'm' looking for beginning of object key string"
  else if String.eqb text "{password"
  then inl "invalid character 'p' looking for beginning of object key string"
  else inl "unexpected end of JSON input".

(** A stand-in for [json.Marshal] of a [[]string] that is not nil: the
    JSON array of the strings, right for strings that need no escape. *)
Definition marshal (l : list string) : string :=
  "[" +:+ Strings.Join (map (fun s => Strings.dquote +:+ s +:+ Strings.dquote) l) ","
  +:+ "]".

(** Noon of some day, and a clock that moves one second per event. *)
Definition noon : Time := 63900000000 * Second.
Definition ticking (n : nat) : Time := noon + Z.of_nat n * Second.

Definition emptyDB : DB :=
  {| monitor_rules := []; search_results := []; whitelists := [];
     scan_histories := [] |}.

Definition start : World := {| trace := []; db := emptyDB |}.

Definition fresh (token : string) : TokenInfo :=
  {| Token := token; RateLimit := None; IsAvailable := true; LastChecked := noon |}.

Definition twoTokens : TokenPool :=
  {| tokens := [fresh "ghp_A"; fresh "ghp_B"]; currentIndex := 0 |}.

(** An environment in which every token has 4990 of 5000 calls left
    until one hour after noon, and every search page is empty. *)
Definition ample : Env :=
  {| clock := ticking;
     rateLimitGet := fun _ _ =>
       RateLimitOk (Some {| Limit := 5000; Remaining := 4990;
                            Reset := noon + 60 * Minute |});
     searchCodeApi := fun _ _ _ _ => SearchOk [] 0;
     dbFault := fun _ => None;
     jsonUnmarshalStrings := unmarshal;
     jsonMarshalStrings := marshal;
     ToLower := lower;
     formatTime := fun _ => "2026-01-01 13:00:00 +0000 UTC" |}.

(** The same, with every token down to 3 calls until one hour after noon. *)
Definition drained : Env :=
  {| clock := ticking;
     rateLimitGet := fun _ _ =>
       RateLimitOk (Some {| Limit := 5000; Remaining := 3;
                            Reset := noon + 60 * Minute |});
     searchCodeApi := searchCodeApi ample;
     dbFault := dbFault ample;
     jsonUnmarshalStrings := unmarshal;
     jsonMarshalStrings := jsonMarshalStrings ample;
     ToLower := lower;
     formatTime := formatTime ample |}.

(** The same, with the reset two minutes after noon. *)
Definition drainedSoon : Env :=
  {| clock := ticking;
     rateLimitGet := fun _ _ =>
       RateLimitOk (Some {| Limit := 5000; Remaining := 3;
                            Reset := noon + 2 * Minute |});
     searchCodeApi := searchCodeApi ample;
     dbFault := dbFault ample;
     jsonUnmarshalStrings := unmarshal;
     jsonMarshalStrings := jsonMarshalStrings ample;
     ToLower := lower;
     formatTime := formatTime ample |}.

(** An environment whose quota endpoint still reports the window that
    ended one minute before noon, with no calls left in it. *)
Definition lagging : Env :=
  {| clock := ticking;
     rateLimitGet := fun _ _ =>
       RateLimitOk (Some {| Limit := 5000; Remaining := 0;
                            Reset := noon - Minute |});
     searchCodeApi := searchCodeApi ample;
     dbFault := dbFault ample;
     jsonUnmarshalStrings := unmarshal;
     jsonMarshalStrings := jsonMarshalStrings ample;
     ToLower := lower;
     formatTime := formatTime ample |}.

(** A token that was seen with no calls left and whose reset time, one
    minute before noon, has passed. *)
Definition spent : TokenInfo :=
  {| Token := "ghp_A";
     RateLimit := Some {| Limit := 5000; Remaining := 0; Reset := noon - Minute |};
     IsAvailable := true;
     LastChecked := noon - 60 * Minute |}.

Definition recovered : TokenPool := {| tokens := [spent]; currentIndex := 0 |}.

Definition leak : CodeResult :=
  {| Name := Some "config.yml"; Path := Some "deploy/config.yml";
     SHA := Some "3f2a"; HTMLURL := Some "https://github.com/octo/secrets/blob/main/deploy/config.yml";
     Repo := Some {| FullName := Some "octo/secrets";
                     RepoHTMLURL := Some "https://github.com/octo/secrets" |};
     TextMatches := [ {| Fragment := Some "password: hunter2" |} ] |}.

(** An environment with ample quota whose search is refused with the
    status 403 during the first seven events and then answers one hit
    on page 1 and nothing from page 2 on. *)
Definition flaky : Env :=
  {| clock := ticking;
     rateLimitGet := rateLimitGet ample;
     searchCodeApi := fun n _ _ page =>
       if (n <? 7)%nat then SearchErr (Some 403) "403 API rate limit exceeded"
       else if page =? 1 then SearchOk [Some leak] 1 else SearchOk [] 1;
     dbFault := dbFault ample;
     jsonUnmarshalStrings := unmarshal;
     jsonMarshalStrings := jsonMarshalStrings ample;
     ToLower := lower;
     formatTime := formatTime ample |}.

(** The same, refused for ever. *)
Definition refused : Env :=
  {| clock := ticking;
     rateLimitGet := rateLimitGet ample;
     searchCodeApi := fun _ _ _ _ => SearchErr (Some 403) "403 API rate limit exceeded";
     dbFault := dbFault ample;
     jsonUnmarshalStrings := unmarshal;
     jsonMarshalStrings := jsonMarshalStrings ample;
     ToLower := lower;
     formatTime := formatTime ample |}.


(** Three candidates, the third with the key of the first, and a table
    that holds the second under the rule 1. *)
Definition candidate (repo path : string) : SearchResultItem :=
  {| RepoFullName := repo; RepoURL := "https://github.com/" +:+ repo;
     FilePath := path; FileURL := ""; ItemHTMLURL := "";
     MatchedKeywords := ["password"]; ContentSnippet := "password: hunter2";
     Score := 1%Q; CreatedAt := noon |}.

Definition candidates : list SearchResultItem :=
  [candidate "octo/secrets" "deploy/config.yml";
   candidate "octo/site" ".env";
   candidate "octo/secrets" "deploy/config.yml"].

Definition oneStored : World :=
  {| trace := [];
     db := {| monitor_rules := [];
              search_results :=
                [ {| sr_RuleID := 1; sr_RepoFullName := "octo/site";
                     sr_RepoURL := "https://github.com/octo/site";
                     sr_FilePath := ".env"; sr_FileURL := "";
                     sr_MatchedKeywords := passwordJSON;
                     sr_ContentSnippet := ""; sr_HTMLURL := "";
                     sr_Score := 1%Q; sr_Status := "reviewed" |} ];
              whitelists := []; scan_histories := [] |} |}.

(** A rule for the keyword [password], and the same rule with a text
    for the excluded extensions that is not JSON. *)
Definition passwordRule : MonitorRule :=
  {| RuleID := 1; RuleName := "passwords"; RuleKeywords := passwordJSON;
     RuleMatchType := "fuzzy"; RuleIsActive := true; RuleExcludeExts := "[]" |}.

Definition brokenExtsRule : MonitorRule :=
  {| RuleID := 1; RuleName := "passwords"; RuleKeywords := passwordJSON;
     RuleMatchType := "fuzzy"; RuleIsActive := true; RuleExcludeExts := "{md" |}.

(** The options [scanRule] builds for the keyword [password]. *)
Definition passwordOpts : SearchOptions :=
  {| Keywords := ["password"]; MatchType := "fuzzy"; ExcludeExts := [];
     Language := ""; Sort := "indexed"; Order := "desc" |}.

(** An environment with ample quota whose search answers one hit on
    page 1 and nothing from page 2 on. *)
Definition twoPages : Env :=
  {| clock := ticking;
     rateLimitGet := rateLimitGet ample;
     searchCodeApi := fun _ _ _ page =>
       if page =? 1 then SearchOk [Some leak] 1 else SearchOk [] 1;
     dbFault := dbFault ample;
     jsonUnmarshalStrings := unmarshal;
     jsonMarshalStrings := jsonMarshalStrings ample;
     ToLower := lower;
     formatTime := formatTime ample |}.

(** A rule whose keywords are not JSON, a rule that is switched off, and
    a database that holds them after the rule for [password]. *)
Definition brokenKeywordsRule : MonitorRule :=
  {| RuleID := 2; RuleName := "broken"; RuleKeywords := "{password";
     RuleMatchType := "fuzzy"; RuleIsActive := true; RuleExcludeExts := "" |}.

Definition dormantRule : MonitorRule :=
  {| RuleID := 3; RuleName := "dormant"; RuleKeywords := passwordJSON;
     RuleMatchType := "precise"; RuleIsActive := false; RuleExcludeExts := "" |}.

Definition threeRules : World :=
  {| trace := [];
     db := {| monitor_rules := [passwordRule; dormantRule; brokenKeywordsRule];
              search_results := []; whitelists := []; scan_histories := [] |} |}.

(** An environment whose database fails on its first statement only. *)
Definition hiccup : Env :=
  {| clock := ticking;
     rateLimitGet := rateLimitGet ample;
     searchCodeApi := searchCodeApi ample;
     dbFault := fun n => if (n =? 0)%nat then Some "connection reset" else None;
     jsonUnmarshalStrings := unmarshal;
     jsonMarshalStrings := jsonMarshalStrings ample;
     ToLower := lower;
     formatTime := formatTime ample |}.

(** An environment whose quota endpoint answers without a core rate. *)
Definition coreless : Env :=
  {| clock := ticking;
     rateLimitGet := fun _ _ => RateLimitOk None;
     searchCodeApi := searchCodeApi ample;
     dbFault := dbFault ample;
     jsonUnmarshalStrings := unmarshal;
     jsonMarshalStrings := jsonMarshalStrings ample;
     ToLower := lower;
     formatTime := formatTime ample |}.

(** The environment [ample] with a database that fails on the statement
    it is sent after [k] events, and on no other. *)
Definition faultyAt (k : nat) : Env :=
  {| clock := ticking;
     rateLimitGet := rateLimitGet ample;
     searchCodeApi := searchCodeApi ample;
     dbFault := fun n => if (n =? k)%nat then Some "connection reset" else None;
     jsonUnmarshalStrings := unmarshal;
     jsonMarshalStrings := jsonMarshalStrings ample;
     ToLower := lower;
     formatTime := formatTime ample |}.

(** An environment with ample quota whose search answers every request,
    whatever the page, with one hit. *)
Definition endless : Env :=
  {| clock := ticking;
     rateLimitGet := rateLimitGet ample;
     searchCodeApi := fun _ _ _ _ => SearchOk [Some leak] 5000;
     dbFault := dbFault ample;
     jsonUnmarshalStrings := unmarshal;
     jsonMarshalStrings := jsonMarshalStrings ample;
     ToLower := lower;
     formatTime := formatTime ample |}.

(** An environment in which the quota endpoint refuses the token [ghp_A]
    and reports ample quota for any other. *)
Definition failing : Env :=
  {| clock := ticking;
     rateLimitGet := fun n token =>
       if String.eqb token "ghp_A" then RateLimitErr "401 Bad credentials"
       else rateLimitGet ample n token;
     searchCodeApi := searchCodeApi ample;
     dbFault := dbFault ample;
     jsonUnmarshalStrings := unmarshal;
     jsonMarshalStrings := jsonMarshalStrings ample;
     ToLower := lower;
     formatTime := formatTime ample |}.

(** A token marked unavailable, last seen with no calls left in a window
    that ended one minute before noon; a pool whose first token is in
    that state, and a pool whose tokens all are. *)
Definition down (token : string) : TokenInfo :=
  {| Token := token;
     RateLimit := Some {| Limit := 5000; Remaining := 0; Reset := noon - Minute |};
     IsAvailable := false;
     LastChecked := noon - 60 * Minute |}.

Definition oneDown : TokenPool :=
  {| tokens := [down "ghp_A"; fresh "ghp_B"]; currentIndex := 0 |}.

Definition allDown : TokenPool :=
  {| tokens := [down "ghp_A"; down "ghp_B"]; currentIndex := 0 |}.

End Scenario.

(** The end of the loop body of [GetClient], from [p.nextToken()] on, with
    the rest of the loop as [continue]: the local [advance] of
    [GetClient_loop], named so that the loop can be unfolded one iteration
    at a time. *)
Definition GetClient_advance (env : Env) (startIndex maxAttempts attempts : nat)
    (continue : TokenPool -> World -> (error + nat) * TokenPool * World)
    (p : TokenPool) (w : World) : (error + nat) * TokenPool * World :=
  let p := nextToken p in
  if (currentIndex p =? startIndex)%nat && (S attempts =? maxAttempts)%nat then
    let nextReset := getNextResetTime p in
    if negb (IsZero nextReset)
       && (Until (clock env (tick w)) nextReset <? 5 * Minute)
    then (inl (ErrAllRateLimited nextReset), p, w)
    else continue p w
  else continue p w.

(** The events of the page loop of one search run with [token] and
    [query]: requests with that token and query, and the 2 s pauses. *)
Definition page_event (token query : string) (ev : Event) : Prop :=
  match ev with
  | EvSearchCode token' query' _ => token' = token /\ query' = query
  | EvSleep d => d = 2 * Second
  | _ => False
  end.

(** Whether, in a trace, every search request comes after a call to the
    quota endpoint of its own, as it would if each request were made with
    a token acquired for it: a successful [GetClient] ends with such a
    call.  [acquired] tells whether a call is pending. *)
Fixpoint acquires_per_page (acquired : bool) (evs : list Event) : bool :=
  match evs with
  | [] => true
  | EvRateLimitGet _ :: rest => acquires_per_page true rest
  | EvSearchCode _ _ _ :: rest => acquired && acquires_per_page false rest
  | _ :: rest => acquires_per_page acquired rest
  end.



(** Whether two candidates have the same repository and file path. *)
Definition sameCandidate (c d : SearchResultItem) : bool :=
  String.eqb (RepoFullName c) (RepoFullName d)
  && String.eqb (FilePath c) (FilePath d).

(** Whether the key of a candidate, under the rule [ruleID], is in the
    stored rows. *)
Definition stored (ruleID : N) (rows : list SearchResult) (c : SearchResultItem) : bool :=
  match List.find (sameKey ruleID (RepoFullName c) (FilePath c)) rows with
  | Some _ => true
  | None => false
  end.

(** The candidates without those that repeat the key of an earlier one. *)
Fixpoint firstOfKey (cs : list SearchResultItem) : list SearchResultItem :=
  match cs with
  | [] => []
  | c :: rest => c :: filter (fun d => sameCandidate c d = false) (firstOfKey rest)
  end.

(** The candidates [saveResults] has to insert: one per key that is not
    stored. *)
Definition absent (ruleID : N) (rows : list SearchResult)
    (cs : list SearchResultItem) : list SearchResultItem :=
  filter (fun c => stored ruleID rows c = false) (firstOfKey cs).

(** Whether no two of the candidates have the same key. *)
Fixpoint distinctKeys (cs : list SearchResultItem) : bool :=
  match cs with
  | [] => true
  | c :: rest => forallb (fun d => negb (sameCandidate c d)) rest && distinctKeys rest
  end.

(** A rule with another text for its excluded extensions. *)
Definition withExcludeExts (extsJSON : string) (rule : MonitorRule) : MonitorRule :=
  {| RuleID := RuleID rule; RuleName := RuleName rule;
     RuleKeywords := RuleKeywords rule; RuleMatchType := RuleMatchType rule;
     RuleIsActive := RuleIsActive rule; RuleExcludeExts := extsJSON |}.

(** What a cycle keeps true of every token of the pool: its string is one
    of [toks], and its snapshot, when it has one, satisfies [P]. *)
Definition kept (toks : list string) (P : Rate -> Prop) (t : TokenInfo) : Prop :=
  Token t ∈ toks /\ forall rate, RateLimit t = Some rate -> P rate.

(** The verdict of [GetClient] at the end of a cycle that found no usable
    token: the test on [getNextResetTime], on the pool [p] and in the
    world [w] the cycle ends with. *)
Definition cycle_verdict (env : Env) (p : TokenPool) (w : World) : error :=
  let nextReset := getNextResetTime p in
  if negb (IsZero nextReset) && (Until (clock env (tick w)) nextReset <? 5 * Minute)
  then ErrAllRateLimited nextReset
  else ErrNoAvailableTokens.

(** One iteration of the loop of [GetClient] that does not return the
    token under the pointer: either the token is unavailable and nothing
    happens, or it is refreshed and then marked unavailable, because the
    refresh failed or left it without calls to spare.  The iteration goes
    on from the pool and the world on the right. *)
Inductive skipped (env : Env) (p : TokenPool) (w : World)
  : TokenPool -> World -> Prop :=
| skipped_unavailable t :
    tokens p !! currentIndex p = Some t ->
    IsAvailable t = false ->
    skipped env p w p w
| skipped_marked t err t' w1 :
    tokens p !! currentIndex p = Some t ->
    IsAvailable t = true ->
    UpdateRateLimit env t w = (err, t', w1) ->
    (err = None -> HasRemainingCalls t' 10 (clock env (tick w1)) = false) ->
    skipped env p w
      (markTokenUnavailable (currentIndex p) (storeToken (currentIndex p) t' p)) w1.

(** [k] iterations in a row that each skip the token under the pointer
    and move the pointer on to the next token. *)
Inductive passed (env : Env) : nat -> TokenPool -> World -> TokenPool -> World -> Prop :=
| passed_none p w :
    passed env 0 p w p w
| passed_step k p w q w1 p' w' :
    skipped env p w q w1 ->
    passed env k (nextToken q) w1 p' w' ->
    passed env (S k) p w p' w'.

(** A pool as [NewTokenPool] builds it and [GetClient] keeps it: not
    empty, with the pointer inside. *)
Definition wf_pool (p : TokenPool) : Prop :=
  (currentIndex p < length (tokens p))%nat.

(** A call to the quota endpoint for one of the token strings [toks]. *)
Definition quota_call (toks : list string) (ev : Event) : Prop :=
  exists token, token ∈ toks /\ ev = EvRateLimitGet token.

(** The events of [k] page requests of one search, from the page [first]
    on, with the 2 s pause between two requests. *)
Fixpoint pages_trace (token query : string) (first : Z) (k : nat) : list Event :=
  match k with
  | O => []
  | S k' =>
      EvSearchCode token query first
      :: match k' with
         | O => []
         | S _ => EvSleep (2 * Second) :: pages_trace token query (first + 1) k'
         end
  end.

(** A pause. *)
Definition is_sleep (ev : Event) : Prop :=
  match ev with EvSleep _ => True | _ => False end.

(** A statement sent to the database. *)
Definition is_statement (ev : Event) : Prop :=
  match ev with EvDB _ => True | _ => False end.

(** The world [w'] comes after [w]: its trace is that of [w] and then
    events that all satisfy [Q]. *)
Definition follows (Q : Event -> Prop) (w w' : World) : Prop :=
  exists evs, trace w' = trace w ++ evs /\ Forall Q evs.

(** What it is for a whitelist entry to cover a repository: an entry of
    type [repo] names it in full, an entry of type [user] names what
    stands before its first slash. *)
Definition whitelist_match (entry : Whitelist) (fullName : string) : Prop :=
  (wl_Type entry = "repo" /\ fullName = wl_Value entry)
  \/ (wl_Type entry = "user"
      /\ Strings.Contains (wl_Value entry) "/" = false
      /\ exists rest, fullName = wl_Value entry +:+ "/" +:+ rest).

(** The de-duplication key of a stored row. *)
Definition rowKey (row : SearchResult) : N * string * string :=
  (sr_RuleID row, sr_RepoFullName row, sr_FilePath row).

(** * Properties *)

(** ** Strings *)

Lemma HasPrefix_app (s t prefix : string) :
  Strings.HasPrefix s prefix = true -> Strings.HasPrefix (s +:+ t) prefix = true.
Proof.
  revert s. induction prefix as [|c pre IH]; intros [|d s]; simpl.
  - by destruct t.
  - done.
  - done.
  - destruct (Ascii.eqb c d); [apply IH | done].
Qed.

Lemma Contains_cons (d : ascii) (s substr : string) :
  Strings.Contains (String d s) substr
  = if Strings.HasPrefix (String d s) substr then true else Strings.Contains s substr.
Proof. reflexivity. Qed.

Lemma Contains_app_l (s t substr : string) :
  Strings.Contains s substr = true -> Strings.Contains (s +:+ t) substr = true.
Proof.
  induction s as [|d s IH].
  - destruct substr; [by destruct t | done].
  - change (String d s +:+ t) with (String d (s +:+ t)).
    rewrite !Contains_cons.
    destruct (Strings.HasPrefix (String d s) substr) eqn:E.
    + intros _.
      change (String d (s +:+ t)) with (String d s +:+ t).
      by rewrite (HasPrefix_app _ _ _ E).
    + intros H. rewrite (IH H). by case (Strings.HasPrefix (String d (s +:+ t)) substr).
Qed.

Lemma Contains_app_r (s t substr : string) :
  Strings.Contains t substr = true -> Strings.Contains (s +:+ t) substr = true.
Proof.
  intros H. induction s as [|d s IH]; [done|].
  change (String d s +:+ t) with (String d (s +:+ t)).
  rewrite Contains_cons, IH. by case (Strings.HasPrefix (String d (s +:+ t)) substr).
Qed.



Lemma pool_exhaustion_classified formatTime nextReset :
  Strings.Contains
    (Error formatTime (ErrWrap "failed to get client" (ErrAllRateLimited nextReset)))
    "rate limit"
  = true.
Proof.
  apply (Contains_app_r "failed to get client: all tokens ").
  apply (Contains_app_l "rate limited, next reset at "). reflexivity.
Qed.

(** ** Durations *)

(** [int(d.Seconds())] goes through [float64].  It is the whole number of
    seconds of a short duration, towards zero; from 2^24 s on it is one
    more than that when the nanoseconds come within half a unit in the
    last place of the next second. *)
Example SecondsInt_rounds :
  SecondsInt (90 * Second + 999999999) = 90
  /\ SecondsInt (- (90 * Second + 999999999)) = -90
  /\ SecondsInt (2 ^ 24 * Second + 999999998) = 2 ^ 24
  /\ SecondsInt (2 ^ 24 * Second + 999999999) = 2 ^ 24 + 1.
Proof. vm_compute. by repeat split. Qed.

(** ** Query building *)

Lemma filter_nonEmpty_middle (ks1 ks2 : list string) :
  filter (fun keyword => Strings.nonEmpty keyword = true) (ks1 ++ EmptyString :: ks2)
  = filter (fun keyword => Strings.nonEmpty keyword = true) (ks1 ++ ks2).
Proof. by rewrite !filter_app, filter_cons_False by done. Qed.

(** C7.  The keywords [password], [api_key] with the excluded extension
    [md] give the query ["password" "api_key" -extension:md] in precise
    mode and [password api_key -extension:md] in fuzzy mode; and in either
    mode an empty keyword anywhere in the list leaves the query as it is
    without it.  The expected text of the precise mode is spelled out
    byte by byte where it has a double quote: ["034"] is the character of
    code 34, and the query has 34 bytes, four of them double quotes. *)
Theorem buildQuery_examples :
  (forall sort order,
      let query :=
        buildQuery {| Keywords := ["password"; "api_key"]; MatchType := "precise";
                      ExcludeExts := ["md"]; Language := "";
                      Sort := sort; Order := order |} in
      query
      = String "034" "password" +:+ String "034" " "
        +:+ String "034" "api_key" +:+ String "034" " -extension:md"
      /\ String.length query = 34%nat
      /\ length (filter (fun c => c = "034"%char) (list_ascii_of_string query)) = 4%nat)
  /\ (forall sort order,
      buildQuery {| Keywords := ["password"; "api_key"]; MatchType := "fuzzy";
                    ExcludeExts := ["md"]; Language := "";
                    Sort := sort; Order := order |}
      = "password api_key -extension:md")
  /\ (forall ks1 ks2 matchType exts language sort order,
      buildQuery {| Keywords := ks1 ++ EmptyString :: ks2; MatchType := matchType;
                    ExcludeExts := exts; Language := language;
                    Sort := sort; Order := order |}
      = buildQuery {| Keywords := ks1 ++ ks2; MatchType := matchType;
                      ExcludeExts := exts; Language := language;
                      Sort := sort; Order := order |}).
Proof.
  split; [|split].
  - intros sort order. cbv zeta. split; [reflexivity|]. split; reflexivity.
  - intros; reflexivity.
  - intros. unfold buildQuery; simpl.
    by rewrite filter_nonEmpty_middle.
Qed.

(** ** Normalisation *)

(** C10 (as the code has it).  Whatever the hit, the item that
    [convertToSearchResultItem] builds has the score 1.0. *)
Theorem convert_score_is_default env result keywords now item :
  convertToSearchResultItem env result keywords now = Some item ->
  Score item = 1%Q.
Proof.
  unfold convertToSearchResultItem.
  destruct result as [result|]; [|done].
  destruct (Repo result); [|done].
  by intros [= <-].
Qed.

Lemma convert_score_is_default_witness :
  exists item,
    convertToSearchResultItem Scenario.ample (Some Scenario.leak) ["password"] Scenario.noon
    = Some item /\ Score item = 1%Q.
Proof.
  eexists. split; [reflexivity|].
  apply (convert_score_is_default Scenario.ample (Some Scenario.leak)
           ["password"] Scenario.noon).
  reflexivity.
Defined.

(** C10, refuted as stated.  An upstream hit that carries the score 42.5
    is normalised to an item of score 1.0. *)
Lemma normalize_drops_upstream_score :
  exists item,
    normalize Scenario.ample
      {| hit_result := Scenario.leak; hit_score := Some (85 # 2)%Q |}
      ["password"] Scenario.noon = Some item
    /\ ~ Qeq (Score item) (85 # 2).
Proof.
  eexists. split; [reflexivity|].
  simpl. unfold Qeq; simpl. lia.
Qed.

(** ** The token pool *)

Section PoolFacts.

Context (env : Env).

Lemma GetClient_loop_S startIndex maxAttempts remaining attempts p w :
  GetClient_loop env startIndex maxAttempts (S remaining) attempts p w
  = let continue := GetClient_loop env startIndex maxAttempts remaining (S attempts) in
    match tokens p !! currentIndex p with
    | None => (inl ErrIndexOutOfRange, p, w)
    | Some tokenInfo =>
        if IsAvailable tokenInfo then
          let '(err, tokenInfo, w) := UpdateRateLimit env tokenInfo w in
          let p := storeToken (currentIndex p) tokenInfo p in
          match err with
          | Some _ => continue (nextToken (markTokenUnavailable (currentIndex p) p)) w
          | None =>
              if HasRemainingCalls tokenInfo 10 (clock env (tick w))
              then match RateLimit tokenInfo with
                   | None => (inl ErrNilDereference, p, w)
                   | Some _ => (inr (currentIndex p), p, w)
                   end
              else GetClient_advance env startIndex maxAttempts attempts continue
                     (markTokenUnavailable (currentIndex p) p) w
          end
        else GetClient_advance env startIndex maxAttempts attempts continue p w
    end.
Proof.
  simpl. destruct (tokens p !! currentIndex p) as [tokenInfo|]; [|done].
  destruct (IsAvailable tokenInfo); [|done].
  destruct (UpdateRateLimit env tokenInfo w) as [[[e|] t'] w1]; done.
Qed.

Lemma UpdateRateLimit_inv t w err t' w' :
  UpdateRateLimit env t w = (err, t', w') ->
  w' = emit (EvRateLimitGet (Token t)) w /\ Token t' = Token t.
Proof.
  unfold UpdateRateLimit.
  destruct (rateLimitGet env (tick w) (Token t)) as [msg|[core|]];
    intros [= <- <- <-]; done.
Qed.

Lemma tick_emit ev w : tick (emit ev w) = S (tick w).
Proof. unfold tick, emit; simpl. rewrite length_app; simpl; lia. Qed.

(** What a successful acquisition leaves behind: the pointer rests on
    the returned token, and the last thing the pool did was to ask the
    quota endpoint about that token. *)
Lemma GetClient_loop_inr startIndex maxAttempts remaining attempts p w i p' w' :
  GetClient_loop env startIndex maxAttempts remaining attempts p w = (inr i, p', w') ->
  currentIndex p' = i
  /\ db w' = db w
  /\ exists t evs,
       tokens p' !! i = Some t
       /\ trace w' = trace w ++ evs ++ [EvRateLimitGet (Token t)].
Proof.
  revert attempts p w.
  induction remaining as [|remaining IH]; intros attempts p w; [done|].
  rewrite GetClient_loop_S; cbv zeta.
  destruct (tokens p !! currentIndex p) as [t|] eqn:Hlookup; [|done].
  assert (forall q w1,
    db w1 = db w ->
    (exists evs, trace w1 = trace w ++ evs) ->
    GetClient_advance env startIndex maxAttempts attempts
      (GetClient_loop env startIndex maxAttempts remaining (S attempts)) q w1
    = (inr i, p', w') ->
    currentIndex p' = i /\ db w' = db w
    /\ exists t evs, tokens p' !! i = Some t
         /\ trace w' = trace w ++ evs ++ [EvRateLimitGet (Token t)]) as Hadvance.
  { intros q w1 Hdb [evs Hevs]. unfold GetClient_advance.
    assert (GetClient_loop env startIndex maxAttempts remaining (S attempts)
              (nextToken q) w1 = (inr i, p', w') -> currentIndex p' = i /\ db w' = db w
            /\ exists t evs, tokens p' !! i = Some t
                 /\ trace w' = trace w ++ evs ++ [EvRateLimitGet (Token t)]) as Hrec.
    { intros H. apply IH in H as (Hi & Hdb' & t1 & evs1 & Ht1 & Htr).
      split; [done|]. split; [congruence|].
      exists t1, (evs ++ evs1). split; [done|].
      by rewrite Htr, Hevs, <- !app_assoc. }
    destruct (_ && _); [|done].
    destruct (_ && _); [done|done]. }
  destruct (IsAvailable t).
  - destruct (UpdateRateLimit env t w) as [[err t'] w1] eqn:Hupdate.
    apply UpdateRateLimit_inv in Hupdate as [-> Htoken].
    destruct err as [e|].
    + intros H. apply IH in H as (Hi & Hdb' & t1 & evs1 & Ht1 & Htr).
      split; [done|]. split; [done|].
      exists t1, (EvRateLimitGet (Token t) :: evs1). split; [done|].
      rewrite Htr. simpl. by rewrite <- app_assoc.
    + destruct (HasRemainingCalls t' 10 _).
      * destruct (RateLimit t'); [|done].
        intros [= <- <- <-]. simpl. split; [done|]. split; [done|].
        exists t', []. split.
        -- apply list_lookup_insert_eq. by eapply lookup_lt_Some.
        -- by rewrite Htoken.
      * apply Hadvance; [done|]. by eexists.
  - apply Hadvance; [done|]. exists []. by rewrite app_nil_r.
Qed.

Lemma GetClient_inr p w i p' w' :
  GetClient env p w = (inr i, p', w') ->
  currentIndex p' = i
  /\ db w' = db w
  /\ exists t evs,
       tokens p' !! i = Some t
       /\ trace w' = trace w ++ evs ++ [EvRateLimitGet (Token t)].
Proof. apply GetClient_loop_inr. Qed.

(** The first iteration, when the token under the pointer is available,
    its refresh succeeds and leaves it with a snapshot and with calls
    left: it is returned at once and the pointer stays. *)
Lemma GetClient_current p w t t' w' rate :
  tokens p !! currentIndex p = Some t ->
  IsAvailable t = true ->
  UpdateRateLimit env t w = (None, t', w') ->
  RateLimit t' = Some rate ->
  HasRemainingCalls t' 10 (clock env (tick w')) = true ->
  GetClient env p w = (inr (currentIndex p), storeToken (currentIndex p) t' p, w').
Proof.
  intros Hlookup Havailable Hupdate Hrate Hcalls. unfold GetClient.
  destruct (tokens p) as [|t0 ts] eqn:Htokens; [done|].
  change (length (t0 :: ts)) with (S (length ts)).
  rewrite GetClient_loop_S; cbv zeta.
  rewrite Htokens, Hlookup, Havailable, Hupdate. simpl.
  by rewrite Hcalls, Hrate.
Qed.

End PoolFacts.

(** C4 (as the code has it).  Every acquisition that succeeds has just
    asked the quota endpoint about the token it returns; and an available
    token under the pointer whose snapshot, after that call, has a reset
    time in the past is returned whatever its remaining count. *)
Theorem GetClient_refreshes_then_trusts_reset env p w :
  (forall i p' w',
      GetClient env p w = (inr i, p', w') ->
      exists t evs,
        tokens p' !! i = Some t
        /\ trace w' = trace w ++ evs ++ [EvRateLimitGet (Token t)])
  /\ (forall t t' w' rate,
      tokens p !! currentIndex p = Some t ->
      IsAvailable t = true ->
      UpdateRateLimit env t w = (None, t', w') ->
      RateLimit t' = Some rate ->
      Reset rate < clock env (tick w') ->
      GetClient env p w
      = (inr (currentIndex p), storeToken (currentIndex p) t' p, w')
      /\ trace w' = trace w ++ [EvRateLimitGet (Token t)]).
Proof.
  split.
  - intros i p' w' H. by apply GetClient_inr in H as (_ & _ & H).
  - intros t t' w' rate Hlookup Havailable Hupdate Hrate Hreset. split.
    + eapply GetClient_current; [done..|].
      unfold HasRemainingCalls. rewrite Hrate.
      by replace (After _ _) with true by (symmetry; apply Z.ltb_lt; lia).
    + by apply UpdateRateLimit_inv in Hupdate as [-> _].
Qed.

Lemma GetClient_refreshes_then_trusts_reset_witness :
  exists p' w',
    GetClient Scenario.lagging Scenario.recovered Scenario.start = (inr 0%nat, p', w')
    /\ trace w' = trace Scenario.start ++ [EvRateLimitGet "ghp_A"]
    /\ exists t evs,
         tokens p' !! 0%nat = Some t
         /\ trace w' = trace Scenario.start ++ evs ++ [EvRateLimitGet (Token t)].
Proof.
  destruct (GetClient_refreshes_then_trusts_reset
              Scenario.lagging Scenario.recovered Scenario.start) as [Hany Hcurrent].
  destruct (Hcurrent Scenario.spent
              {| Token := "ghp_A";
                 RateLimit := Some {| Limit := 5000; Remaining := 0;
                                      Reset := Scenario.noon - Minute |};
                 IsAvailable := true;
                 LastChecked := Scenario.ticking 1 |}
              (emit (EvRateLimitGet "ghp_A") Scenario.start)
              {| Limit := 5000; Remaining := 0; Reset := Scenario.noon - Minute |})
    as [Hget Htrace].
  - reflexivity.
  - reflexivity.
  - vm_compute. reflexivity.
  - reflexivity.
  - vm_compute. reflexivity.
  - eexists _, _. split; [exact Hget|]. split; [exact Htrace|].
    exact (Hany _ _ _ Hget).
Defined.

(** C4, refuted as stated.  A token whose reset time has passed is
    returned only after a call to the quota endpoint: the trace of the
    acquisition holds that call. *)
Lemma GetClient_calls_quota_endpoint_first :
  exists p' w',
    GetClient Scenario.lagging Scenario.recovered Scenario.start = (inr 0%nat, p', w')
    /\ trace w' = [EvRateLimitGet "ghp_A"]
    /\ trace w' <> [].
Proof. eexists _, _. split; [vm_compute; reflexivity|]. by split. Qed.

(** *** A cycle over a pool in which no token is usable *)

Section Exhaustion.

Context (env : Env) (startIndex n lo hi : nat) (toks : list string).
Context (P : Rate -> Prop).

(** Between the events [lo] and [hi], the quota endpoint reports, for
    each token string of [toks], at most 10 calls left and a reset time
    that has not passed; [P] is what else is known of those reports. *)
Hypothesis Hquota :
  forall m tok, (lo <= m <= hi)%nat -> tok ∈ toks ->
    exists core,
      rateLimitGet env m tok = RateLimitOk (Some core)
      /\ Remaining core <= 10
      /\ (forall m', (lo <= m' <= hi)%nat -> clock env m' <= Reset core)
      /\ P core.

(** One iteration neither returns nor fails: it reaches the end of the
    loop body with the pointer where it was. *)
Lemma GetClient_iteration_exhausted remaining attempts p w :
  length (tokens p) = n ->
  (currentIndex p < n)%nat ->
  (lo <= tick w)%nat -> (tick w + 1 <= hi)%nat ->
  Forall (kept toks P) (tokens p) ->
  exists q w1,
    GetClient_loop env startIndex n (S remaining) attempts p w
    = GetClient_advance env startIndex n attempts
        (GetClient_loop env startIndex n remaining (S attempts)) q w1
    /\ length (tokens q) = n
    /\ currentIndex q = currentIndex p
    /\ Forall (kept toks P) (tokens q)
    /\ (tick w <= tick w1 <= tick w + 1)%nat.
Proof.
  intros Hlen Hlt Hlo Hhi Hkept.
  rewrite GetClient_loop_S; cbv zeta.
  destruct (lookup_lt_is_Some_2 (tokens p) (currentIndex p)) as [t Hlookup]; [lia|].
  rewrite Hlookup.
  pose proof (Forall_lookup_1 _ _ _ _ Hkept Hlookup) as [Htok Hrate].
  destruct (IsAvailable t) eqn:Havailable.
  - destruct (Hquota (tick w) (Token t)) as (core & Hget & Hcore & Hreset & HP);
      [lia|done|].
    unfold UpdateRateLimit. rewrite Hget.
    replace (10 <? Remaining core) with false by (symmetry; apply Z.ltb_ge; lia).
    cbv beta iota zeta. unfold HasRemainingCalls. cbn [RateLimit].
    replace (After _ (Reset core)) with false.
    2:{ symmetry. apply Z.ltb_ge. apply Hreset. rewrite tick_emit. lia. }
    replace (10 <? Remaining core) with false by (symmetry; apply Z.ltb_ge; lia).
    eexists _, _. split; [reflexivity|].
    unfold markTokenUnavailable, storeToken; cbn [tokens currentIndex].
    rewrite length_alter, length_insert, tick_emit.
    split; [done|]. split; [done|]. split; [|lia].
    apply Forall_alter.
    + apply Forall_insert; [done|]. split; [done|]. by intros rate [= <-].
    + intros t1 _ [H1 H2]. by split.
  - exists p, w. split; [done|]. split; [done|]. split; [done|]. split; [done|]. lia.
Qed.

Lemma currentIndex_advance q attempts :
  length (tokens q) = n ->
  (startIndex < n)%nat ->
  currentIndex q = ((startIndex + attempts) mod n)%nat ->
  currentIndex (nextToken q) = ((startIndex + S attempts) mod n)%nat.
Proof.
  intros Hlen Hstart Hindex. unfold nextToken; simpl.
  rewrite Hlen, Hindex, Nat.Div0.add_mod_idemp_l. f_equal. lia.
Qed.

(** A whole cycle ends with the verdict on the reset times. *)
Lemma GetClient_loop_exhausted remaining attempts p w :
  (attempts + S remaining = n)%nat ->
  length (tokens p) = n ->
  (startIndex < n)%nat ->
  currentIndex p = ((startIndex + attempts) mod n)%nat ->
  (lo <= tick w)%nat -> (tick w + S remaining <= hi)%nat ->
  Forall (kept toks P) (tokens p) ->
  exists p' w',
    GetClient_loop env startIndex n (S remaining) attempts p w
    = (inl (cycle_verdict env p' w'), p', w')
    /\ Forall (kept toks P) (tokens p')
    /\ (lo <= tick w' <= hi)%nat.
Proof.
  revert attempts p w.
  induction remaining as [|remaining IH];
    intros attempts p w Hsum Hlen Hstart Hindex Hlo Hhi Hkept.
  - destruct (GetClient_iteration_exhausted 0 attempts p w)
      as (q & w1 & -> & Hlenq & Hq & Hkeptq & Htick); [done| |done|lia|done|].
    { rewrite Hindex. apply Nat.mod_upper_bound. lia. }
    unfold GetClient_advance.
    assert (currentIndex (nextToken q) = startIndex) as ->.
    { rewrite (currentIndex_advance q attempts); [|done|done|congruence].
      replace (startIndex + S attempts)%nat with (startIndex + 1 * n)%nat by lia.
      rewrite Nat.Div0.mod_add. apply Nat.mod_small. lia. }
    rewrite Nat.eqb_refl.
    replace (S attempts =? n)%nat with true by (symmetry; apply Nat.eqb_eq; lia).
    cbv zeta. simpl andb at 1. exists (nextToken q), w1.
    split; [|split; [done|lia]].
    unfold cycle_verdict. by destruct (_ && _).
  - destruct (GetClient_iteration_exhausted (S remaining) attempts p w)
      as (q & w1 & -> & Hlenq & Hq & Hkeptq & Htick); [done| |done|lia|done|].
    { rewrite Hindex. apply Nat.mod_upper_bound. lia. }
    unfold GetClient_advance.
    replace (S attempts =? n)%nat with false by (symmetry; apply Nat.eqb_neq; lia).
    rewrite andb_false_r.
    apply IH; try done; try lia.
    apply currentIndex_advance; [done|done|congruence].
Qed.

End Exhaustion.

(** [getNextResetTime] returns a reset time of the pool, or the zero time
    when no token has a snapshot. *)
Lemma getNextResetTime_from_origin nextReset ts :
  getNextResetTime_from nextReset ts = nextReset
  \/ exists t rate,
       t ∈ ts /\ RateLimit t = Some rate
       /\ Reset rate = getNextResetTime_from nextReset ts.
Proof.
  revert nextReset. induction ts as [|t ts IH]; intros nextReset; simpl; [by left|].
  destruct (RateLimit t) as [rate|] eqn:Hrate.
  - destruct (IsZero nextReset || Before (Reset rate) nextReset).
    + right. destruct (IH (Reset rate)) as [->|(t1 & rate1 & Hin & H1 & H2)].
      * exists t, rate. split; [by left|done].
      * exists t1, rate1. split; [by right|done].
    + destruct (IH nextReset) as [->|(t1 & rate1 & Hin & H1 & H2)]; [by left|].
      right. exists t1, rate1. split; [by right|done].
  - destruct (IH nextReset) as [->|(t1 & rate1 & Hin & H1 & H2)]; [by left|].
    right. exists t1, rate1. split; [by right|done].
Qed.

(** When no snapshot has the zero time as its reset time, it is the
    earliest of them. *)
Lemma getNextResetTime_from_earliest nextReset ts :
  (forall t rate, t ∈ ts -> RateLimit t = Some rate -> Reset rate <> 0) ->
  (nextReset <> 0 -> getNextResetTime_from nextReset ts <= nextReset)
  /\ forall t rate, t ∈ ts -> RateLimit t = Some rate ->
       getNextResetTime_from nextReset ts <= Reset rate.
Proof.
  revert nextReset. induction ts as [|t ts IH]; intros nextReset Hnonzero; simpl.
  { split; [lia|]. intros t rate Hin. by apply elem_of_nil in Hin. }
  assert (forall t1 rate, t1 ∈ ts -> RateLimit t1 = Some rate -> Reset rate <> 0) as Hts.
  { intros t1 rate Hin. apply Hnonzero. by right. }
  destruct (RateLimit t) as [rate|] eqn:Hrate.
  - assert (Reset rate <> 0) as Hr by (apply (Hnonzero t); [by left|done]).
    unfold IsZero, Before.
    destruct (nextReset =? 0) eqn:Hzero; simpl.
    + apply Z.eqb_eq in Hzero. destruct (IH (Reset rate) Hts) as [Hacc Hall].
      split; [lia|]. intros t1 rate1 Hin H1.
      apply elem_of_cons in Hin as [->|Hin]; [|by eapply Hall].
      rewrite Hrate in H1. injection H1 as <-. by apply Hacc.
    + apply Z.eqb_neq in Hzero.
      destruct (Reset rate <? nextReset) eqn:Hlt.
      * apply Z.ltb_lt in Hlt. destruct (IH (Reset rate) Hts) as [Hacc Hall].
        specialize (Hacc Hr). split; [lia|]. intros t1 rate1 Hin H1.
        apply elem_of_cons in Hin as [->|Hin]; [|by eapply Hall].
        rewrite Hrate in H1. by injection H1 as <-.
      * apply Z.ltb_ge in Hlt. destruct (IH nextReset Hts) as [Hacc Hall].
        specialize (Hacc Hzero). split; [lia|]. intros t1 rate1 Hin H1.
        apply elem_of_cons in Hin as [->|Hin]; [|by eapply Hall].
        rewrite Hrate in H1. injection H1 as <-. lia.
  - destruct (IH nextReset Hts) as [Hacc Hall]. split; [done|].
    intros t1 rate1 Hin H1.
    apply elem_of_cons in Hin as [->|Hin]; [congruence|by eapply Hall].
Qed.

Lemma Until_far now t :
  now + 5 * Minute <= t -> (Until now t <? 5 * Minute) = false.
Proof.
  intros H. apply Z.ltb_ge. unfold Until, Sub.
  assert (5 * Minute <= maxDuration) as Hmax by (vm_compute; discriminate).
  assert (minDuration <= 0) as Hmin by (vm_compute; discriminate).
  destruct (t - now <? minDuration) eqn:Hlow; [apply Z.ltb_lt in Hlow; lia|].
  destruct (maxDuration <? t - now); lia.
Qed.

Lemma cycle_verdict_typed env p w T :
  cycle_verdict env p w = ErrAllRateLimited T ->
  T = getNextResetTime p /\ T <> 0 /\ Until (clock env (tick w)) T < 5 * Minute.
Proof.
  unfold cycle_verdict. cbv zeta.
  destruct (negb (IsZero (getNextResetTime p))) eqn:Hzero; simpl; [|done].
  destruct (Until _ _ <? 5 * Minute) eqn:Hsoon; [|done].
  intros [= <-]. split; [done|]. split.
  - unfold IsZero in Hzero. apply negb_true_iff, Z.eqb_neq in Hzero. done.
  - by apply Z.ltb_lt.
Qed.

(** C3 (as the code has it).  Take a pool whose tokens are all reported,
    during the acquisition, with at most 10 calls left and a reset time
    that has not passed.  Then [GetClient] fails, with the verdict of the
    end of the cycle.  When all reset times, reported and stored, lie 5
    minutes or more ahead, the failure is the plain "no available tokens";
    and whenever the failure is "all tokens rate limited", the time it
    carries is a reset time of the pool less than 5 minutes ahead, the
    earliest one as long as no snapshot has the zero time. *)
Theorem GetClient_exhausted env p w :
  (currentIndex p < length (tokens p))%nat ->
  (forall m tok,
      (tick w <= m <= tick w + length (tokens p))%nat ->
      tok ∈ Token <$> tokens p ->
      exists core,
        rateLimitGet env m tok = RateLimitOk (Some core)
        /\ Remaining core <= 10
        /\ forall m', (tick w <= m' <= tick w + length (tokens p))%nat ->
             clock env m' <= Reset core) ->
  (exists p' w', GetClient env p w = (inl (cycle_verdict env p' w'), p', w'))
  /\ ((forall t rate m',
          t ∈ tokens p -> RateLimit t = Some rate ->
          (tick w <= m' <= tick w + length (tokens p))%nat ->
          clock env m' + 5 * Minute <= Reset rate) ->
      (forall m tok core m',
          (tick w <= m <= tick w + length (tokens p))%nat ->
          tok ∈ Token <$> tokens p ->
          rateLimitGet env m tok = RateLimitOk (Some core) ->
          (tick w <= m' <= tick w + length (tokens p))%nat ->
          clock env m' + 5 * Minute <= Reset core) ->
      exists p' w', GetClient env p w = (inl ErrNoAvailableTokens, p', w'))
  /\ (forall T p' w',
        GetClient env p w = (inl (ErrAllRateLimited T), p', w') ->
        T = getNextResetTime p'
        /\ Until (clock env (tick w')) T < 5 * Minute
        /\ (exists t rate, t ∈ tokens p' /\ RateLimit t = Some rate /\ Reset rate = T)
        /\ ((forall t rate, t ∈ tokens p' -> RateLimit t = Some rate -> Reset rate <> 0) ->
            forall t rate, t ∈ tokens p' -> RateLimit t = Some rate -> T <= Reset rate)).
Proof.
  intros Hindex Hquota.
  unfold GetClient.
  destruct (length (tokens p)) as [|remaining] eqn:Hlen; [lia|].
  assert (currentIndex p = ((currentIndex p + 0) mod S remaining)%nat) as Hstart.
  { rewrite Nat.add_0_r. symmetry. by apply Nat.mod_small. }
  assert (forall P : Rate -> Prop,
    (forall m tok, (tick w <= m <= tick w + S remaining)%nat -> tok ∈ Token <$> tokens p ->
       exists core, rateLimitGet env m tok = RateLimitOk (Some core)
         /\ Remaining core <= 10
         /\ (forall m', (tick w <= m' <= tick w + S remaining)%nat ->
               clock env m' <= Reset core)
         /\ P core) ->
    (forall t rate, t ∈ tokens p -> RateLimit t = Some rate -> P rate) ->
    exists p' w',
      GetClient_loop env (currentIndex p) (S remaining) (S remaining) 0 p w
      = (inl (cycle_verdict env p' w'), p', w')
      /\ Forall (kept (Token <$> tokens p) P) (tokens p')
      /\ (tick w <= tick w' <= tick w + S remaining)%nat) as Hcycle.
  { intros P HP Hstored.
    apply (GetClient_loop_exhausted env (currentIndex p) (S remaining)
             (tick w) (tick w + S remaining) (Token <$> tokens p) P HP);
      try done; try lia.
    apply Forall_forall. intros t Hin. split.
    - by apply list_elem_of_fmap_2.
    - intros rate. by apply Hstored. }
  assert (exists p' w',
    GetClient_loop env (currentIndex p) (S remaining) (S remaining) 0 p w
    = (inl (cycle_verdict env p' w'), p', w')) as (p1 & w1 & Hrun).
  { destruct (Hcycle (fun _ => True)) as (p' & w' & H & _); [|done|by exists p', w'].
    intros m tok Hm Htok.
    destruct (Hquota m tok Hm Htok) as (core & H1 & H2 & H3). by exists core. }
  split; [by exists p1, w1|]. split.
  - intros Hstored Hfar.
    destruct (Hcycle (fun rate => forall m',
                (tick w <= m' <= tick w + S remaining)%nat ->
                clock env m' + 5 * Minute <= Reset rate))
      as (p' & w' & Hrun' & Hkept & Htick).
    + intros m tok Hm Htok.
      destruct (Hquota m tok Hm Htok) as (core & H1 & H2 & H3).
      exists core. split; [done|]. split; [done|]. split; [done|].
      intros m' Hm'. by apply (Hfar m tok core m').
    + intros t rate Hin Hrate m' Hm'. by apply (Hstored t rate m').
    + exists p', w'. rewrite Hrun'. f_equal. f_equal. f_equal.
      unfold cycle_verdict. cbv zeta.
      destruct (getNextResetTime_from_origin 0 (tokens p'))
        as [Hzero|(t & rate & Hin & Hrate & Hreset)];
        fold (getNextResetTime p') in *.
      * by rewrite Hzero.
      * rewrite Forall_forall in Hkept. destruct (Hkept t Hin) as [_ Hp].
        rewrite (Until_far (clock env (tick w')) (getNextResetTime p')).
        -- by rewrite andb_false_r.
        -- rewrite <- Hreset. by apply Hp.
  - intros T p' w'. rewrite Hrun. intros [= Hverdict <- <-].
    apply cycle_verdict_typed in Hverdict as (-> & Hnonzero & Hsoon).
    split; [done|]. split; [done|]. split.
    + destruct (getNextResetTime_from_origin 0 (tokens p1))
        as [Hzero|(t & rate & Hin & Hrate & Hreset)]; [done|].
      by exists t, rate.
    + intros Hall t rate Hin Hrate.
      by apply (getNextResetTime_from_earliest 0 (tokens p1) Hall) with t.
Qed.

Lemma GetClient_exhausted_witness :
  exists p' w',
    GetClient Scenario.drained Scenario.twoTokens Scenario.start
    = (inl ErrNoAvailableTokens, p', w').
Proof.
  destruct (GetClient_exhausted Scenario.drained Scenario.twoTokens Scenario.start)
    as (_ & Hfar & _).
  - simpl. lia.
  - intros m tok Hm _. eexists. split; [reflexivity|]. split; [simpl; lia|].
    intros m' Hm'. simpl in *. unfold Scenario.ticking, Minute, Second. lia.
  - apply Hfar.
    + intros t rate m' Hin Hrate _.
      apply elem_of_cons in Hin as [->|Hin]; [discriminate|].
      apply elem_of_cons in Hin as [->|Hin]; [discriminate|].
      by apply elem_of_nil in Hin.
    + intros m tok core m' _ _ [= <-] Hm'. simpl in *.
      unfold Scenario.ticking, Minute, Second. lia.
Defined.

(** C3, refuted as stated.  Two tokens with 3 calls left each and a reset
    one hour ahead: the acquisition fails with "no available tokens", not
    with the error that carries a reset time. *)
Lemma GetClient_exhausted_far_is_generic :
  exists p' w',
    GetClient Scenario.drained Scenario.twoTokens Scenario.start
    = (inl ErrNoAvailableTokens, p', w')
    /\ forall T, GetClient Scenario.drained Scenario.twoTokens Scenario.start
                 <> (inl (ErrAllRateLimited T), p', w').
Proof.
  eexists _, _. split; [vm_compute; reflexivity|].
  intros T. vm_compute. discriminate.
Qed.

(** The same pool with the resets two minutes ahead: the error carries
    that reset time. *)
Example GetClient_exhausted_soon :
  exists p' w',
    GetClient Scenario.drainedSoon Scenario.twoTokens Scenario.start
    = (inl (ErrAllRateLimited (Scenario.noon + 2 * Minute)), p', w').
Proof. eexists _, _. vm_compute. reflexivity. Qed.

(** ** The search service *)

Lemma SearchCode_pages_events env left token query keywords results w res w' :
  SearchCode_pages env left token query keywords results w = (res, w') ->
  db w' = db w
  /\ exists evs,
       trace w' = trace w ++ EvSearchCode token query (10 - Z.of_nat left) :: evs
       /\ Forall (page_event token query) evs.
Proof.
  revert results w.
  induction left as [|left IH]; intros results w; cbn [SearchCode_pages];
    destruct (searchCodeApi env _ token query _) as [status msg|items total].
  - destruct (match status with Some code => code =? 403 | None => false end);
      intros [= <- <-]; (split; [done|]); exists []; by split.
  - intros [= <- <-]. split; [done|]. exists []; by split.
  - destruct (match status with Some code => code =? 403 | None => false end);
      intros [= <- <-]; (split; [done|]); exists []; by split.
  - destruct (length items =? 0)%nat.
    + intros [= <- <-]. split; [done|]. exists []; by split.
    + intros H. apply IH in H as (Hdb & evs & Htrace & Hevs).
      split; [done|].
      exists (EvSleep (2 * Second) :: EvSearchCode token query (10 - Z.of_nat left) :: evs).
      split.
      * rewrite Htrace. simpl. by rewrite <- !app_assoc.
      * apply Forall_cons. split; [done|]. apply Forall_cons. by split.
Qed.

(** C2 (as the code has it).  One search makes one acquisition, before
    the first page; every request of the search, whatever the page, is
    made with the token that acquisition returned, and the pool is not
    asked again. *)
Theorem SearchCode_one_credential env opts p w res p' w' :
  SearchCode env opts p w = (res, p', w') ->
  exists client w1,
    GetClient env p w = (client, p', w1)
    /\ match client with
       | inl err =>
           res = inl (if isPanic err then err else ErrWrap "failed to get client" err)
           /\ w' = w1
       | inr tokenInfo =>
           exists t evs,
             tokens p' !! tokenInfo = Some t
             /\ trace w' = trace w1 ++ EvSearchCode (Token t) (buildQuery opts) 1 :: evs
             /\ Forall (page_event (Token t) (buildQuery opts)) evs
       end.
Proof.
  unfold SearchCode.
  destruct (GetClient env p w) as [[client p1] w1] eqn:Hget.
  destruct client as [err|i].
  - destruct (isPanic err) eqn:Hpanic; intros [= <- <- <-];
      exists (inl err), w1; by rewrite Hpanic.
  - pose proof (GetClient_inr env p w i p1 w1 Hget) as (_ & _ & t & evs0 & Hlookup & _).
    rewrite Hlookup.
    destruct (SearchCode_pages env 9 (Token t) (buildQuery opts) (Keywords opts) [] w1)
      as [res1 w2] eqn:Hpages.
    intros [= <- <- <-].
    apply SearchCode_pages_events in Hpages as (_ & evs & Htrace & Hevs).
    exists (inr i), w1. split; [done|]. by exists t, evs.
Qed.

Lemma SearchCode_one_credential_witness :
  exists res p' w' client w1,
    SearchCode Scenario.twoPages Scenario.passwordOpts Scenario.twoTokens Scenario.start
    = (res, p', w')
    /\ GetClient Scenario.twoPages Scenario.twoTokens Scenario.start = (client, p', w1)
    /\ match client with
       | inl err =>
           res = inl (if isPanic err then err else ErrWrap "failed to get client" err)
           /\ w' = w1
       | inr tokenInfo =>
           exists t evs,
             tokens p' !! tokenInfo = Some t
             /\ trace w' = trace w1
                  ++ EvSearchCode (Token t) (buildQuery Scenario.passwordOpts) 1 :: evs
             /\ Forall (page_event (Token t) (buildQuery Scenario.passwordOpts)) evs
       end.
Proof.
  destruct (SearchCode Scenario.twoPages Scenario.passwordOpts Scenario.twoTokens
              Scenario.start) as [[res p'] w'] eqn:Hsearch.
  destruct (SearchCode_one_credential _ _ _ _ _ _ _ Hsearch) as (client & w1 & H1 & H2).
  by exists res, p', w', client, w1.
Defined.

(** C2, refuted as stated.  A search of two pages over a pool of two
    tokens asks the pool once: both pages are requested with the first
    token, and no acquisition stands between them. *)
Lemma SearchCode_reuses_credential :
  exists res p' w',
    SearchCode Scenario.twoPages Scenario.passwordOpts Scenario.twoTokens Scenario.start
    = (res, p', w')
    /\ trace w' = [EvRateLimitGet "ghp_A";
                   EvSearchCode "ghp_A" "password" 1;
                   EvSleep (2 * Second);
                   EvSearchCode "ghp_A" "password" 2]
    /\ acquires_per_page false (trace w') = false.
Proof. eexists _, _, _. split; [vm_compute; reflexivity|]. by split. Qed.



(** A panic is never taken for a rate limit. *)
Lemma panic_not_classified formatTime err :
  isPanic err = true ->
  Strings.Contains (Error formatTime err) "rate limit" = false.
Proof. destruct err; try discriminate; intros _; vm_compute; reflexivity. Qed.

Lemma classified_not_panic formatTime err :
  Strings.Contains (Error formatTime err) "rate limit" = true -> isPanic err = false.
Proof.
  intros Hclass. destruct (isPanic err) eqn:Hpanic; [|done].
  by rewrite (panic_not_classified formatTime err Hpanic) in Hclass.
Qed.

Section RetryFacts.

Context (env : Env) (opts : SearchOptions).



End RetryFacts.




(** The run above, as the outside sees it: the pauses between the three
    attempts are of 10 s and of 20 s. *)
Example SearchWithRetry_flaky_trace :
  trace (snd (SearchWithRetry Scenario.flaky Scenario.passwordOpts 3
                Scenario.twoTokens Scenario.start))
  = [EvRateLimitGet "ghp_A"; EvSearchCode "ghp_A" "password" 1;
     EvSleep (10 * Second);
     EvRateLimitGet "ghp_A"; EvSearchCode "ghp_A" "password" 1;
     EvSleep (20 * Second);
     EvRateLimitGet "ghp_A"; EvSearchCode "ghp_A" "password" 1;
     EvSleep (2 * Second); EvSearchCode "ghp_A" "password" 2].
Proof. vm_compute. reflexivity. Qed.

(** ** Saving results *)

Lemma find_snoc {A} (f : A -> bool) (l : list A) (x : A) :
  List.find f (l ++ [x])
  = match List.find f l with
    | Some y => Some y
    | None => if f x then Some x else None
    end.
Proof. induction l as [|a l IH]; simpl; [done|]. by destruct (f a). Qed.

Lemma sameCandidate_stored ruleID rows c d :
  sameCandidate c d = true -> stored ruleID rows d = stored ruleID rows c.
Proof.
  unfold sameCandidate, stored. intros H.
  apply andb_true_iff in H as [H1 H2].
  apply String.eqb_eq in H1, H2. by rewrite H1, H2.
Qed.

Lemma stored_snoc env ruleID rows c d :
  stored ruleID (rows ++ [newResult env ruleID c]) d
  = stored ruleID rows d || sameCandidate c d.
Proof.
  unfold stored. rewrite find_snoc.
  destruct (List.find _ rows); [done|].
  unfold sameKey, sameCandidate; simpl. rewrite N.eqb_refl; simpl.
  by destruct (_ && _).
Qed.

Lemma absent_cons_stored ruleID rows c rest :
  stored ruleID rows c = true ->
  absent ruleID rows (c :: rest) = absent ruleID rows rest.
Proof.
  intros Hstored. unfold absent; simpl.
  rewrite filter_cons_False by (by rewrite Hstored).
  apply list_filter_filter_l. intros d Hd.
  destruct (sameCandidate c d) eqn:Hsame; [|done].
  rewrite (sameCandidate_stored ruleID rows c d Hsame) in Hd. congruence.
Qed.

Lemma absent_cons_new env ruleID rows c rest :
  stored ruleID rows c = false ->
  absent ruleID rows (c :: rest)
  = c :: absent ruleID (rows ++ [newResult env ruleID c]) rest.
Proof.
  intros Hstored. unfold absent; simpl.
  rewrite filter_cons_True by done. f_equal.
  rewrite list_filter_filter. apply list_filter_iff. intros d.
  rewrite stored_snoc, orb_false_iff. done.
Qed.

Lemma filter_none {A} (P : A -> Prop) `{!forall x, Decision (P x)} (l : list A) :
  (forall x, x ∈ l -> ~ P x) -> filter P l = [].
Proof.
  induction l as [|a l IH]; intros Hall; [done|].
  rewrite filter_cons_False by (apply Hall; by left).
  apply IH. intros x Hx. apply Hall. by right.
Qed.

Lemma filter_all {A} (P : A -> Prop) `{!forall x, Decision (P x)} (l : list A) :
  (forall x, x ∈ l -> P x) -> filter P l = l.
Proof.
  induction l as [|a l IH]; intros Hall; [done|].
  rewrite filter_cons_True by (apply Hall; by left).
  f_equal. apply IH. intros x Hx. apply Hall. by right.
Qed.

Lemma stored_app_l ruleID rows more c :
  stored ruleID rows c = true -> stored ruleID (rows ++ more) c = true.
Proof.
  unfold stored. induction rows as [|row rows IH]; simpl; [done|].
  by destruct (sameKey ruleID (RepoFullName c) (FilePath c) row).
Qed.

Lemma stored_elem_of ruleID rows c row :
  row ∈ rows -> sameKey ruleID (RepoFullName c) (FilePath c) row = true ->
  stored ruleID rows c = true.
Proof.
  unfold stored. induction rows as [|row1 rows IH]; [by intros Hin%elem_of_nil|].
  intros [->|Hin]%elem_of_cons Hkey; simpl.
  - by rewrite Hkey.
  - destruct (sameKey ruleID (RepoFullName c) (FilePath c) row1); [done|].
    by apply IH.
Qed.

Section SaveFacts.

Context (env : Env) (ruleID : N).
Hypothesis Hreliable : forall m, dbFault env m = None.

Lemma saveResults_from_reliable results newCount w :
  exists w1,
    saveResults_from env newCount ruleID results w
    = (newCount + Z.of_nat (length (absent ruleID (search_results (db w)) results)), w1)
    /\ search_results (db w1)
       = search_results (db w)
         ++ map (newResult env ruleID) (absent ruleID (search_results (db w)) results).
Proof.
  revert newCount w. induction results as [|c rest IH]; intros newCount w.
  - exists w. simpl. split; [f_equal; lia|]. by rewrite app_nil_r.
  - cbn [saveResults_from]. unfold dbFirstResult, dbExec. rewrite Hreliable.
    cbn [db emit].
    destruct (List.find (sameKey ruleID (RepoFullName c) (FilePath c))
                (search_results (db w))) as [row|] eqn:Hfind.
    + assert (stored ruleID (search_results (db w)) c = true) as Hstored
        by (unfold stored; by rewrite Hfind).
      rewrite (absent_cons_stored _ _ _ _ Hstored).
      apply (IH newCount (emit (EvDB _) w)).
    + assert (stored ruleID (search_results (db w)) c = false) as Hstored
        by (unfold stored; by rewrite Hfind).
      rewrite (absent_cons_new env _ _ _ _ Hstored).
      unfold dbCreateResult, dbExec. rewrite Hreliable. cbn [db emit setDB].
      match goal with
      | |- context [saveResults_from env (newCount + 1) ruleID rest ?w2] =>
          destruct (IH (newCount + 1) w2) as (w1 & Hrun & Hrows)
      end.
      unfold setDB in Hrun, Hrows |- *. cbn [db search_results] in Hrun, Hrows.
      exists w1. rewrite Hrun, Hrows. cbn [length map].
      split; [f_equal; lia|]. by rewrite <- app_assoc.
Qed.

(** After a first run every candidate has its key in the table. *)
Lemma absent_after_save rows results :
  absent ruleID (rows ++ map (newResult env ruleID) (absent ruleID rows results)) results
  = [].
Proof.
  unfold absent at 1. apply filter_none. intros d Hd.
  destruct (stored ruleID rows d) eqn:Hstored.
  - rewrite stored_app_l; done.
  - rewrite (stored_elem_of ruleID _ d (newResult env ruleID d)); [done| |].
    + apply elem_of_app. right. apply list_elem_of_fmap_2.
      by apply list_elem_of_filter.
    + unfold sameKey, newResult; simpl. by rewrite N.eqb_refl, !String.eqb_refl.
Qed.

End SaveFacts.

Lemma firstOfKey_distinct cs : distinctKeys cs = true -> firstOfKey cs = cs.
Proof.
  induction cs as [|c rest IH]; simpl; [done|].
  intros [Hc Hrest]%andb_true_iff. rewrite (IH Hrest). f_equal.
  apply filter_all. intros d Hd.
  rewrite forallb_forall in Hc. apply negb_true_iff. apply Hc.
  by apply list_elem_of_In.
Qed.

(** C5 (as the code has it).  With a database none of whose statements
    fails, a first [saveResults] inserts, in order, one row for each
    candidate whose key (rule id, repository full name, file path) is not
    in the table, the first of those that share a key, and returns their
    number; a second call with the same candidates inserts nothing and
    returns zero.  When no two candidates share a key, the rows inserted
    are those of all the candidates whose key was not in the table. *)
Theorem saveResults_idempotent env ruleID results w :
  (forall m, dbFault env m = None) ->
  exists w1 w2,
    saveResults env ruleID results w
    = (Z.of_nat (length (absent ruleID (search_results (db w)) results)), w1)
    /\ search_results (db w1)
       = search_results (db w)
         ++ map (newResult env ruleID) (absent ruleID (search_results (db w)) results)
    /\ saveResults env ruleID results w1 = (0, w2)
    /\ search_results (db w2) = search_results (db w1)
    /\ (distinctKeys results = true ->
        absent ruleID (search_results (db w)) results
        = filter (fun c => stored ruleID (search_results (db w)) c = false) results).
Proof.
  intros Hreliable. unfold saveResults.
  destruct (saveResults_from_reliable env ruleID Hreliable results 0 w)
    as (w1 & Hfirst & Hrows1).
  destruct (saveResults_from_reliable env ruleID Hreliable results 0 w1)
    as (w2 & Hsecond & Hrows2).
  rewrite Hrows1, absent_after_save in Hsecond, Hrows2.
  exists w1, w2. split; [done|]. split; [done|]. split; [done|]. split.
  - rewrite Hrows2. simpl. by rewrite app_nil_r.
  - intros Hdistinct. unfold absent. by rewrite firstOfKey_distinct.
Qed.

Lemma saveResults_idempotent_witness :
  exists w1 w2,
    saveResults Scenario.ample 1 Scenario.candidates Scenario.oneStored = (1, w1)
    /\ search_results (db w1)
       = search_results (db Scenario.oneStored)
         ++ [newResult Scenario.ample 1
               (Scenario.candidate "octo/secrets" "deploy/config.yml")]
    /\ saveResults Scenario.ample 1 Scenario.candidates w1 = (0, w2)
    /\ search_results (db w2) = search_results (db w1).
Proof.
  destruct (saveResults_idempotent Scenario.ample 1 Scenario.candidates
              Scenario.oneStored) as (w1 & w2 & H1 & H2 & H3 & H4 & _).
  - reflexivity.
  - exists w1, w2. split; [exact H1|]. split; [exact H2|]. split; [exact H3|exact H4].
Defined.

(** C5, refuted as stated.  When the look-up of the second call fails,
    [saveResults] takes the failure for "not there": it inserts the
    candidate once more and returns 1, and the table holds the key twice.
    And when the insertion of the first call fails, the first call
    inserts nothing and returns 0 for a key that is absent, and it is the
    second call that inserts and returns 1. *)
Lemma saveResults_not_idempotent :
  let c := Scenario.candidate "octo/site" ".env" in
  (exists w1 w2,
      saveResults (Scenario.faultyAt 2) 1 [c] Scenario.start = (1, w1)
      /\ saveResults (Scenario.faultyAt 2) 1 [c] w1 = (1, w2)
      /\ map rowKey (search_results (db w2))
         = [(1%N, "octo/site", ".env"); (1%N, "octo/site", ".env")])
  /\ (exists w1 w2,
        saveResults (Scenario.faultyAt 1) 1 [c] Scenario.start = (0, w1)
        /\ search_results (db w1) = []
        /\ saveResults (Scenario.faultyAt 1) 1 [c] w1 = (1, w2)).
Proof.
  split; eexists _, _; (split; [vm_compute; reflexivity|]); split;
    vm_compute; reflexivity.
Qed.

(** ** Scanning a rule *)

(** An error that comes out of [SearchWithRetry] never has the bare
    message "rate limit exceeded": either it was not classified as a rate
    limit, or it is wrapped as "max retries exceeded". *)
Lemma SearchWithRetry_loop_error env remaining i lastErr opts p w err p' w' :
  SearchWithRetry_loop env remaining i lastErr opts p w = (inl err, p', w') ->
  String.eqb (Error (formatTime env) err) "rate limit exceeded" = false.
Proof.
  revert i lastErr p w.
  induction remaining as [|remaining IH]; intros i lastErr p w.
  - simpl. intros [= <- <- <-]. by destruct lastErr.
  - cbn [SearchWithRetry_loop].
    destruct (SearchCode env opts p w) as [[[err1|results] p1] w1]; [|done].
    destruct (Strings.Contains (Error (formatTime env) err1) "rate limit") eqn:Hclass.
    + rewrite (classified_not_panic _ _ Hclass). apply IH.
    + intros Hrun.
      assert (err = err1) as -> by (destruct (isPanic err1); by injection Hrun).
      destruct (String.eqb (Error (formatTime env) err1) "rate limit exceeded") eqn:Heq;
        [|done].
      apply String.eqb_eq in Heq. rewrite Heq in Hclass. discriminate.
Qed.

Lemma SearchWithRetry_error env opts maxRetries p w err p' w' :
  SearchWithRetry env opts maxRetries p w = (inl err, p', w') ->
  String.eqb (Error (formatTime env) err) "rate limit exceeded" = false.
Proof. apply SearchWithRetry_loop_error. Qed.

(** C8, on the code.  A rule whose every search attempt is refused with
    the status 403: the history row that [scanRule] records has the status
    "failed", with the wrapped message of the last refusal. *)
Theorem scanRule_rate_limit_recorded_failed :
  map (fun h => (sh_RuleID h, sh_Status h, sh_ErrorMessage h))
      (scan_histories
         (db (snd (scanRule Scenario.refused Scenario.passwordRule
                     Scenario.twoTokens Scenario.start))))
  = [(1%N, "failed",
      "max retries exceeded: rate limit exceeded: 403 API rate limit exceeded")].
Proof. vm_compute. reflexivity. Qed.

(** *** What a scan leaves in the history table *)

Section HistoryFacts.

Context (env : Env).

Lemma GetClient_loop_db startIndex maxAttempts remaining attempts p w :
  db (snd (GetClient_loop env startIndex maxAttempts remaining attempts p w)) = db w.
Proof.
  revert attempts p w.
  induction remaining as [|remaining IH]; intros attempts p w; [done|].
  rewrite GetClient_loop_S; cbv zeta.
  destruct (tokens p !! currentIndex p) as [t|]; [|done].
  assert (forall q w1, db w1 = db w ->
            db (snd (GetClient_advance env startIndex maxAttempts attempts
                       (GetClient_loop env startIndex maxAttempts remaining (S attempts))
                       q w1)) = db w) as Hadvance.
  { intros q w1 Hdb. unfold GetClient_advance.
    destruct (_ && _); [destruct (_ && _)|]; simpl; by rewrite ?IH. }
  destruct (IsAvailable t); [|by apply Hadvance].
  destruct (UpdateRateLimit env t w) as [[err t'] w1] eqn:Hupdate.
  apply UpdateRateLimit_inv in Hupdate as [-> _].
  destruct err as [e|]; [by rewrite IH|].
  destruct (HasRemainingCalls t' 10 _); [by destruct (RateLimit t')|by apply Hadvance].
Qed.

Lemma SearchCode_db opts p w : db (snd (SearchCode env opts p w)) = db w.
Proof.
  unfold SearchCode.
  pose proof (GetClient_loop_db (currentIndex p) (length (tokens p))
                (length (tokens p)) 0 p w) as Hget.
  fold (GetClient env p w) in Hget.
  destruct (GetClient env p w) as [[[err|i] p1] w1]; simpl in Hget;
    [by destruct (isPanic err)|].
  destruct (tokens p1 !! i) as [t|]; [|done].
  destruct (SearchCode_pages env 9 (Token t) (buildQuery opts) (Keywords opts) [] w1)
    as [res w2] eqn:Hpages.
  apply SearchCode_pages_events in Hpages as [Hdb _]. simpl. congruence.
Qed.

Lemma SearchWithRetry_loop_db remaining i lastErr opts p w :
  db (snd (SearchWithRetry_loop env remaining i lastErr opts p w)) = db w.
Proof.
  revert i lastErr p w.
  induction remaining as [|remaining IH]; intros i lastErr p w; [done|].
  cbn [SearchWithRetry_loop].
  pose proof (SearchCode_db opts p w) as Hdb.
  destruct (SearchCode env opts p w) as [[[err|results] p1] w1]; simpl in Hdb; [|done].
  destruct (isPanic err); [done|].
  destruct (Strings.Contains _ _); [|done].
  by rewrite IH.
Qed.

Lemma SearchWithRetry_db opts maxRetries p w :
  db (snd (SearchWithRetry env opts maxRetries p w)) = db w.
Proof. apply SearchWithRetry_loop_db. Qed.

Lemma filterWhitelist_db results w : db (snd (filterWhitelist env results w)) = db w.
Proof.
  unfold filterWhitelist, dbExec.
  destruct (dbFault env (tick w)); [done|].
  by destruct (length _ =? 0)%nat.
Qed.

Lemma saveResults_from_histories newCount ruleID results w :
  scan_histories (db (snd (saveResults_from env newCount ruleID results w)))
  = scan_histories (db w).
Proof.
  revert newCount w. induction results as [|c rest IH]; intros newCount w; [done|].
  cbn [saveResults_from]. unfold dbFirstResult, dbCreateResult, dbExec.
  destruct (dbFault env (tick w)).
  - destruct (dbFault env _); by rewrite IH.
  - destruct (List.find _ _); [by rewrite IH|].
    destruct (dbFault env _); by rewrite IH.
Qed.

Lemma saveResults_histories ruleID results w :
  scan_histories (db (snd (saveResults env ruleID results w))) = scan_histories (db w).
Proof. apply saveResults_from_histories. Qed.

Lemma recordScanHistory_histories ruleID resultsCount newResults tokenUsed status msg
    duration w :
  exists hs,
    scan_histories
      (db (recordScanHistory env ruleID resultsCount newResults tokenUsed status msg
             duration w))
    = scan_histories (db w) ++ hs
    /\ (hs = [] \/ exists h, hs = [h] /\ sh_RuleID h = ruleID /\ sh_Status h = status)
    /\ (dbFault env (tick w) = None -> length hs = 1%nat).
Proof.
  unfold recordScanHistory, dbExec.
  destruct (dbFault env (tick w)).
  - exists []. simpl. rewrite app_nil_r. split; [done|]. split; [by left|done].
  - eexists [_]. simpl. split; [done|]. split; [|done]. right. by eexists.
Qed.

(** Whatever happens to its search, [scanRule] adds at most one row to
    the history, and the status of that row is "failed" or "success"; a
    scan that panics adds none. *)
Lemma scanRule_histories rule p w :
  exists hs,
    scan_histories (db (snd (scanRule env rule p w))) = scan_histories (db w) ++ hs
    /\ (hs = []
        \/ exists h, hs = [h] /\ sh_RuleID h = RuleID rule
             /\ (sh_Status h = "failed" \/ sh_Status h = "success"))
    /\ ((forall m, dbFault env m = None) ->
        fst (fst (scanRule env rule p w)) = None -> length hs = 1%nat)
    /\ (fst (fst (scanRule env rule p w)) <> None -> hs = []).
Proof.
  unfold scanRule.
  destruct (ParseKeywords env (RuleKeywords rule)) as [err|keywords].
  - cbn [fst snd].
    destruct (recordScanHistory_histories (RuleID rule) 0 0 "" "failed"
                (Error (formatTime env) err) 0 w) as (hs & Hhs & Hshape & Hlen).
    exists hs. split; [done|]. split; [|split; [by auto|intros H; by destruct H]].
    destruct Hshape as [->|(h & -> & Hid & Hstatus)]; [by left|].
    right. exists h. by auto.
  - match goal with
    | |- context [SearchWithRetry env ?o 3 p w] =>
        pose proof (SearchWithRetry_db o 3 p w) as Hdb;
        destruct (SearchWithRetry env o 3 p w) as [[[err|results] p1] w1] eqn:Hrun
    end; cbn [snd] in Hdb.
    + destruct (isPanic err).
      { cbn [fst snd]. exists []. rewrite app_nil_r, Hdb.
        split; [done|]. split; [by left|]. by split. }
      rewrite (SearchWithRetry_error env _ _ _ _ _ _ _ Hrun). cbn [fst snd].
      match goal with
      | |- context [recordScanHistory env ?a ?b ?c ?d ?e ?f ?g w1] =>
          destruct (recordScanHistory_histories a b c d e f g w1)
            as (hs & Hhs & Hshape & Hlen)
      end.
      exists hs. rewrite Hhs, Hdb. split; [done|]. split; [|split; [by auto|intros H; by destruct H]].
      destruct Hshape as [->|(h & -> & Hid & Hstatus)]; [by left|].
      right. exists h. by auto.
    + pose proof (filterWhitelist_db results w1) as Hdb1.
      destruct (filterWhitelist env results w1) as [filtered w2]; cbn [snd] in Hdb1.
      pose proof (saveResults_histories (RuleID rule) filtered w2) as Hdb2.
      destruct (saveResults env (RuleID rule) filtered w2) as [newCount w3];
        cbn [snd] in Hdb2. cbv zeta. cbn [fst snd].
      match goal with
      | |- context [recordScanHistory env ?a ?b ?c ?d ?e ?f ?g w3] =>
          destruct (recordScanHistory_histories a b c d e f g w3)
            as (hs & Hhs & Hshape & Hlen)
      end.
      exists hs. rewrite Hhs, Hdb2, Hdb1, Hdb. split; [done|]. split; [|split; [by auto|intros H; by destruct H]].
      destruct Hshape as [->|(h & -> & Hid & Hstatus)]; [by left|].
      right. exists h. by auto.
Qed.

(** With a database that answers, a cycle that does not panic records one
    row for each of its rules, whatever became of the rules before: a rule
    whose scan fails does not stop the cycle. *)
Lemma scan_rules_histories rules p w :
  (forall m, dbFault env m = None) ->
  fst (fst (scan_rules env rules p w)) = None ->
  length (scan_histories (db (snd (scan_rules env rules p w))))
  = (length (scan_histories (db w)) + length rules)%nat.
Proof.
  intros Hreliable. revert p w.
  induction rules as [|rule rest IH]; intros p w; cbn [scan_rules]; [simpl; lia|].
  destruct (scanRule_histories rule p w) as (hs & Hhs & _ & Hlen & _).
  destruct (scanRule env rule p w) as [[[panic|] p1] w1]; cbn [fst snd] in *; [done|].
  intros Hrest. rewrite (IH _ _ Hrest). cbn [db emit].
  rewrite Hhs, length_app, (Hlen Hreliable eq_refl). simpl. lia.
Qed.

End HistoryFacts.

(** *** What a scan adds to the trace *)

Lemma follows_refl Q w : follows Q w w.
Proof. exists []. by rewrite app_nil_r. Qed.

Lemma follows_trans Q w1 w2 w3 :
  follows Q w1 w2 -> follows Q w2 w3 -> follows Q w1 w3.
Proof.
  intros (evs1 & H1 & Q1) (evs2 & H2 & Q2). exists (evs1 ++ evs2).
  rewrite H2, H1, app_assoc. split; [done|]. by apply Forall_app.
Qed.

Lemma follows_emit (Q : Event -> Prop) ev w : Q ev -> follows Q w (emit ev w).
Proof. intros HQ. exists [ev]. split; [done|]. by apply Forall_singleton. Qed.

Lemma follows_setDB Q d w : follows Q w (setDB d w).
Proof. exists []. split; [by rewrite app_nil_r|done]. Qed.

Section EventFacts.

Context (env : Env) (Q : Event -> Prop).

Hypothesis Hquota : forall token, Q (EvRateLimitGet token).
Hypothesis Hsearch : forall token query page, Q (EvSearchCode token query page).
Hypothesis Hsleep : forall d, Q (EvSleep d).
Hypothesis Hstatement :
  forall statement,
    statement <> "SELECT * FROM monitor_rules WHERE is_active = ?" ->
    Q (EvDB statement).

Lemma GetClient_loop_follows startIndex maxAttempts remaining attempts p w :
  follows Q w (snd (GetClient_loop env startIndex maxAttempts remaining attempts p w)).
Proof.
  revert attempts p w.
  induction remaining as [|remaining IH]; intros attempts p w; [apply follows_refl|].
  rewrite GetClient_loop_S; cbv zeta.
  destruct (tokens p !! currentIndex p) as [t|]; [|apply follows_refl].
  assert (forall q w1, follows Q w w1 ->
            follows Q w
              (snd (GetClient_advance env startIndex maxAttempts attempts
                      (GetClient_loop env startIndex maxAttempts remaining (S attempts))
                      q w1))) as Hadvance.
  { intros q w1 Hw1. unfold GetClient_advance.
    destruct (_ && _); [destruct (_ && _)|]; cbn [snd]; first [done|idtac].
    all: eapply follows_trans; [exact Hw1|apply IH]. }
  destruct (IsAvailable t); [|apply Hadvance, follows_refl].
  destruct (UpdateRateLimit env t w) as [[err t'] w1] eqn:Hupdate.
  apply UpdateRateLimit_inv in Hupdate as [-> _].
  pose proof (follows_emit Q (EvRateLimitGet (Token t)) w (Hquota _)) as Hstep.
  destruct err as [e|]; [eapply follows_trans; [exact Hstep|apply IH]|].
  destruct (HasRemainingCalls t' 10 _); [by destruct (RateLimit t')|by apply Hadvance].
Qed.

Lemma GetClient_follows p w : follows Q w (snd (GetClient env p w)).
Proof. apply GetClient_loop_follows. Qed.

Lemma page_event_follows token query ev : page_event token query ev -> Q ev.
Proof. destruct ev; simpl; intros Hev; first [done|apply Hsearch|apply Hsleep]. Qed.

Lemma SearchCode_follows opts p w : follows Q w (snd (SearchCode env opts p w)).
Proof.
  unfold SearchCode. pose proof (GetClient_follows p w) as Hget.
  destruct (GetClient env p w) as [[[err|i] p1] w1]; cbn [snd] in Hget;
    [by destruct (isPanic err)|].
  destruct (tokens p1 !! i) as [t|]; [|done].
  destruct (SearchCode_pages env 9 (Token t) (buildQuery opts) (Keywords opts) [] w1)
    as [res w2] eqn:Hpages.
  apply SearchCode_pages_events in Hpages as (_ & evs & Htrace & Hevs). cbn [snd].
  eapply follows_trans; [exact Hget|].
  eexists. split; [exact Htrace|]. apply Forall_cons. split; [apply Hsearch|].
  eapply Forall_impl; [exact Hevs|]. apply page_event_follows.
Qed.

Lemma SearchWithRetry_loop_follows remaining i lastErr opts p w :
  follows Q w (snd (SearchWithRetry_loop env remaining i lastErr opts p w)).
Proof.
  revert i lastErr p w.
  induction remaining as [|remaining IH]; intros i lastErr p w; [apply follows_refl|].
  cbn [SearchWithRetry_loop]. pose proof (SearchCode_follows opts p w) as Hattempt.
  destruct (SearchCode env opts p w) as [[[err|results] p1] w1]; cbn [snd] in Hattempt;
    [|done].
  destruct (isPanic err); [done|].
  destruct (Strings.Contains _ _); [|done].
  eapply follows_trans; [exact Hattempt|].
  eapply follows_trans; [apply follows_emit, Hsleep|apply IH].
Qed.

(** The first attempt is always made. *)
Lemma SearchWithRetry_first_attempt opts maxRetries p w :
  0 < maxRetries ->
  follows Q (snd (SearchCode env opts p w)) (snd (SearchWithRetry env opts maxRetries p w)).
Proof.
  intros Hmax. unfold SearchWithRetry.
  destruct (Z.to_nat maxRetries) as [|remaining] eqn:Hn; [lia|].
  cbn [SearchWithRetry_loop].
  destruct (SearchCode env opts p w) as [[[err|results] p1] w1]; cbn [snd];
    [|apply follows_refl].
  destruct (isPanic err); [apply follows_refl|].
  destruct (Strings.Contains _ _); [|apply follows_refl].
  eapply follows_trans; [apply follows_emit, Hsleep|apply SearchWithRetry_loop_follows].
Qed.

Lemma filterWhitelist_follows results w :
  follows Q w (snd (filterWhitelist env results w)).
Proof.
  unfold filterWhitelist, dbExec.
  assert (follows Q w (emit (EvDB "SELECT * FROM whitelists") w)) as Hstep
    by (by apply follows_emit, Hstatement).
  destruct (dbFault env (tick w)); [done|].
  by destruct (length _ =? 0)%nat.
Qed.

Lemma saveResults_from_follows newCount ruleID results w :
  follows Q w (snd (saveResults_from env newCount ruleID results w)).
Proof.
  revert newCount w.
  induction results as [|c rest IH]; intros newCount w; [apply follows_refl|].
  cbn [saveResults_from]. unfold dbFirstResult, dbExec.
  match goal with
  | |- context [emit (EvDB ?statement) w] =>
      assert (follows Q w (emit (EvDB statement) w)) as Hlook
        by (by apply follows_emit, Hstatement);
      set (w1 := emit (EvDB statement) w) in *
  end.
  assert (forall count, follows Q w
            (snd (let '(created, w2) := dbCreateResult env (newResult env ruleID c) w1 in
                  if created then saveResults_from env (count + 1) ruleID rest w2
                  else saveResults_from env count ruleID rest w2))) as Hinsert.
  { intros count. unfold dbCreateResult, dbExec.
    assert (follows Q w1 (emit (EvDB "INSERT INTO search_results") w1)) as Hput
      by (by apply follows_emit, Hstatement).
    destruct (dbFault env (tick w1));
      (eapply follows_trans; [exact Hlook|]); (eapply follows_trans; [exact Hput|]);
      [apply IH|].
    eapply follows_trans; [apply follows_setDB|apply IH]. }
  destruct (dbFault env (tick w)); [apply Hinsert|].
  destruct (List.find _ _); [|apply Hinsert].
  eapply follows_trans; [exact Hlook|apply IH].
Qed.

Lemma recordScanHistory_follows ruleID resultsCount newResults tokenUsed status msg
    duration w :
  follows Q w
    (recordScanHistory env ruleID resultsCount newResults tokenUsed status msg duration w).
Proof.
  unfold recordScanHistory, dbExec.
  assert (follows Q w (emit (EvDB "INSERT INTO scan_histories") w)) as Hstep
    by (by apply follows_emit, Hstatement).
  destruct (dbFault env (tick w)); [done|].
  eapply follows_trans; [exact Hstep|apply follows_setDB].
Qed.

(** When the keywords of a rule parse, [scanRule] runs the search with
    them, with the excluded extensions if they parse and with none if
    they do not, and with three attempts; after the search it only talks
    to the database. *)
Lemma scanRule_searches rule p w keywords :
  ParseKeywords env (RuleKeywords rule) = inr keywords ->
  let opts :=
    {| Keywords := keywords; MatchType := RuleMatchType rule;
       ExcludeExts := match ParseExcludeExts env (RuleExcludeExts rule) with
                      | inl _ => []
                      | inr excludeExts => excludeExts
                      end;
       Language := ""; Sort := "indexed"; Order := "desc" |} in
  snd (fst (scanRule env rule p w)) = snd (fst (SearchWithRetry env opts 3 p w))
  /\ follows Q (snd (SearchWithRetry env opts 3 p w)) (snd (scanRule env rule p w)).
Proof.
  intros Hparse opts. unfold scanRule. rewrite Hparse. fold opts.
  destruct (SearchWithRetry env opts 3 p w) as [[[err|results] p1] w1]; cbn [fst snd].
  - destruct (isPanic err); cbn [fst snd]; [split; [done|apply follows_refl]|].
    split; [done|apply recordScanHistory_follows].
  - pose proof (filterWhitelist_follows results w1) as Hfilter.
    destruct (filterWhitelist env results w1) as [filtered w2]; cbn [snd] in Hfilter.
    pose proof (saveResults_from_follows 0 (RuleID rule) filtered w2) as Hsave.
    fold (saveResults env (RuleID rule) filtered w2) in Hsave.
    destruct (saveResults env (RuleID rule) filtered w2) as [newCount w3];
      cbn [snd] in Hsave. cbv zeta. cbn [fst snd].
    split; [done|].
    eapply follows_trans; [exact Hfilter|].
    eapply follows_trans; [exact Hsave|apply recordScanHistory_follows].
Qed.

Lemma scanRule_follows rule p w : follows Q w (snd (scanRule env rule p w)).
Proof.
  destruct (ParseKeywords env (RuleKeywords rule)) as [err|keywords] eqn:Hparse.
  - unfold scanRule. rewrite Hparse. cbn [snd]. apply recordScanHistory_follows.
  - destruct (scanRule_searches rule p w keywords Hparse) as [_ Hafter].
    eapply follows_trans; [|exact Hafter]. apply SearchWithRetry_loop_follows.
Qed.

Lemma scan_rules_follows rules p w : follows Q w (snd (scan_rules env rules p w)).
Proof.
  revert p w. induction rules as [|rule rest IH]; intros p w; cbn [scan_rules];
    [apply follows_refl|].
  pose proof (scanRule_follows rule p w) as Hrule.
  destruct (scanRule env rule p w) as [[[panic|] p1] w1]; cbn [snd] in *; [done|].
  eapply follows_trans; [exact Hrule|].
  eapply follows_trans; [apply follows_emit, Hsleep|apply IH].
Qed.

End EventFacts.

(** C9 (as the code has it).  A rule whose excluded extensions do not
    parse is scanned all the same, as the rule without excluded
    extensions is.  When its keywords parse, the search is run with them,
    with no excluded extension and with three attempts: the scan leaves
    the pool as that search leaves it, it adds to the trace of that
    search only statements to the database, and when a token is acquired
    the first page is requested with it.  Only keywords that do not
    parse keep a rule from being searched: then the one thing the scan
    does is to record its failure. *)
Theorem scanRule_ignores_broken_exts env rule p w err :
  ParseExcludeExts env (RuleExcludeExts rule) = inl err ->
  scanRule env rule p w = scanRule env (withExcludeExts EmptyString rule) p w
  /\ (forall keywords,
        ParseKeywords env (RuleKeywords rule) = inr keywords ->
        let opts :=
          {| Keywords := keywords; MatchType := RuleMatchType rule;
             ExcludeExts := []; Language := ""; Sort := "indexed"; Order := "desc" |} in
        snd (fst (scanRule env rule p w)) = snd (fst (SearchWithRetry env opts 3 p w))
        /\ follows is_statement
             (snd (SearchWithRetry env opts 3 p w)) (snd (scanRule env rule p w))
        /\ forall tokenInfo p1 w1 t,
             GetClient env p w = (inr tokenInfo, p1, w1) ->
             tokens p1 !! tokenInfo = Some t ->
             exists evs,
               trace (snd (scanRule env rule p w))
               = trace w1 ++ EvSearchCode (Token t) (buildQuery opts) 1 :: evs)
  /\ (forall err',
        ParseKeywords env (RuleKeywords rule) = inl err' ->
        fst (scanRule env rule p w) = (None, p)
        /\ trace (snd (scanRule env rule p w))
           = trace w ++ [EvDB "INSERT INTO scan_histories"]).
Proof.
  intros Hparse. split; [|split].
  - unfold scanRule. rewrite Hparse. simpl.
    by destruct (ParseKeywords env (RuleKeywords rule)).
  - intros keywords Hkeywords opts.
    destruct (scanRule_searches env is_statement (fun _ _ => I) rule p w keywords Hkeywords)
      as [Hpool Hafter].
    rewrite Hparse in Hpool, Hafter. fold opts in Hpool, Hafter.
    split; [done|]. split; [done|].
    intros tokenInfo p1 w1 t Hget Hlookup.
    destruct Hafter as (evs3 & Htrace3 & _).
    destruct (SearchWithRetry_first_attempt env (fun _ => True)
                (fun _ => I) (fun _ _ _ => I) (fun _ => I) opts 3 p w)
      as (evs2 & Htrace2 & _); [lia|].
    assert (exists evs1,
              trace (snd (SearchCode env opts p w))
              = trace w1 ++ EvSearchCode (Token t) (buildQuery opts) 1 :: evs1)
      as (evs1 & Htrace1).
    { unfold SearchCode. rewrite Hget, Hlookup.
      destruct (SearchCode_pages env 9 (Token t) (buildQuery opts) (Keywords opts) [] w1)
        as [res w2] eqn:Hpages.
      apply SearchCode_pages_events in Hpages as (_ & evs1 & Htrace1 & _).
      by exists evs1. }
    exists (evs1 ++ evs2 ++ evs3).
    rewrite Htrace3, Htrace2, Htrace1. by rewrite <- !app_assoc.
  - intros err' Hkeywords. unfold scanRule. rewrite Hkeywords. cbn [fst snd].
    split; [done|]. unfold recordScanHistory, dbExec.
    by destruct (dbFault env (tick w)).
Qed.

Lemma scanRule_ignores_broken_exts_witness :
  scanRule Scenario.ample Scenario.brokenExtsRule Scenario.twoTokens Scenario.start
  = scanRule Scenario.ample (withExcludeExts EmptyString Scenario.brokenExtsRule)
      Scenario.twoTokens Scenario.start
  /\ exists evs,
       trace (snd (scanRule Scenario.ample Scenario.brokenExtsRule
                     Scenario.twoTokens Scenario.start))
       = [EvRateLimitGet "ghp_A"] ++ EvSearchCode "ghp_A" "password" 1 :: evs.
Proof.
  destruct (scanRule_ignores_broken_exts Scenario.ample Scenario.brokenExtsRule
              Scenario.twoTokens Scenario.start
              (ErrUpstream
                 "invalid character 'm' looking for beginning of object key string"))
    as (Hsame & Hsearched & _); [reflexivity|].
  split; [exact Hsame|].
  destruct (Hsearched ["password"] eq_refl) as (_ & _ & Hfirst).
  apply (Hfirst 0%nat
           (storeToken 0
              {| Token := "ghp_A";
                 RateLimit := Some {| Limit := 5000; Remaining := 4990;
                                      Reset := Scenario.noon + 60 * Minute |};
                 IsAvailable := true;
                 LastChecked := Scenario.ticking 1 |} Scenario.twoTokens)
           (emit (EvRateLimitGet "ghp_A") Scenario.start)
           {| Token := "ghp_A";
              RateLimit := Some {| Limit := 5000; Remaining := 4990;
                                   Reset := Scenario.noon + 60 * Minute |};
              IsAvailable := true;
              LastChecked := Scenario.ticking 1 |}).
  - vm_compute. reflexivity.
  - reflexivity.
Defined.

(** C9, refuted as stated.  The rule with the text [{md] for its excluded
    extensions is not skipped: its search is sent, with no exclusion in
    the query, and the scan is recorded as a success. *)
Lemma scanRule_searches_with_broken_exts :
  let w' := snd (scanRule Scenario.ample Scenario.brokenExtsRule
                   Scenario.twoTokens Scenario.start) in
  ParseExcludeExts Scenario.ample (RuleExcludeExts Scenario.brokenExtsRule)
  = inl (ErrUpstream "invalid character 'm' looking for beginning of object key string")
  /\ trace w' = [EvRateLimitGet "ghp_A";
                 EvSearchCode "ghp_A" "password" 1;
                 EvDB "SELECT * FROM whitelists";
                 EvDB "INSERT INTO scan_histories"]
  /\ map sh_Status (scan_histories (db w')) = ["success"].
Proof. vm_compute. by repeat split. Qed.


(** * Further properties of the code *)

(** ** The token pool: what an acquisition keeps and what it never does *)

Section PoolInvariants.

Context (env : Env).

(** The ways one iteration of the loop can go. *)
Lemma GetClient_loop_cases startIndex maxAttempts remaining attempts p w :
  (tokens p !! currentIndex p = None
   /\ GetClient_loop env startIndex maxAttempts (S remaining) attempts p w
      = (inl ErrIndexOutOfRange, p, w))
  \/ (exists t t' w1 rate,
        tokens p !! currentIndex p = Some t
        /\ IsAvailable t = true
        /\ UpdateRateLimit env t w = (None, t', w1)
        /\ HasRemainingCalls t' 10 (clock env (tick w1)) = true
        /\ RateLimit t' = Some rate
        /\ GetClient_loop env startIndex maxAttempts (S remaining) attempts p w
           = (inr (currentIndex p), storeToken (currentIndex p) t' p, w1))
  \/ (exists t t' w1,
        tokens p !! currentIndex p = Some t
        /\ IsAvailable t = true
        /\ UpdateRateLimit env t w = (None, t', w1)
        /\ RateLimit t' = None
        /\ GetClient_loop env startIndex maxAttempts (S remaining) attempts p w
           = (inl ErrNilDereference, storeToken (currentIndex p) t' p, w1))
  \/ (exists q w1,
        skipped env p w q w1
        /\ GetClient_loop env startIndex maxAttempts (S remaining) attempts p w
           = GetClient_loop env startIndex maxAttempts remaining (S attempts)
               (nextToken q) w1)
  \/ (exists q w1,
        skipped env p w q w1
        /\ S attempts = maxAttempts
        /\ GetClient_loop env startIndex maxAttempts (S remaining) attempts p w
           = (inl (ErrAllRateLimited (getNextResetTime (nextToken q))),
              nextToken q, w1)).
Proof.
  rewrite GetClient_loop_S; cbv zeta.
  destruct (tokens p !! currentIndex p) as [t|] eqn:Hlookup; [|by left].
  right.
  assert (forall q w1,
    GetClient_advance env startIndex maxAttempts attempts
      (GetClient_loop env startIndex maxAttempts remaining (S attempts)) q w1
    = GetClient_loop env startIndex maxAttempts remaining (S attempts) (nextToken q) w1
    \/ (S attempts = maxAttempts
        /\ GetClient_advance env startIndex maxAttempts attempts
             (GetClient_loop env startIndex maxAttempts remaining (S attempts)) q w1
           = (inl (ErrAllRateLimited (getNextResetTime (nextToken q))),
              nextToken q, w1))) as Hadvance.
  { intros q w1. unfold GetClient_advance.
    destruct (currentIndex (nextToken q) =? startIndex)%nat; cbn [andb]; [|by left].
    destruct (S attempts =? maxAttempts)%nat eqn:Hlast; cbn [andb]; [|by left].
    apply Nat.eqb_eq in Hlast.
    destruct (negb _ && _); [by right|by left]. }
  destruct (IsAvailable t) eqn:Havailable.
  - destruct (UpdateRateLimit env t w) as [[err t'] w1] eqn:Hupdate.
    destruct err as [e|].
    + right. right. left. eexists _, w1. split; [|reflexivity].
      by apply (skipped_marked env p w t (Some e) t' w1).
    + destruct (HasRemainingCalls t' 10 (clock env (tick w1))) eqn:Hcalls.
      * destruct (RateLimit t') as [rate|] eqn:Hrate.
        -- left. by exists t, t', w1, rate.
        -- right. left. by exists t, t', w1.
      * right. right.
        pose proof (skipped_marked env p w t None t' w1
                      Hlookup Havailable Hupdate (fun _ => Hcalls)) as Hskip.
        match goal with
        | |- context [GetClient_advance _ _ _ _ _ ?q w1] =>
            destruct (Hadvance q w1) as [->|[Hlast ->]]
        end.
        -- left. eexists _, w1. split; [exact Hskip|reflexivity].
        -- right. eexists _, w1. split; [exact Hskip|]. split; [done|reflexivity].
  - right. right.
    pose proof (skipped_unavailable env p w t Hlookup Havailable) as Hskip.
    destruct (Hadvance p w) as [->|[Hlast ->]].
    + left. by exists p, w.
    + right. by exists p, w.
Qed.

Lemma storeToken_tokens i t t' p :
  tokens p !! i = Some t -> Token t' = Token t ->
  Token <$> tokens (storeToken i t' p) = Token <$> tokens p.
Proof.
  intros Hlookup Htoken. unfold storeToken; simpl.
  rewrite list_fmap_insert, Htoken. apply list_insert_id.
  by rewrite list_lookup_fmap, Hlookup.
Qed.

Lemma markTokenUnavailable_tokens i p :
  Token <$> tokens (markTokenUnavailable i p) = Token <$> tokens p.
Proof.
  unfold markTokenUnavailable; simpl.
  apply list_eq. intros j. rewrite !list_lookup_fmap.
  destruct (decide (i = j)) as [->|Hne].
  - rewrite list_lookup_alter_eq. by destruct (tokens p !! j).
  - by rewrite list_lookup_alter_ne.
Qed.

(** What a skipped iteration keeps and changes. *)
Lemma skipped_facts p w q w1 :
  skipped env p w q w1 ->
  currentIndex q = currentIndex p
  /\ length (tokens q) = length (tokens p)
  /\ Token <$> tokens q = Token <$> tokens p
  /\ (forall i t, tokens p !! i = Some t -> IsAvailable t = false ->
        tokens q !! i = Some t)
  /\ (exists t, tokens q !! currentIndex p = Some t /\ IsAvailable t = false)
  /\ db w1 = db w
  /\ exists evs,
       trace w1 = trace w ++ evs /\ (length evs <= 1)%nat
       /\ Forall (quota_call (Token <$> tokens p)) evs.
Proof.
  intros [t Hlookup Havailable|t err t' w2 Hlookup Havailable Hupdate Hcalls].
  - split; [done|]. split; [done|]. split; [done|]. split; [done|].
    split; [by exists t|]. split; [done|].
    exists []. rewrite app_nil_r. split; [done|]. split; [simpl; lia|done].
  - apply UpdateRateLimit_inv in Hupdate as [-> Htoken].
    pose proof (lookup_lt_Some _ _ _ Hlookup) as Hlt.
    split; [done|]. split.
    { unfold markTokenUnavailable, storeToken; simpl.
      by rewrite length_alter, length_insert. }
    split.
    { rewrite markTokenUnavailable_tokens. by apply (storeToken_tokens _ t). }
    split.
    { intros i t0 Hi Hoff. unfold markTokenUnavailable, storeToken; simpl.
      assert (i <> currentIndex p) as Hne by (intros ->; congruence).
      rewrite list_lookup_alter_ne by done.
      by rewrite list_lookup_insert_ne. }
    split.
    { exists (setAvailable false t'). split; [|done].
      unfold markTokenUnavailable, storeToken; simpl.
      rewrite list_lookup_alter_eq, list_lookup_insert_eq by done. done. }
    split; [done|].
    exists [EvRateLimitGet (Token t)]. split; [done|]. split; [simpl; lia|].
    apply Forall_singleton. exists (Token t). split; [|done].
    apply list_elem_of_fmap_2. by eapply list_elem_of_lookup_2.
Qed.

Lemma UpdateRateLimit_available t w err t' w1 :
  UpdateRateLimit env t w = (err, t', w1) ->
  IsAvailable t = true -> IsAvailable t' = true.
Proof.
  unfold UpdateRateLimit.
  destruct (rateLimitGet env (tick w) (Token t)) as [msg|[core|]];
    intros [= <- <- <-] Havailable; simpl; [done| |done].
  rewrite Havailable. by destruct (10 <? Remaining core).
Qed.

Lemma nextToken_wf q : (0 < length (tokens q))%nat -> wf_pool (nextToken q).
Proof. intros Hlen. unfold wf_pool, nextToken; simpl. apply Nat.mod_upper_bound. lia. Qed.

(** Everything one run of the loop keeps, by one induction. *)
Lemma GetClient_loop_keeps startIndex maxAttempts remaining attempts p w res p' w' :
  wf_pool p ->
  GetClient_loop env startIndex maxAttempts remaining attempts p w = (res, p', w') ->
  wf_pool p'
  /\ length (tokens p') = length (tokens p)
  /\ Token <$> tokens p' = Token <$> tokens p
  /\ res <> inl ErrIndexOutOfRange
  /\ (forall i t, tokens p !! i = Some t -> IsAvailable t = false ->
        tokens p' !! i = Some t)
  /\ (exists evs,
        trace w' = trace w ++ evs /\ (length evs <= remaining)%nat
        /\ Forall (quota_call (Token <$> tokens p)) evs)
  /\ (forall i, res = inr i ->
        exists t rate,
          tokens p' !! i = Some t /\ IsAvailable t = true
          /\ RateLimit t = Some rate
          /\ HasRemainingCalls t 10 (clock env (tick w')) = true).
Proof.
  revert attempts p w.
  induction remaining as [|remaining IH]; intros attempts p w Hwf.
  { simpl. intros [= <- <- <-]. repeat (split; [done|]). split; [|done].
    exists []. rewrite app_nil_r. by repeat split. }
  destruct (GetClient_loop_cases startIndex maxAttempts remaining attempts p w)
    as [[Hnone _]|[(t & t' & w1 & rate & Hlookup & Havailable & Hupdate & Hcalls & Hrate & ->)
       |[(t & t' & w1 & Hlookup & Havailable & Hupdate & Hrate & ->)
       |[(q & w1 & Hskip & ->)|(q & w1 & Hskip & Hlast & ->)]]]].
  - apply lookup_ge_None in Hnone. unfold wf_pool in Hwf. lia.
  - intros [= <- <- <-].
    pose proof (UpdateRateLimit_available _ _ _ _ _ Hupdate Havailable) as Havailable'.
    apply UpdateRateLimit_inv in Hupdate as [-> Htoken].
    pose proof (lookup_lt_Some _ _ _ Hlookup) as Hlt.
    split; [unfold wf_pool, storeToken; simpl; by rewrite length_insert|].
    split; [unfold storeToken; simpl; by rewrite length_insert|].
    split; [by apply (storeToken_tokens _ t)|].
    split; [done|]. split.
    { intros i t0 Hi Hoff. unfold storeToken; simpl.
      assert (currentIndex p <> i) as Hne by (intros <-; congruence).
      by rewrite list_lookup_insert_ne. }
    split.
    { exists [EvRateLimitGet (Token t)]. split; [done|]. split; [simpl; lia|].
      apply Forall_singleton. exists (Token t). split; [|done].
      apply list_elem_of_fmap_2. by eapply list_elem_of_lookup_2. }
    intros i [= <-]. exists t', rate. split; [|done].
    unfold storeToken; simpl. by apply list_lookup_insert_eq.
  - intros [= <- <- <-].
    apply UpdateRateLimit_inv in Hupdate as [-> Htoken].
    pose proof (lookup_lt_Some _ _ _ Hlookup) as Hlt.
    split; [unfold wf_pool, storeToken; simpl; by rewrite length_insert|].
    split; [unfold storeToken; simpl; by rewrite length_insert|].
    split; [by apply (storeToken_tokens _ t)|].
    split; [done|]. split.
    { intros i t0 Hi Hoff. unfold storeToken; simpl.
      assert (currentIndex p <> i) as Hne by (intros <-; congruence).
      by rewrite list_lookup_insert_ne. }
    split; [|done].
    exists [EvRateLimitGet (Token t)]. split; [done|]. split; [simpl; lia|].
    apply Forall_singleton. exists (Token t). split; [|done].
    apply list_elem_of_fmap_2. by eapply list_elem_of_lookup_2.
  - intros Hrun.
    destruct (skipped_facts p w q w1 Hskip)
      as (Hindex & Hlen & Htoks & Hframe & _ & _ & evs1 & Hevs1 & Hlen1 & Hcalls1).
    apply IH in Hrun
      as (Hwf' & Hlen' & Htoks' & Hres & Hframe' & (evs2 & Hevs2 & Hlen2 & Hcalls2) & Hok).
    2:{ apply nextToken_wf. unfold wf_pool in Hwf. lia. }
    cbn [nextToken tokens] in *.
    split; [done|]. split; [congruence|]. split; [congruence|]. split; [done|].
    split; [by auto|]. split; [|done].
    exists (evs1 ++ evs2). rewrite Hevs2, Hevs1, <- app_assoc. split; [done|].
    split; [rewrite length_app; lia|].
    apply Forall_app. split; [done|]. by rewrite <- Htoks.
  - intros [= <- <- <-].
    destruct (skipped_facts p w q w1 Hskip)
      as (Hindex & Hlen & Htoks & Hframe & _ & _ & evs1 & Hevs1 & Hlen1 & Hcalls1).
    split; [apply nextToken_wf; unfold wf_pool in Hwf; lia|].
    cbn [nextToken tokens].
    split; [done|]. split; [done|]. split; [done|]. split; [done|].
    split; [|done]. exists evs1. split; [done|]. split; [lia|done].
Qed.

End PoolInvariants.

(** X1.  A pool built by [NewTokenPool] holds the non-empty token strings
    it was given, in their order, each available and without a snapshot;
    it is not empty and its pointer is on the first token.  It is refused
    exactly when no non-empty string was given. *)
Theorem NewTokenPool_builds env toks w :
  (forall p,
      NewTokenPool env toks w = inr p ->
      wf_pool p
      /\ currentIndex p = 0%nat
      /\ Token <$> tokens p = filter (fun token => Strings.nonEmpty token = true) toks
      /\ Forall (fun t => IsAvailable t = true /\ RateLimit t = None
                          /\ Strings.nonEmpty (Token t) = true) (tokens p))
  /\ (filter (fun token => Strings.nonEmpty token = true) toks = [] <->
      exists err, NewTokenPool env toks w = inl err).
Proof.
  unfold NewTokenPool.
  assert (forall l : list string,
            Forall (fun token => Strings.nonEmpty token = true) l ->
            Token <$> map (fun token =>
                {| Token := token; RateLimit := None; IsAvailable := true;
                   LastChecked := clock env (tick w) |}) l = l
            /\ Forall (fun t => IsAvailable t = true /\ RateLimit t = None
                                /\ Strings.nonEmpty (Token t) = true)
                 (map (fun token =>
                    {| Token := token; RateLimit := None; IsAvailable := true;
                       LastChecked := clock env (tick w) |}) l)) as Hmap.
  { induction l as [|token l IH]; intros Hall; [done|].
    apply Forall_cons in Hall as [Htoken Hall]. destruct (IH Hall) as [IH1 IH2].
    simpl. split; [by f_equal|]. by apply Forall_cons. }
  assert (Forall (fun token => Strings.nonEmpty token = true)
            (filter (fun token => Strings.nonEmpty token = true) toks)) as Hfiltered.
  { apply Forall_forall. intros token Hin. by apply list_elem_of_filter in Hin as [H _]. }
  destruct toks as [|token toks].
  { split; [done|]. split; [by eexists|done]. }
  destruct (Hmap _ Hfiltered) as [Htokens Hall].
  destruct (filter _ (token :: toks)) as [|token1 rest] eqn:Hfilter; simpl in *.
  - split; [done|]. split; [by eexists|done].
  - split.
    + intros p [= <-]. simpl. split; [unfold wf_pool; simpl; lia|].
      split; [done|]. split; [done|done].
    + split; [done|]. by intros [err Herr].
Qed.

Lemma NewTokenPool_builds_witness :
  exists p,
    NewTokenPool Scenario.ample ["ghp_A"; ""; "ghp_B"] Scenario.start = inr p
    /\ wf_pool p
    /\ Token <$> tokens p = ["ghp_A"; "ghp_B"].
Proof.
  destruct (NewTokenPool_builds Scenario.ample ["ghp_A"; ""; "ghp_B"] Scenario.start)
    as [Hbuilt _].
  eexists. split; [reflexivity|].
  edestruct Hbuilt as (Hwf & _ & Htokens & _); [reflexivity|].
  split; [exact Hwf|exact Htokens].
Defined.

(** X2.  An acquisition keeps the pool in shape: from a pool with the
    pointer inside, whatever the quota endpoint answers, [GetClient] ends
    without an index out of range, with the same token strings in the
    same places and the pointer still inside. *)
Theorem GetClient_keeps_pool env p w res p' w' :
  wf_pool p ->
  GetClient env p w = (res, p', w') ->
  wf_pool p'
  /\ Token <$> tokens p' = Token <$> tokens p
  /\ res <> inl ErrIndexOutOfRange.
Proof.
  intros Hwf Hget.
  apply GetClient_loop_keeps in Hget as (H1 & _ & H2 & H3 & _); done.
Qed.

Lemma GetClient_keeps_pool_witness :
  exists res p' w',
    GetClient Scenario.drained Scenario.twoTokens Scenario.start = (res, p', w')
    /\ wf_pool p'
    /\ Token <$> tokens p' = ["ghp_A"; "ghp_B"]
    /\ res <> inl ErrIndexOutOfRange.
Proof.
  destruct (GetClient Scenario.drained Scenario.twoTokens Scenario.start)
    as [[res p'] w'] eqn:Hget.
  exists res, p', w'. split; [reflexivity|].
  apply (GetClient_keeps_pool Scenario.drained Scenario.twoTokens Scenario.start
           res p' w').
  - unfold wf_pool. simpl. lia.
  - exact Hget.
Defined.

(** X3.  An acquisition only ever talks to the quota endpoint, about
    tokens of the pool, and at most once per token: it adds to the trace
    no more calls than the pool has tokens, and it leaves the database
    alone. *)
Theorem GetClient_quota_calls env p w res p' w' :
  wf_pool p ->
  GetClient env p w = (res, p', w') ->
  db w' = db w
  /\ exists evs,
       trace w' = trace w ++ evs
       /\ (length evs <= length (tokens p))%nat
       /\ Forall (quota_call (Token <$> tokens p)) evs.
Proof.
  intros Hwf Hget. split.
  - pose proof (GetClient_loop_db env (currentIndex p) (length (tokens p))
                  (length (tokens p)) 0 p w) as Hdb.
    fold (GetClient env p w) in Hdb. by rewrite Hget in Hdb.
  - by apply GetClient_loop_keeps in Hget as (_ & _ & _ & _ & _ & H & _).
Qed.

Lemma GetClient_quota_calls_witness :
  exists res p' w' evs,
    GetClient Scenario.drained Scenario.twoTokens Scenario.start = (res, p', w')
    /\ trace w' = trace Scenario.start ++ evs
    /\ (length evs <= 2)%nat.
Proof.
  destruct (GetClient Scenario.drained Scenario.twoTokens Scenario.start)
    as [[res p'] w'] eqn:Hget.
  destruct (GetClient_quota_calls Scenario.drained Scenario.twoTokens Scenario.start
              res p' w') as (_ & evs & Htrace & Hlen & _).
  - unfold wf_pool. simpl. lia.
  - exact Hget.
  - by exists res, p', w', evs.
Defined.

(** X4.  An acquisition never touches a token that is marked unavailable:
    it is neither refreshed nor made available again, and is found
    afterwards exactly as it was. *)
Theorem GetClient_never_revives env p w res p' w' i t :
  wf_pool p ->
  GetClient env p w = (res, p', w') ->
  tokens p !! i = Some t ->
  IsAvailable t = false ->
  tokens p' !! i = Some t.
Proof.
  intros Hwf Hget Hlookup Hoff.
  apply GetClient_loop_keeps in Hget as (_ & _ & _ & _ & Hframe & _); [|done].
  by apply Hframe.
Qed.

(** X5.  The token an acquisition returns is marked available and has a
    snapshot which, at the time of the return, has a reset time that has
    passed or more than 10 calls left. *)
Theorem GetClient_returns_usable env p w i p' w' :
  wf_pool p ->
  GetClient env p w = (inr i, p', w') ->
  exists t rate,
    tokens p' !! i = Some t
    /\ IsAvailable t = true
    /\ RateLimit t = Some rate
    /\ (Reset rate < clock env (tick w') \/ 10 < Remaining rate).
Proof.
  intros Hwf Hget.
  apply GetClient_loop_keeps in Hget as (_ & _ & _ & _ & _ & _ & H); [|done].
  destruct (H i eq_refl) as (t & rate & Hlookup & Havailable & Hrate & Hcalls).
  exists t, rate. split; [done|]. split; [done|]. split; [done|].
  unfold HasRemainingCalls, After in Hcalls. rewrite Hrate in Hcalls.
  destruct (Reset rate <? clock env (tick w')) eqn:Hreset.
  - left. by apply Z.ltb_lt.
  - right. by apply Z.ltb_lt.
Qed.

Lemma GetClient_never_revives_witness :
  exists res p' w',
    GetClient Scenario.ample Scenario.oneDown Scenario.start = (res, p', w')
    /\ tokens p' !! 0%nat = Some (Scenario.down "ghp_A").
Proof.
  destruct (GetClient Scenario.ample Scenario.oneDown Scenario.start)
    as [[res p'] w'] eqn:Hget.
  exists res, p', w'. split; [reflexivity|].
  apply (GetClient_never_revives Scenario.ample Scenario.oneDown Scenario.start
           res p' w' 0%nat (Scenario.down "ghp_A")).
  - unfold wf_pool. simpl. lia.
  - exact Hget.
  - reflexivity.
  - reflexivity.
Defined.

Lemma GetClient_returns_usable_witness :
  exists p' w' t,
    GetClient Scenario.ample Scenario.oneDown Scenario.start = (inr 1%nat, p', w')
    /\ tokens p' !! 1%nat = Some t
    /\ IsAvailable t = true.
Proof.
  destruct (GetClient Scenario.ample Scenario.oneDown Scenario.start)
    as [[res p'] w'] eqn:Hget.
  assert (res = inr 1%nat) as ->.
  { vm_compute in Hget. by injection Hget as <- _ _. }
  destruct (GetClient_returns_usable Scenario.ample Scenario.oneDown Scenario.start
              1%nat p' w') as (t & rate & Hlookup & Havailable & _).
  - unfold wf_pool. simpl. lia.
  - exact Hget.
  - by exists p', w', t.
Defined.

(** *** A pool without an available token *)

Section DeadPool.

Context (env : Env).

(** Every index of a list of [n] elements is reached from [startIndex]
    in fewer than [n] steps round the list. *)
Lemma round_covers startIndex n i :
  (startIndex < n)%nat -> (i < n)%nat ->
  exists j, (j < n)%nat /\ ((startIndex + j) mod n)%nat = i.
Proof.
  intros Hs Hi. exists ((i + n - startIndex) mod n)%nat. split.
  - apply Nat.mod_upper_bound. lia.
  - rewrite Nat.Div0.add_mod_idemp_r.
    replace (startIndex + (i + n - startIndex))%nat with (i + 1 * n)%nat by lia.
    rewrite Nat.Div0.mod_add. apply Nat.mod_small. lia.
Qed.

Lemma visited_all startIndex (ts : list TokenInfo) :
  (startIndex < length ts)%nat ->
  (forall j, (j < length ts)%nat ->
     exists t, ts !! ((startIndex + j) mod length ts)%nat = Some t
               /\ IsAvailable t = false) ->
  Forall (fun t => IsAvailable t = false) ts.
Proof.
  intros Hs Hvisited. apply Forall_lookup. intros i t Hlookup.
  destruct (round_covers startIndex (length ts) i) as (j & Hj & Hij);
    [done|by eapply lookup_lt_Some|].
  destruct (Hvisited j Hj) as (t' & Hlookup' & Hoff). congruence.
Qed.

(** With no token available the loop runs round the pool without a
    call and ends with the verdict on the reset times. *)
Lemma GetClient_loop_dead startIndex n remaining attempts p w :
  (attempts + S remaining = n)%nat ->
  length (tokens p) = n ->
  (startIndex < n)%nat ->
  currentIndex p = ((startIndex + attempts) mod n)%nat ->
  Forall (fun t => IsAvailable t = false) (tokens p) ->
  GetClient_loop env startIndex n (S remaining) attempts p w
  = (inl (cycle_verdict env {| tokens := tokens p; currentIndex := startIndex |} w),
     {| tokens := tokens p; currentIndex := startIndex |}, w).
Proof.
  revert attempts p.
  induction remaining as [|remaining IH];
    intros attempts p Hsum Hlen Hstart Hindex Hdead;
    rewrite GetClient_loop_S; cbv zeta;
    (destruct (lookup_lt_is_Some_2 (tokens p) (currentIndex p)) as [t Hlookup];
     [rewrite Hindex, Hlen; apply Nat.mod_upper_bound; lia|]);
    rewrite Hlookup, (Forall_lookup_1 _ _ _ _ Hdead Hlookup);
    unfold GetClient_advance; cbv zeta;
    pose proof (currentIndex_advance startIndex n p attempts Hlen Hstart Hindex)
      as Hnext.
  - assert (nextToken p = {| tokens := tokens p; currentIndex := startIndex |}) as ->.
    { unfold nextToken in *. simpl in Hnext. f_equal. rewrite Hnext.
      replace (startIndex + S attempts)%nat with (startIndex + 1 * n)%nat by lia.
      rewrite Nat.Div0.mod_add. apply Nat.mod_small. lia. }
    cbn [currentIndex]. rewrite Nat.eqb_refl.
    replace (S attempts =? n)%nat with true by (symmetry; apply Nat.eqb_eq; lia).
    cbn [andb]. unfold cycle_verdict. by destruct (_ && _).
  - replace (S attempts =? n)%nat with false by (symmetry; apply Nat.eqb_neq; lia).
    rewrite andb_false_r.
    rewrite (IH (S attempts) (nextToken p)); [done|lia|done|done|done|done].
Qed.

Lemma GetClient_dead p w :
  wf_pool p ->
  Forall (fun t => IsAvailable t = false) (tokens p) ->
  GetClient env p w = (inl (cycle_verdict env p w), p, w).
Proof.
  intros Hwf Hdead. unfold GetClient, wf_pool in *.
  destruct (length (tokens p)) as [|remaining] eqn:Hlen; [lia|].
  rewrite (GetClient_loop_dead (currentIndex p) (S remaining)); try done; try lia.
  - by destruct p.
  - rewrite Nat.add_0_r. symmetry. by apply Nat.mod_small.
Qed.

(** How far the loop goes: it stops [k] tokens from where it started,
    every token it went past is marked unavailable by then, and it went
    past all of them when it ends in failure. *)
Lemma GetClient_loop_passes startIndex n remaining attempts p w res p' w' :
  (attempts + remaining = n)%nat ->
  length (tokens p) = n ->
  (startIndex < n)%nat ->
  currentIndex p = ((startIndex + attempts) mod n)%nat ->
  (forall j, (j < attempts)%nat ->
     exists t, tokens p !! ((startIndex + j) mod n)%nat = Some t
               /\ IsAvailable t = false) ->
  GetClient_loop env startIndex n remaining attempts p w = (res, p', w') ->
  exists d q w1,
    (attempts + d <= n)%nat
    /\ passed env d p w q w1
    /\ currentIndex p' = currentIndex q
    /\ currentIndex p' = ((startIndex + (attempts + d)) mod n)%nat
    /\ (forall j, (j < attempts + d)%nat ->
          exists t, tokens p' !! ((startIndex + j) mod n)%nat = Some t
                    /\ IsAvailable t = false)
    /\ (forall err, res = inl err -> err <> ErrNilDereference ->
          (attempts + d)%nat = n).
Proof.
  revert attempts p w.
  induction remaining as [|remaining IH];
    intros attempts p w Hsum Hlen Hstart Hindex Hvisited.
  { simpl. intros [= <- <- <-]. exists 0%nat, p, w. rewrite Nat.add_0_r.
    split; [lia|]. split; [constructor|]. split; [done|]. split; [done|].
    split; [done|]. intros; lia. }
  assert (forall q w1, skipped env p w q w1 ->
            length (tokens (nextToken q)) = n
            /\ currentIndex (nextToken q) = ((startIndex + S attempts) mod n)%nat
            /\ forall j, (j < S attempts)%nat ->
                 exists t, tokens (nextToken q) !! ((startIndex + j) mod n)%nat = Some t
                           /\ IsAvailable t = false) as Hstep.
  { intros q w1 Hskip.
    destruct (skipped_facts env p w q w1 Hskip)
      as (Hq & Hlenq & _ & Hframe & Hcurrent & _).
    split; [simpl; congruence|]. split.
    { apply currentIndex_advance; [congruence|done|congruence]. }
    intros j Hj. cbn [nextToken tokens].
    destruct (decide (j = attempts)) as [->|Hne].
    - rewrite <- Hindex. exact Hcurrent.
    - destruct (Hvisited j) as (t & Hlookup & Hoff); [lia|].
      exists t. split; [by apply Hframe|done]. }
  assert (forall t t', tokens p !! currentIndex p = Some t -> IsAvailable t = true ->
            forall j, (j < attempts)%nat ->
              exists t0, tokens (storeToken (currentIndex p) t' p)
                           !! ((startIndex + j) mod n)%nat = Some t0
                         /\ IsAvailable t0 = false) as Hstays.
  { intros t t' Hlookup Havailable j Hj.
    destruct (Hvisited j Hj) as (t0 & Hlookup0 & Hoff).
    exists t0. split; [|done]. unfold storeToken; cbn [tokens].
    rewrite list_lookup_insert_ne; [done|]. intros Heq. congruence. }
  destruct (GetClient_loop_cases env startIndex n remaining attempts p w)
    as [[Hnone _]
       |[(t & t' & w1 & rate & Hlookup & Havailable & _ & _ & _ & ->)
       |[(t & t' & w1 & Hlookup & Havailable & _ & _ & ->)
       |[(q & w1 & Hskip & ->)|(q & w1 & Hskip & Hlast & ->)]]]].
  - apply lookup_ge_None in Hnone. rewrite Hindex, Hlen in Hnone.
    pose proof (Nat.mod_upper_bound (startIndex + attempts) n). lia.
  - intros [= <- <- <-]. exists 0%nat, p, w. rewrite Nat.add_0_r.
    split; [lia|]. split; [constructor|]. split; [done|]. split; [done|].
    split; [by apply (Hstays t)|done].
  - intros [= <- <- <-]. exists 0%nat, p, w. rewrite Nat.add_0_r.
    split; [lia|]. split; [constructor|]. split; [done|]. split; [done|].
    split; [by apply (Hstays t)|]. by intros err [= <-].
  - intros Hrun. destruct (Hstep q w1 Hskip) as (Hlen' & Hindex' & Hvisited').
    apply IH in Hrun as (d & q2 & w2 & Hd & Hpassed & H0 & H1 & H2 & H3);
      [|lia|done|done|done|done].
    exists (S d), q2, w2.
    replace (attempts + S d)%nat with (S attempts + d)%nat by lia.
    split; [lia|]. split; [by apply (passed_step env d p w q w1)|done].
  - intros [= <- <- <-].
    destruct (Hstep q w1 Hskip) as (Hlen' & Hindex' & Hvisited').
    exists 1%nat, (nextToken q), w1.
    replace (attempts + 1)%nat with (S attempts) by lia.
    split; [lia|]. split; [apply (passed_step env 0 p w q w1); [done|constructor]|].
    split; [done|]. split; [done|]. split; [done|]. intros; lia.
Qed.

(** When the loop ends in failure every token is marked unavailable. *)
Lemma GetClient_loop_failed p w err p' w' :
  wf_pool p ->
  err <> ErrNilDereference ->
  GetClient env p w = (inl err, p', w') ->
  Forall (fun t => IsAvailable t = false) (tokens p').
Proof.
  intros Hwf Herr Hget.
  pose proof (GetClient_loop_keeps env _ _ _ _ _ _ _ _ _ Hwf Hget) as (_ & Hlen & _).
  unfold GetClient, wf_pool in *.
  apply GetClient_loop_passes in Hget
    as (d & _ & _ & _ & _ & _ & _ & Hvisited & Hall); try done.
  - rewrite (Hall err eq_refl Herr) in Hvisited.
    apply (visited_all (currentIndex p)); [lia|]. by rewrite Hlen.
  - rewrite Nat.add_0_r. symmetry. by apply Nat.mod_small.
  - intros j Hj. lia.
Qed.

End DeadPool.

(** ** Rotation *)

(** C1 (as the code has it).  An acquisition that succeeds leaves the
    pointer on the token it returns.  So when the token under the pointer
    is available and the quota endpoint keeps reporting more than 10 calls
    left for it, any number of consecutive acquisitions return that same
    token, and the pointer does not move.  The pointer only moves past
    tokens that are skipped as unusable: whatever an acquisition ends
    with, it has made [k] iterations that each skipped the token under
    the pointer, which was marked unavailable or was refreshed and then
    marked unavailable, and moved on by one; the pointer is left [k]
    tokens further round the pool, every token it went past is marked
    unavailable by then, and [k] is the size of the pool when an error is
    returned. *)
Theorem GetClient_times_sticky env p w :
  (forall i p' w', GetClient env p w = (inr i, p', w') -> currentIndex p' = i)
  /\ (forall n t,
      tokens p !! currentIndex p = Some t ->
      IsAvailable t = true ->
      (forall m, exists core,
          rateLimitGet env m (Token t) = RateLimitOk (Some core)
          /\ 10 < Remaining core) ->
      exists p' w',
        GetClient_times env n p w = (replicate n (inr (currentIndex p)), p', w')
        /\ currentIndex p' = currentIndex p)
  /\ (forall res p' w',
      wf_pool p ->
      GetClient env p w = (res, p', w') ->
      exists k q w1,
        (k <= length (tokens p))%nat
        /\ passed env k p w q w1
        /\ currentIndex p' = currentIndex q
        /\ currentIndex p' = ((currentIndex p + k) mod length (tokens p))%nat
        /\ (forall j, (j < k)%nat ->
              exists t,
                tokens p' !! ((currentIndex p + j) mod length (tokens p))%nat = Some t
                /\ IsAvailable t = false)
        /\ (forall err, res = inl err -> err <> ErrNilDereference ->
              k = length (tokens p))).
Proof.
  split; [|split].
  { intros i p' w' Hget. by apply GetClient_inr in Hget as [Hindex _]. }
  2:{ intros res p' w' Hwf Hget. unfold GetClient, wf_pool in *.
      apply GetClient_loop_passes in Hget; try done.
      - by rewrite Nat.add_0_r; symmetry; apply Nat.mod_small.
      - intros j Hj. lia. }
  intros n t Hlookup Havailable Hquota.
  revert p w t Hlookup Havailable Hquota.
  induction n as [|n IH]; intros p w t Hlookup Havailable Hquota; simpl.
  { by exists p, w. }
  destruct (Hquota (tick w)) as (core & Hget & Hcore).
  pose (t' := {| Token := Token t; RateLimit := Some core; IsAvailable := true;
                 LastChecked := clock env (tick (emit (EvRateLimitGet (Token t)) w)) |}).
  assert (UpdateRateLimit env t w = (None, t', emit (EvRateLimitGet (Token t)) w))
    as Hupdate.
  { unfold UpdateRateLimit. rewrite Hget. unfold t'.
    by replace (10 <? Remaining core) with true by (symmetry; apply Z.ltb_lt; lia). }
  assert (HasRemainingCalls t' 10
            (clock env (tick (emit (EvRateLimitGet (Token t)) w))) = true) as Hcalls.
  { unfold HasRemainingCalls; simpl.
    destruct (After _ _); [done|]. apply Z.ltb_lt; lia. }
  rewrite (GetClient_current env p w t t' _ core Hlookup Havailable Hupdate eq_refl Hcalls).
  destruct (IH (storeToken (currentIndex p) t' p)
               (emit (EvRateLimitGet (Token t)) w) t') as (p' & w' & Htimes & Hindex).
  - simpl. apply list_lookup_insert_eq. by eapply lookup_lt_Some.
  - done.
  - done.
  - exists p', w'. simpl in Htimes. by rewrite Htimes.
Qed.

Lemma GetClient_times_sticky_witness :
  (exists p' w',
      GetClient_times Scenario.ample 3 Scenario.twoTokens Scenario.start
      = ([inr 0%nat; inr 0%nat; inr 0%nat], p', w')
      /\ currentIndex p' = 0%nat)
  /\ (exists p' w',
        GetClient Scenario.ample Scenario.twoTokens Scenario.start = (inr 0%nat, p', w')
        /\ currentIndex p' = 0%nat)
  /\ exists p' w',
       GetClient Scenario.failing Scenario.twoTokens Scenario.start = (inr 1%nat, p', w')
       /\ currentIndex p' = 1%nat
       /\ exists t, tokens p' !! 0%nat = Some t /\ IsAvailable t = false.
Proof.
  destruct (GetClient_times_sticky Scenario.ample Scenario.twoTokens Scenario.start)
    as (Hrests & Hsticky & _).
  destruct (GetClient_times_sticky Scenario.failing Scenario.twoTokens Scenario.start)
    as (_ & _ & Hpasses).
  split; [|split].
  - apply (Hsticky 3%nat (Scenario.fresh "ghp_A")).
    + reflexivity.
    + reflexivity.
    + intros m. eexists. split; [reflexivity|]. simpl. lia.
  - destruct (GetClient Scenario.ample Scenario.twoTokens Scenario.start)
      as [[client p'] w'] eqn:Hget.
    assert (client = inr 0%nat) as ->.
    { vm_compute in Hget. by injection Hget as <- _ _. }
    exists p', w'. split; [reflexivity|]. by apply (Hrests 0%nat p' w').
  - destruct (GetClient Scenario.failing Scenario.twoTokens Scenario.start)
      as [[client p'] w'] eqn:Hget.
    assert (client = inr 1%nat) as ->.
    { vm_compute in Hget. by injection Hget as <- _ _. }
    destruct (Hpasses (inr 1%nat) p' w') as (k & q & w1 & Hk & _ & _ & Hindex & Hpast & _).
    + unfold wf_pool. simpl. lia.
    + reflexivity.
    + assert (currentIndex p' = 1%nat) as Hone
        by (apply (GetClient_inr Scenario.failing _ _ _ _ _ Hget)).
      exists p', w'. split; [reflexivity|]. split; [exact Hone|].
      assert (k = 1%nat) as ->.
      { rewrite Hone in Hindex. simpl in Hk, Hindex.
        destruct k as [|[|[|k]]]; [discriminate|done|discriminate|lia]. }
      apply (Hpast 0%nat). lia.
Defined.

(** C1, refuted as stated.  With two tokens that both have ample quota,
    two consecutive acquisitions return the first token twice, and the
    pointer is still on it afterwards. *)
Lemma GetClient_not_round_robin :
  exists p' w',
    GetClient_times Scenario.ample 2 Scenario.twoTokens Scenario.start
    = ([inr 0%nat; inr 0%nat], p', w')
    /\ ~ NoDup [@inr error nat 0%nat; inr 0%nat]
    /\ currentIndex p' = 0%nat.
Proof.
  eexists _, _. split; [vm_compute; reflexivity|]. split; [|reflexivity].
  intros H. apply NoDup_cons in H as [Hin _]. apply Hin. by left.
Qed.

(** X6.  A pool in which every token is marked unavailable is dead:
    [GetClient] fails at once, with the verdict on the stored reset times,
    without a call to the quota endpoint and without a change to the
    pool. *)
Theorem GetClient_dead_pool env p w :
  wf_pool p ->
  Forall (fun t => IsAvailable t = false) (tokens p) ->
  GetClient env p w = (inl (cycle_verdict env p w), p, w).
Proof. apply GetClient_dead. Qed.

Lemma GetClient_dead_pool_witness :
  GetClient Scenario.ample Scenario.allDown Scenario.start
  = (inl (ErrAllRateLimited (Scenario.noon - Minute)), Scenario.allDown, Scenario.start).
Proof.
  apply (GetClient_dead_pool Scenario.ample Scenario.allDown Scenario.start).
  - unfold wf_pool. simpl. lia.
  - repeat constructor.
Defined.

(** X7.  A failed acquisition is final.  When [GetClient] returns an
    error it leaves every token marked unavailable, and from then on every
    acquisition fails in the same way, in any later world, without asking
    the quota endpoint again: only [RefreshAllTokens] brings a token
    back. *)
Theorem GetClient_failure_is_final env p w err p' w' :
  wf_pool p ->
  GetClient env p w = (inl err, p', w') ->
  err <> ErrNilDereference ->
  Forall (fun t => IsAvailable t = false) (tokens p')
  /\ forall w2, GetClient env p' w2 = (inl (cycle_verdict env p' w2), p', w2).
Proof.
  intros Hwf Hget Herr.
  pose proof (GetClient_loop_failed env p w err p' w' Hwf Herr Hget) as Hdead.
  split; [done|]. intros w2. apply GetClient_dead; [|done].
  by apply GetClient_loop_keeps in Hget as (Hwf' & _).
Qed.

Lemma GetClient_failure_is_final_witness :
  exists p' w',
    GetClient Scenario.drained Scenario.twoTokens Scenario.start
    = (inl ErrNoAvailableTokens, p', w')
    /\ Forall (fun t => IsAvailable t = false) (tokens p')
    /\ GetClient Scenario.drained p' w'
       = (inl (cycle_verdict Scenario.drained p' w'), p', w').
Proof.
  destruct (GetClient Scenario.drained Scenario.twoTokens Scenario.start)
    as [[res p'] w'] eqn:Hget.
  assert (res = inl ErrNoAvailableTokens) as ->.
  { vm_compute in Hget. by injection Hget as <- _ _. }
  exists p', w'. split; [reflexivity|].
  destruct (GetClient_failure_is_final Scenario.drained Scenario.twoTokens
              Scenario.start ErrNoAvailableTokens p' w') as [Hdead Hfinal].
  - unfold wf_pool. simpl. lia.
  - exact Hget.
  - discriminate.
  - split; [exact Hdead|exact (Hfinal w')].
Defined.

(** *** Failing over to another token *)

Section Failover.

Context (env : Env).

Lemma GetClient_loop_skip startIndex n k t t' w w1 rate :
  UpdateRateLimit env t w = (None, t', w1) ->
  RateLimit t' = Some rate ->
  HasRemainingCalls t' 10 (clock env (tick w1)) = true ->
  IsAvailable t = true ->
  (k < n)%nat -> (startIndex < n)%nat ->
  forall d attempts remaining p,
    (attempts + d = k)%nat ->
    (attempts + S remaining = n)%nat ->
    length (tokens p) = n ->
    currentIndex p = ((startIndex + attempts) mod n)%nat ->
    (forall j, (attempts <= j < k)%nat ->
       exists t0, tokens p !! ((startIndex + j) mod n)%nat = Some t0
                  /\ IsAvailable t0 = false) ->
    tokens p !! ((startIndex + k) mod n)%nat = Some t ->
    GetClient_loop env startIndex n (S remaining) attempts p w
    = (inr ((startIndex + k) mod n)%nat,
       storeToken ((startIndex + k) mod n)%nat t'
         {| tokens := tokens p; currentIndex := ((startIndex + k) mod n)%nat |},
       w1).
Proof.
  intros Hupdate Hrate Hcalls Havailable Hk Hstart.
  induction d as [|d IH];
    intros attempts remaining p Hsum Hrem Hlen Hindex Hdown Hlookup;
    rewrite GetClient_loop_S; cbv zeta.
  - assert (attempts = k) as -> by lia.
    rewrite Hindex, Hlookup, Havailable, Hupdate.
    rewrite Hcalls, Hrate. unfold storeToken; cbn [currentIndex tokens].
    by rewrite Hindex.
  - destruct (Hdown attempts) as (t0 & Hlookup0 & Hoff); [lia|].
    rewrite Hindex, Hlookup0, Hoff. unfold GetClient_advance. cbv zeta.
    replace (S attempts =? n)%nat with false by (symmetry; apply Nat.eqb_neq; lia).
    rewrite andb_false_r.
    destruct remaining as [|remaining]; [lia|].
    rewrite (IH (S attempts) remaining (nextToken p)); try done; try lia.
    + apply currentIndex_advance; done.
    + intros j Hj. apply Hdown. lia.
Qed.

End Failover.

(** X8.  [GetClient] passes over tokens marked unavailable without a
    call.  When the [k] tokens from the pointer on are unavailable and the
    next one is available, refreshes well, and has a snapshot and calls to
    spare after that, that token is returned after the one call made for
    it, and the pointer rests on it. *)
Theorem GetClient_skips_unavailable env p w k t t' w1 rate :
  wf_pool p ->
  (k < length (tokens p))%nat ->
  (forall j, (j < k)%nat ->
     exists t0,
       tokens p !! ((currentIndex p + j) mod length (tokens p))%nat = Some t0
       /\ IsAvailable t0 = false) ->
  tokens p !! ((currentIndex p + k) mod length (tokens p))%nat = Some t ->
  IsAvailable t = true ->
  UpdateRateLimit env t w = (None, t', w1) ->
  RateLimit t' = Some rate ->
  HasRemainingCalls t' 10 (clock env (tick w1)) = true ->
  let index := ((currentIndex p + k) mod length (tokens p))%nat in
  GetClient env p w
  = (inr index, storeToken index t' {| tokens := tokens p; currentIndex := index |}, w1)
  /\ trace w1 = trace w ++ [EvRateLimitGet (Token t)].
Proof.
  intros Hwf Hk Hdown Hlookup Havailable Hupdate Hrate Hcalls index. split.
  - unfold GetClient, wf_pool in *.
    destruct (length (tokens p)) as [|remaining] eqn:Hlen; [lia|].
    apply (GetClient_loop_skip env (currentIndex p) (S remaining) k t t' w w1 rate
             Hupdate Hrate Hcalls Havailable Hk Hwf k 0%nat remaining p); try done.
    + rewrite Nat.add_0_r. symmetry. by apply Nat.mod_small.
    + intros j Hj. apply Hdown. lia.
  - by apply UpdateRateLimit_inv in Hupdate as [-> _].
Qed.

Lemma GetClient_skips_unavailable_witness :
  exists p' w',
    GetClient Scenario.ample Scenario.oneDown Scenario.start = (inr 1%nat, p', w')
    /\ trace w' = [EvRateLimitGet "ghp_B"].
Proof.
  edestruct (GetClient_skips_unavailable Scenario.ample Scenario.oneDown Scenario.start
               1%nat (Scenario.fresh "ghp_B")) as [Hget Htrace].
  - unfold wf_pool. simpl. lia.
  - simpl. lia.
  - intros j Hj. assert (j = 0%nat) as -> by lia.
    exists (Scenario.down "ghp_A"). split; reflexivity.
  - reflexivity.
  - reflexivity.
  - reflexivity.
  - reflexivity.
  - vm_compute. reflexivity.
  - eexists _, _. split; [exact Hget|exact Htrace].
Defined.

(** X9.  Failover.  In a pool of two tokens or more, when the token under
    the pointer is available but its refresh fails, or leaves it without
    calls to spare, it is marked unavailable, and the next token, if it
    is available, refreshes well, and has a snapshot and calls to spare
    after that, is returned in the same acquisition; the pointer moves on
    to it. *)
Theorem GetClient_fails_over env p w t1 err t1' w1 t2 t2' w2 rate2 :
  (2 <= length (tokens p))%nat ->
  wf_pool p ->
  tokens p !! currentIndex p = Some t1 ->
  IsAvailable t1 = true ->
  UpdateRateLimit env t1 w = (err, t1', w1) ->
  (err = None -> HasRemainingCalls t1' 10 (clock env (tick w1)) = false) ->
  let next := ((currentIndex p + 1) mod length (tokens p))%nat in
  tokens p !! next = Some t2 ->
  IsAvailable t2 = true ->
  UpdateRateLimit env t2 w1 = (None, t2', w2) ->
  RateLimit t2' = Some rate2 ->
  HasRemainingCalls t2' 10 (clock env (tick w2)) = true ->
  exists p',
    GetClient env p w = (inr next, p', w2)
    /\ currentIndex p' = next
    /\ tokens p' !! currentIndex p = Some (setAvailable false t1')
    /\ tokens p' !! next = Some t2'.
Proof.
  intros Hlen Hwf Hlookup1 Havailable1 Hupdate1 Hcalls1 next
         Hlookup2 Havailable2 Hupdate2 Hrate2 Hcalls2.
  unfold wf_pool in Hwf.
  assert (next <> currentIndex p) as Hne.
  { unfold next. destruct (decide (currentIndex p + 1 < length (tokens p))%nat).
    - rewrite Nat.mod_small; lia.
    - replace (currentIndex p + 1)%nat with (0 + 1 * length (tokens p))%nat by lia.
      rewrite Nat.Div0.mod_add, Nat.mod_small; lia. }
  assert (next < length (tokens p))%nat as Hnext
    by (apply Nat.mod_upper_bound; lia).
  set (q := markTokenUnavailable (currentIndex p) (storeToken (currentIndex p) t1' p)).
  assert (tokens (nextToken q) !! next = Some t2) as Hq2.
  { unfold q, markTokenUnavailable, storeToken; simpl.
    rewrite list_lookup_alter_ne by done. by rewrite list_lookup_insert_ne. }
  assert (currentIndex (nextToken q) = next) as Hqi.
  { unfold q, nextToken, markTokenUnavailable, storeToken; simpl.
    by rewrite length_alter, length_insert. }
  exists (storeToken next t2' (nextToken q)).
  split; [|split; [done|split]].
  - unfold GetClient.
    destruct (length (tokens p)) as [|[|remaining]] eqn:Hn; [lia|lia|].
    assert (GetClient_loop env (currentIndex p) (S (S remaining)) (S (S remaining)) 0 p w
            = GetClient_loop env (currentIndex p) (S (S remaining)) (S remaining) 1
                (nextToken q) w1) as ->.
    { rewrite GetClient_loop_S; cbv zeta.
      rewrite Hlookup1, Havailable1, Hupdate1.
      destruct err as [e|]; [done|].
      rewrite (Hcalls1 eq_refl). unfold GetClient_advance. cbv zeta.
      by rewrite andb_false_r. }
    rewrite GetClient_loop_S; cbv zeta.
    rewrite Hqi, Hq2, Havailable2, Hupdate2.
    rewrite Hcalls2, Hrate2. unfold storeToken; cbn [currentIndex tokens].
    by rewrite Hqi.
  - unfold storeToken, q, markTokenUnavailable; simpl.
    rewrite list_lookup_insert_ne by done.
    rewrite list_lookup_alter_eq, list_lookup_insert_eq by lia. done.
  - unfold storeToken; simpl. apply list_lookup_insert_eq.
    unfold q, markTokenUnavailable; simpl.
    by rewrite length_alter, length_insert.
Qed.

Lemma GetClient_fails_over_witness :
  exists p',
    GetClient Scenario.failing Scenario.twoTokens Scenario.start
    = (inr 1%nat, p', emit (EvRateLimitGet "ghp_B")
                        (emit (EvRateLimitGet "ghp_A") Scenario.start))
    /\ currentIndex p' = 1%nat.
Proof.
  edestruct (GetClient_fails_over Scenario.failing Scenario.twoTokens Scenario.start
               (Scenario.fresh "ghp_A") (Some (ErrUpstream "401 Bad credentials"))
               (Scenario.fresh "ghp_A") (emit (EvRateLimitGet "ghp_A") Scenario.start)
               (Scenario.fresh "ghp_B"))
    as (p' & Hget & Hindex & _).
  - simpl. lia.
  - unfold wf_pool. simpl. lia.
  - reflexivity.
  - reflexivity.
  - reflexivity.
  - discriminate.
  - reflexivity.
  - reflexivity.
  - vm_compute. reflexivity.
  - reflexivity.
  - vm_compute. reflexivity.
  - exists p'. split; [exact Hget|exact Hindex].
Defined.

(** *** Refreshing the whole pool *)

Lemma RefreshAll_from_spec env ts w ts' w' :
  RefreshAll_from env ts w = (ts', w') ->
  db w' = db w
  /\ trace w' = trace w ++ ((fun t => EvRateLimitGet (Token t)) <$> ts)
  /\ Token <$> ts' = Token <$> ts
  /\ forall i t,
       ts !! i = Some t ->
       exists t',
         ts' !! i = Some t'
         /\ (IsAvailable t = true -> IsAvailable t' = true)
         /\ match rateLimitGet env (tick w + i) (Token t) with
            | RateLimitOk (Some core) =>
                RateLimit t' = Some core
                /\ (10 < Remaining core -> IsAvailable t' = true)
                /\ (Remaining core <= 10 -> IsAvailable t' = IsAvailable t)
            | _ => t' = t
            end.
Proof.
  revert w ts' w'. induction ts as [|t ts IH]; intros w ts' w'; cbn [RefreshAll_from].
  { intros [= <- <-]. simpl. rewrite app_nil_r. by repeat split. }
  destruct (UpdateRateLimit env t w) as [[err t1] w1] eqn:Hupdate.
  destruct (RefreshAll_from env ts w1) as [rest w2] eqn:Hrest.
  intros [= <- <-].
  destruct (IH w1 rest w2 Hrest) as (Hdb & Htrace & Htokens & Heach).
  pose proof (UpdateRateLimit_available env t w err t1 w1 Hupdate) as Hkeeps.
  pose proof Hupdate as Hinv. apply UpdateRateLimit_inv in Hinv as [-> Htoken].
  split; [done|]. split.
  { rewrite Htrace, fmap_cons. simpl. by rewrite <- app_assoc. }
  split; [by rewrite !fmap_cons, Htoken, Htokens|].
  intros [|i] t0 Hlookup; simpl in Hlookup.
  - injection Hlookup as <-. exists t1. split; [done|]. split; [done|].
    rewrite Nat.add_0_r. unfold UpdateRateLimit in Hupdate.
    destruct (rateLimitGet env (tick w) (Token t)) as [msg|[core|]];
      injection Hupdate as <- <-; [done| |done].
    simpl. split; [done|]. split.
    + intros Hcore. by replace (10 <? Remaining core) with true
        by (symmetry; apply Z.ltb_lt; lia).
    + intros Hcore. by replace (10 <? Remaining core) with false
        by (symmetry; apply Z.ltb_ge; lia).
  - destruct (Heach i t0 Hlookup) as (t' & Hlookup' & Hkeeps' & Hanswer).
    exists t'. split; [done|]. split; [done|].
    rewrite tick_emit in Hanswer.
    by replace (tick w + S i)%nat with (S (tick w) + i)%nat by lia.
Qed.

(** X10.  [RefreshAllTokens] asks the quota endpoint once for every
    token, in the order of the pool, and leaves the pointer and the token
    strings as they are.  A token for which the endpoint fails, or
    answers without a core rate, stays as it was; otherwise it takes the
    reported snapshot, and it becomes available when more than 10 calls
    are reported.  No token is made unavailable. *)
Theorem RefreshAllTokens_refreshes env p w p' w' :
  RefreshAllTokens env p w = (p', w') ->
  currentIndex p' = currentIndex p
  /\ db w' = db w
  /\ trace w' = trace w ++ ((fun t => EvRateLimitGet (Token t)) <$> tokens p)
  /\ Token <$> tokens p' = Token <$> tokens p
  /\ forall i t,
       tokens p !! i = Some t ->
       exists t',
         tokens p' !! i = Some t'
         /\ (IsAvailable t = true -> IsAvailable t' = true)
         /\ match rateLimitGet env (tick w + i) (Token t) with
            | RateLimitOk (Some core) =>
                RateLimit t' = Some core
                /\ (10 < Remaining core -> IsAvailable t' = true)
                /\ (Remaining core <= 10 -> IsAvailable t' = IsAvailable t)
            | _ => t' = t
            end.
Proof.
  unfold RefreshAllTokens.
  destruct (RefreshAll_from env (tokens p) w) as [ts w1] eqn:Hrefresh.
  intros [= <- <-]. split; [done|]. by apply RefreshAll_from_spec.
Qed.

Lemma RefreshAllTokens_refreshes_witness :
  exists p' w',
    RefreshAllTokens Scenario.ample Scenario.allDown Scenario.start = (p', w')
    /\ trace w' = [EvRateLimitGet "ghp_A"; EvRateLimitGet "ghp_B"]
    /\ exists t', tokens p' !! 1%nat = Some t' /\ IsAvailable t' = true.
Proof.
  destruct (RefreshAllTokens Scenario.ample Scenario.allDown Scenario.start)
    as [p' w'] eqn:Hrefresh.
  destruct (RefreshAllTokens_refreshes Scenario.ample Scenario.allDown Scenario.start
              p' w' Hrefresh) as (_ & _ & Htrace & _ & Heach).
  exists p', w'. split; [reflexivity|]. split; [exact Htrace|].
  destruct (Heach 1%nat (Scenario.down "ghp_B") eq_refl)
    as (t' & Hlookup & _ & Hanswer).
  exists t'. split; [exact Hlookup|].
  simpl in Hanswer. destruct Hanswer as (_ & Hup & _). apply Hup. lia.
Defined.

(** *** The earliest reset time *)

Lemma getNextResetTime_from_nonzero nextReset ts :
  (forall t rate, t ∈ ts -> RateLimit t = Some rate -> Reset rate <> 0) ->
  nextReset <> 0 \/ (exists t rate, t ∈ ts /\ RateLimit t = Some rate) ->
  getNextResetTime_from nextReset ts <> 0.
Proof.
  revert nextReset. induction ts as [|t ts IH]; intros nextReset Hnonzero Hsome; simpl.
  { destruct Hsome as [H|(t & rate & Hin & _)]; [done|by apply elem_of_nil in Hin]. }
  assert (forall t1 rate, t1 ∈ ts -> RateLimit t1 = Some rate -> Reset rate <> 0) as Hts.
  { intros t1 rate Hin. apply Hnonzero. by right. }
  destruct (RateLimit t) as [rate|] eqn:Hrate.
  - assert (Reset rate <> 0) as Hr by (apply (Hnonzero t); [by left|done]).
    destruct (IsZero nextReset || Before (Reset rate) nextReset) eqn:Htest.
    + apply IH; [done|by left].
    + apply IH; [done|]. left. unfold IsZero in Htest.
      apply orb_false_iff in Htest as [Hzero _]. by apply Z.eqb_neq.
  - apply IH; [done|].
    destruct Hsome as [H|(t1 & rate & Hin & H1)]; [by left|].
    apply elem_of_cons in Hin as [->|Hin]; [congruence|].
    right. by exists t1, rate.
Qed.

(** X11.  As long as no snapshot has the zero time as its reset time,
    [getNextResetTime] is the earliest reset time of the pool: it is the
    reset time of one of the tokens, and none resets earlier.  A pool
    without any snapshot gives the zero time. *)
Theorem getNextResetTime_earliest p :
  (forall t rate, t ∈ tokens p -> RateLimit t = Some rate -> Reset rate <> 0) ->
  (forall t rate, t ∈ tokens p -> RateLimit t = Some rate ->
     getNextResetTime p <= Reset rate)
  /\ ((exists t rate, t ∈ tokens p /\ RateLimit t = Some rate) ->
      exists t rate,
        t ∈ tokens p /\ RateLimit t = Some rate /\ Reset rate = getNextResetTime p)
  /\ ((forall t, t ∈ tokens p -> RateLimit t = None) -> getNextResetTime p = 0).
Proof.
  intros Hnonzero. unfold getNextResetTime. split; [|split].
  - intros t rate Hin Hrate.
    by apply (getNextResetTime_from_earliest 0 (tokens p) Hnonzero) with t.
  - intros Hsome.
    destruct (getNextResetTime_from_origin 0 (tokens p)) as [Hzero|Hfound]; [|done].
    exfalso. by apply (getNextResetTime_from_nonzero 0 (tokens p) Hnonzero); [right|].
  - intros Hnone.
    destruct (getNextResetTime_from_origin 0 (tokens p))
      as [Hzero|(t & rate & Hin & Hrate & _)]; [done|].
    rewrite (Hnone t Hin) in Hrate. discriminate.
Qed.

Lemma getNextResetTime_earliest_witness :
  getNextResetTime Scenario.allDown <= Scenario.noon - Minute
  /\ exists t rate,
       t ∈ tokens Scenario.allDown /\ RateLimit t = Some rate
       /\ Reset rate = getNextResetTime Scenario.allDown.
Proof.
  assert (forall t rate, t ∈ tokens Scenario.allDown -> RateLimit t = Some rate ->
            Reset rate <> 0) as Hnonzero.
  { intros t rate Hin Hrate.
    apply elem_of_cons in Hin as [->|Hin];
      [injection Hrate as <-; vm_compute; discriminate|].
    apply elem_of_cons in Hin as [->|Hin];
      [injection Hrate as <-; vm_compute; discriminate|].
    by apply elem_of_nil in Hin. }
  destruct (getNextResetTime_earliest Scenario.allDown Hnonzero) as (Hleast & Hfound & _).
  split.
  - apply (Hleast (Scenario.down "ghp_A")
             {| Limit := 5000; Remaining := 0; Reset := Scenario.noon - Minute |});
      [by left|reflexivity].
  - apply Hfound. exists (Scenario.down "ghp_A"). eexists. split; [by left|reflexivity].
Defined.

(** ** The search service: pages and retries *)

Lemma pages_trace_next token query first k :
  (1 <= k)%nat ->
  EvSearchCode token query first :: EvSleep (2 * Second)
    :: pages_trace token query (first + 1) k
  = pages_trace token query first (S k).
Proof. intros Hk. destruct k as [|k]; [lia|done]. Qed.

Lemma SearchCode_pages_shape env left token query keywords results w res w' :
  SearchCode_pages env left token query keywords results w = (res, w') ->
  exists k,
    (1 <= k <= S left)%nat
    /\ trace w' = trace w ++ pages_trace token query (10 - Z.of_nat left) k.
Proof.
  revert results w.
  induction left as [|left IH]; intros results w; cbn [SearchCode_pages];
    destruct (searchCodeApi env _ token query _) as [status msg|items total].
  - destruct (match status with Some code => code =? 403 | None => false end);
      intros [= <- <-]; exists 1%nat; (split; [lia|done]).
  - intros [= <- <-]. exists 1%nat. split; [lia|done].
  - destruct (match status with Some code => code =? 403 | None => false end);
      intros [= <- <-]; exists 1%nat; (split; [lia|done]).
  - destruct (length items =? 0)%nat.
    + intros [= <- <-]. exists 1%nat. split; [lia|done].
    + intros Hrun. apply IH in Hrun as (k & Hk & Htrace).
      exists (S k). split; [lia|].
      rewrite Htrace. cbn [emit trace]. rewrite <- !app_assoc. f_equal.
      rewrite <- pages_trace_next by lia. simpl. do 3 f_equal. lia.
Qed.

(** X12.  The page ceiling.  A search requests the pages 1, 2, ... in
    turn, each with the acquired token and the same query, with a pause
    of 2 s between two requests and nothing else in between, and never
    more than 10 pages. *)
Theorem SearchCode_page_ceiling env opts p w res p' w' tokenInfo w1 :
  SearchCode env opts p w = (res, p', w') ->
  GetClient env p w = (inr tokenInfo, p', w1) ->
  exists t k,
    tokens p' !! tokenInfo = Some t
    /\ (1 <= k <= 10)%nat
    /\ trace w' = trace w1 ++ pages_trace (Token t) (buildQuery opts) 1 k.
Proof.
  unfold SearchCode. intros Hsearch Hget. rewrite Hget in Hsearch.
  pose proof (GetClient_inr env p w tokenInfo p' w1 Hget)
    as (_ & _ & t & evs0 & Hlookup & _).
  rewrite Hlookup in Hsearch.
  destruct (SearchCode_pages env 9 (Token t) (buildQuery opts) (Keywords opts) [] w1)
    as [res1 w2] eqn:Hpages.
  injection Hsearch as <- <-.
  apply SearchCode_pages_shape in Hpages as (k & Hk & Htrace).
  exists t, k. split; [done|]. split; [lia|done].
Qed.

Lemma SearchCode_page_ceiling_witness :
  exists res p' w' w1,
    SearchCode Scenario.twoPages Scenario.passwordOpts Scenario.twoTokens Scenario.start
    = (res, p', w')
    /\ exists t k,
         tokens p' !! 0%nat = Some t
         /\ (1 <= k <= 10)%nat
         /\ trace w' = trace w1
              ++ pages_trace (Token t) (buildQuery Scenario.passwordOpts) 1 k.
Proof.
  destruct (SearchCode Scenario.twoPages Scenario.passwordOpts Scenario.twoTokens
              Scenario.start) as [[res p'] w'] eqn:Hsearch.
  destruct (GetClient Scenario.twoPages Scenario.twoTokens Scenario.start)
    as [[client p1] w1] eqn:Hget.
  assert (client = inr 0%nat /\ p1 = p') as [-> ->].
  { vm_compute in Hget, Hsearch.
    injection Hget as <- <- _. by injection Hsearch as _ <- _. }
  exists res, p', w', w1. split; [reflexivity|].
  exact (SearchCode_page_ceiling _ _ _ _ _ _ _ _ _ Hsearch Hget).
Defined.

Lemma SearchCode_pages_full env left token query keywords results w :
  (forall n page, exists items total,
      searchCodeApi env n token query page = SearchOk items total /\ items <> []) ->
  exists results' w',
    SearchCode_pages env left token query keywords results w = (inr results', w')
    /\ trace w' = trace w ++ pages_trace token query (10 - Z.of_nat left) (S left).
Proof.
  intros Hfull. revert results w.
  induction left as [|left IH]; intros results w; cbn [SearchCode_pages].
  - destruct (Hfull (tick w) (10 - Z.of_nat 0)) as (items & total & Hanswer & Hitems).
    rewrite Hanswer. by eexists _, _.
  - destruct (Hfull (tick w) (10 - Z.of_nat (S left)))
      as (items' & total' & Hanswer' & Hitems').
    rewrite Hanswer'.
    replace (length items' =? 0)%nat with false
      by (symmetry; apply Nat.eqb_neq; by destruct items').
    match goal with
    | |- context [SearchCode_pages env left token query keywords ?r ?w2] =>
        destruct (IH r w2) as (results' & w' & -> & Htrace)
    end.
    exists results', w'. split; [done|].
    rewrite Htrace. cbn [emit trace]. rewrite <- !app_assoc. f_equal.
    replace (10 - Z.of_nat left) with (10 - Z.of_nat (S left) + 1) by lia.
    cbn [app]. apply pages_trace_next. lia.
Qed.

(** X13.  When the search endpoint answers every request with a page
    that is not empty, the search stops all the same after page 10: it
    succeeds having made exactly ten requests. *)
Theorem SearchCode_stops_at_page_10 env opts p w tokenInfo p1 w1 t :
  GetClient env p w = (inr tokenInfo, p1, w1) ->
  tokens p1 !! tokenInfo = Some t ->
  (forall n page, exists items total,
      searchCodeApi env n (Token t) (buildQuery opts) page = SearchOk items total
      /\ items <> []) ->
  exists results w',
    SearchCode env opts p w = (inr results, p1, w')
    /\ trace w' = trace w1 ++ pages_trace (Token t) (buildQuery opts) 1 10.
Proof.
  intros Hget Hlookup Hfull. unfold SearchCode. rewrite Hget, Hlookup.
  destruct (SearchCode_pages_full env 9 (Token t) (buildQuery opts) (Keywords opts)
              [] w1 Hfull) as (results & w' & -> & Htrace).
  by exists results, w'.
Qed.

Lemma SearchCode_stops_at_page_10_witness :
  exists results p1 w',
    SearchCode Scenario.endless Scenario.passwordOpts Scenario.twoTokens Scenario.start
    = (inr results, p1, w')
    /\ trace w' = EvRateLimitGet "ghp_A" :: pages_trace "ghp_A" "password" 1 10.
Proof.
  edestruct (SearchCode_stops_at_page_10 Scenario.endless Scenario.passwordOpts
               Scenario.twoTokens Scenario.start) as (results & w' & Hsearch & Htrace).
  - vm_compute. reflexivity.
  - reflexivity.
  - intros n page. eexists _, _. split; [reflexivity|discriminate].
  - eexists _, _, _. split; [exact Hsearch|exact Htrace].
Defined.

Section RetryOnDeadPool.

Context (env : Env) (opts : SearchOptions).

Lemma cycle_verdict_no_panic p w : isPanic (cycle_verdict env p w) = false.
Proof. unfold cycle_verdict. cbv zeta. by destruct (_ && _). Qed.

Lemma SearchCode_dead p w :
  wf_pool p ->
  Forall (fun t => IsAvailable t = false) (tokens p) ->
  SearchCode env opts p w
  = (inl (ErrWrap "failed to get client" (cycle_verdict env p w)), p, w).
Proof.
  intros Hwf Hdead. unfold SearchCode.
  by rewrite (GetClient_dead env p w Hwf Hdead), cycle_verdict_no_panic.
Qed.

Lemma SearchWithRetry_loop_dead remaining i lastErr p w :
  wf_pool p ->
  Forall (fun t => IsAvailable t = false) (tokens p) ->
  exists err w',
    SearchWithRetry_loop env remaining i lastErr opts p w = (inl err, p, w')
    /\ db w' = db w
    /\ exists evs,
         trace w' = trace w ++ evs /\ Forall is_sleep evs
         /\ (length evs <= remaining)%nat.
Proof.
  intros Hwf Hdead. revert i lastErr w.
  induction remaining as [|remaining IH]; intros i lastErr w; cbn [SearchWithRetry_loop].
  - eexists _, w. split; [done|]. split; [done|].
    exists []. rewrite app_nil_r. by repeat split.
  - rewrite (SearchCode_dead p w Hwf Hdead). cbn [isPanic].
    destruct (Strings.Contains _ "rate limit").
    + destruct (IH (i + 1) (Some (ErrWrap "failed to get client" (cycle_verdict env p w)))
                  (emit (EvSleep (retryDelay i)) w))
        as (err & w' & -> & Hdb & evs & Htrace & Hsleeps & Hlen).
      exists err, w'. split; [done|]. split; [done|].
      exists (EvSleep (retryDelay i) :: evs). split.
      * rewrite Htrace. simpl. by rewrite <- app_assoc.
      * split; [by apply Forall_cons|simpl; lia].
    + eexists _, w. split; [done|]. split; [done|].
      exists []. rewrite app_nil_r. split; [done|]. split; [done|simpl; lia].
Qed.

End RetryOnDeadPool.

(** X14.  On a dead pool a search with retries reaches neither the quota
    endpoint nor the search endpoint: it fails, with the pool and the
    database as they were, after at most [maxRetries] pauses and nothing
    else. *)
Theorem SearchWithRetry_on_dead_pool env opts maxRetries p w :
  wf_pool p ->
  Forall (fun t => IsAvailable t = false) (tokens p) ->
  exists err w',
    SearchWithRetry env opts maxRetries p w = (inl err, p, w')
    /\ db w' = db w
    /\ exists evs,
         trace w' = trace w ++ evs /\ Forall is_sleep evs
         /\ (length evs <= Z.to_nat maxRetries)%nat.
Proof. intros Hwf Hdead. by apply SearchWithRetry_loop_dead. Qed.

Lemma SearchWithRetry_on_dead_pool_witness :
  exists err w',
    SearchWithRetry Scenario.ample Scenario.passwordOpts 3 Scenario.allDown Scenario.start
    = (inl err, Scenario.allDown, w')
    /\ exists evs, trace w' = trace Scenario.start ++ evs /\ Forall is_sleep evs.
Proof.
  destruct (SearchWithRetry_on_dead_pool Scenario.ample Scenario.passwordOpts 3
              Scenario.allDown Scenario.start)
    as (err & w' & Hrun & _ & evs & Htrace & Hsleeps & _).
  - unfold wf_pool. simpl. lia.
  - repeat constructor.
  - exists err, w'. split; [exact Hrun|]. by exists evs.
Defined.

(** X15.  When the pool has no usable token and no reset is near, the
    failure of [GetClient] is not taken for a rate limit: a search with
    retries gives up on its first attempt, without a pause and without a
    request, with the error "failed to get client: no available tokens". *)
Theorem SearchWithRetry_gives_up_without_tokens env opts maxRetries p w p' w' :
  0 < maxRetries ->
  GetClient env p w = (inl ErrNoAvailableTokens, p', w') ->
  SearchWithRetry env opts maxRetries p w
  = (inl (ErrWrap "failed to get client" ErrNoAvailableTokens), p', w').
Proof.
  intros Hmax Hget. unfold SearchWithRetry.
  destruct (Z.to_nat maxRetries) as [|remaining] eqn:Hn; [lia|].
  cbn [SearchWithRetry_loop]. unfold SearchCode. by rewrite Hget.
Qed.

Lemma SearchWithRetry_gives_up_without_tokens_witness :
  exists p' w',
    SearchWithRetry Scenario.drained Scenario.passwordOpts 3 Scenario.twoTokens
      Scenario.start
    = (inl (ErrWrap "failed to get client" ErrNoAvailableTokens), p', w')
    /\ trace w' = [EvRateLimitGet "ghp_A"; EvRateLimitGet "ghp_B"].
Proof.
  eexists _, _. split.
  - apply (SearchWithRetry_gives_up_without_tokens Scenario.drained
             Scenario.passwordOpts 3 Scenario.twoTokens Scenario.start).
    + lia.
    + vm_compute. reflexivity.
  - reflexivity.
Defined.

(** ** Strings, again *)

Lemma append_nil_r (s : string) : s +:+ "" = s.
Proof.
  induction s as [|c s IH]; [done|].
  change (String c (s +:+ "") = String c s). by f_equal.
Qed.

Lemma append_assoc (s t u : string) : (s +:+ t) +:+ u = s +:+ (t +:+ u).
Proof.
  induction s as [|c s IH]; [done|].
  change (String c ((s +:+ t) +:+ u) = String c (s +:+ (t +:+ u))). by f_equal.
Qed.

Lemma length_append (s t : string) :
  String.length (s +:+ t) = (String.length s + String.length t)%nat.
Proof.
  induction s as [|c s IH]; [done|].
  change (S (String.length (s +:+ t)) = S (String.length s + String.length t)).
  by f_equal.
Qed.

Lemma HasPrefix_nil (s : string) : Strings.HasPrefix s "" = true.
Proof. by destruct s. Qed.

Lemma Contains_slash_cons c (s : string) :
  Strings.Contains (String c s) "/" = Ascii.eqb c "/" || Strings.Contains s "/".
Proof.
  rewrite Contains_cons. cbn [Strings.HasPrefix].
  rewrite HasPrefix_nil, Ascii.eqb_sym.
  by destruct (Ascii.eqb c "/").
Qed.

(** ** Building the query: the excluded extensions *)

(** X16.  In the query an empty excluded extension gives no clause, and
    an extension written with its leading dot gives the clause of the
    extension written without it. *)
Theorem buildQuery_extensions keywords matchType language sort order exts1 exts2 :
  buildQuery {| Keywords := keywords; MatchType := matchType;
                ExcludeExts := exts1 ++ EmptyString :: exts2;
                Language := language; Sort := sort; Order := order |}
  = buildQuery {| Keywords := keywords; MatchType := matchType;
                  ExcludeExts := exts1 ++ exts2;
                  Language := language; Sort := sort; Order := order |}
  /\ forall ext,
       Strings.nonEmpty ext = true ->
       Strings.HasPrefix ext "." = false ->
       buildQuery {| Keywords := keywords; MatchType := matchType;
                     ExcludeExts := exts1 ++ ("." +:+ ext) :: exts2;
                     Language := language; Sort := sort; Order := order |}
       = buildQuery {| Keywords := keywords; MatchType := matchType;
                       ExcludeExts := exts1 ++ ext :: exts2;
                       Language := language; Sort := sort; Order := order |}.
Proof.
  unfold buildQuery; cbn [Keywords MatchType ExcludeExts Language]. split.
  - by rewrite !fold_left_app.
  - intros ext Hext Hdot. rewrite !fold_left_app. cbn [fold_left].
    change ("." +:+ ext) with (String "." ext).
    assert (Strings.TrimPrefix (String "." ext) "." = Strings.TrimPrefix ext ".") as ->.
    { unfold Strings.TrimPrefix. rewrite Hdot.
      cbn [Strings.HasPrefix]. rewrite Ascii.eqb_refl, HasPrefix_nil. done. }
    cbn [Strings.nonEmpty]. by rewrite Hext.
Qed.

Lemma buildQuery_extensions_witness :
  buildQuery {| Keywords := ["password"]; MatchType := "fuzzy";
                ExcludeExts := ["md"; ".lock"; "txt"];
                Language := ""; Sort := "indexed"; Order := "desc" |}
  = buildQuery {| Keywords := ["password"]; MatchType := "fuzzy";
                  ExcludeExts := ["md"; "lock"; "txt"];
                  Language := ""; Sort := "indexed"; Order := "desc" |}.
Proof.
  destruct (buildQuery_extensions ["password"] "fuzzy" "" "indexed" "desc"
              ["md"] ["txt"]) as [_ Hdot].
  apply (Hdot "lock"); reflexivity.
Defined.

(** ** The whitelist *)

Lemma splitRepoName_from_slash before owner rest :
  Strings.Contains owner "/" = false ->
  splitRepoName_from before (owner +:+ "/" +:+ rest) = [before +:+ owner; rest].
Proof.
  revert before. induction owner as [|c owner IH]; intros before Hfree.
  - by rewrite append_nil_r.
  - rewrite Contains_slash_cons in Hfree. apply orb_false_iff in Hfree as [Hc Hfree].
    change (String c owner +:+ "/" +:+ rest) with (String c (owner +:+ "/" +:+ rest)).
    cbn [splitRepoName_from]. rewrite Hc, (IH _ Hfree), append_assoc. done.
Qed.

Lemma splitRepoName_from_none before s :
  Strings.Contains s "/" = false -> splitRepoName_from before s = [].
Proof.
  revert before. induction s as [|c s IH]; intros before Hfree; [done|].
  rewrite Contains_slash_cons in Hfree. apply orb_false_iff in Hfree as [Hc Hfree].
  cbn [splitRepoName_from]. rewrite Hc. by apply IH.
Qed.

Lemma first_slash s :
  Strings.Contains s "/" = false
  \/ exists owner rest,
       s = owner +:+ "/" +:+ rest /\ Strings.Contains owner "/" = false.
Proof.
  induction s as [|c s IH]; [by left|].
  rewrite Contains_slash_cons.
  destruct (Ascii.eqb c "/") eqn:Hc.
  - right. apply Ascii.eqb_eq in Hc as ->. by exists EmptyString, s.
  - destruct IH as [Hfree|(owner & rest & -> & Hfree)]; [by left|].
    right. exists (String c owner), rest. split; [done|].
    by rewrite Contains_slash_cons, Hc.
Qed.

Lemma splitRepoName_parts fullName :
  (Strings.Contains fullName "/" = false /\ splitRepoName fullName = [])
  \/ exists owner rest,
       splitRepoName fullName = [owner; rest]
       /\ fullName = owner +:+ "/" +:+ rest
       /\ Strings.Contains owner "/" = false.
Proof.
  unfold splitRepoName.
  destruct (first_slash fullName) as [Hfree|(owner & rest & -> & Hfree)].
  - left. split; [done|]. by apply splitRepoName_from_none.
  - right. exists owner, rest. split; [|done].
    by rewrite splitRepoName_from_slash.
Qed.

(** X17.  [splitRepoName] cuts a name at its first slash: what stands
    before it and what stands after it, which put together again with a
    slash give the name back; a name without a slash gives no parts. *)
Theorem splitRepoName_first_slash fullName :
  (Strings.Contains fullName "/" = false /\ splitRepoName fullName = [])
  \/ exists owner rest,
       splitRepoName fullName = [owner; rest]
       /\ fullName = owner +:+ "/" +:+ rest
       /\ Strings.Contains owner "/" = false.
Proof. apply splitRepoName_parts. Qed.

Lemma whitelist_user_check fullName value :
  (0 <? String.length fullName)%nat
  && match splitRepoName fullName with
     | part :: _ => String.eqb part value
     | [] => false
     end = true
  <-> Strings.Contains value "/" = false
      /\ exists rest, fullName = value +:+ "/" +:+ rest.
Proof.
  split.
  - intros [_ Hsplit]%andb_true_iff.
    destruct (splitRepoName_parts fullName)
      as [[_ Hnone]|(owner & rest & Hparts & -> & Hfree)].
    + by rewrite Hnone in Hsplit.
    + rewrite Hparts in Hsplit. apply String.eqb_eq in Hsplit as <-.
      split; [done|by exists rest].
  - intros (Hfree & rest & ->). apply andb_true_iff. split.
    + rewrite length_append. apply Nat.ltb_lt.
      rewrite length_append. simpl. lia.
    + unfold splitRepoName. rewrite splitRepoName_from_slash by done.
      simpl. apply String.eqb_refl.
Qed.

(** X18.  A result is whitelisted exactly when some entry covers its
    repository: an entry of type [repo] whose value is the full name, or
    an entry of type [user] whose value is what stands before the first
    slash of the full name. *)
Theorem isWhitelisted_spec result whitelist :
  isWhitelisted result whitelist = true
  <-> exists entry,
        entry ∈ whitelist /\ whitelist_match entry (RepoFullName result).
Proof.
  induction whitelist as [|entry rest IH]; simpl.
  { split; [done|]. by intros (entry & Hin%elem_of_nil & _). }
  assert (String.eqb (wl_Type entry) "repo"
          && String.eqb (RepoFullName result) (wl_Value entry) = true
          \/ String.eqb (wl_Type entry) "user"
             && (0 <? String.length (RepoFullName result))%nat
             && match splitRepoName (RepoFullName result) with
                | part :: _ => String.eqb part (wl_Value entry)
                | [] => false
                end = true
          <-> whitelist_match entry (RepoFullName result)) as Hentry.
  { unfold whitelist_match.
    rewrite andb_true_iff, !String.eqb_eq, <- andb_assoc, andb_true_iff,
      String.eqb_eq, whitelist_user_check. done. }
  destruct (String.eqb (wl_Type entry) "repo"
            && String.eqb (RepoFullName result) (wl_Value entry)) eqn:Hrepo.
  { split; [|done]. intros _. exists entry. split; [by left|].
    apply Hentry. by left. }
  destruct (String.eqb (wl_Type entry) "user"
            && (0 <? String.length (RepoFullName result))%nat
            && match splitRepoName (RepoFullName result) with
               | part :: _ => String.eqb part (wl_Value entry)
               | [] => false
               end) eqn:Huser.
  { split; [|done]. intros _. exists entry. split; [by left|].
    apply Hentry. by right. }
  rewrite IH. split.
  - intros (e & Hin & Hmatch). exists e. split; [by right|done].
  - intros (e & Hin & Hmatch).
    apply elem_of_cons in Hin as [->|Hin]; [|by exists e].
    apply Hentry in Hmatch as [H|H]; discriminate.
Qed.

Lemma isWhitelisted_spec_witness :
  isWhitelisted (Scenario.candidate "octo/secrets" "deploy/config.yml")
    [ {| wl_Type := "user"; wl_Value := "octo" |} ] = true
  /\ isWhitelisted (Scenario.candidate "octocat/other" "deploy/config.yml")
       [ {| wl_Type := "user"; wl_Value := "octo" |} ] = false.
Proof.
  split.
  - apply (isWhitelisted_spec (Scenario.candidate "octo/secrets" "deploy/config.yml")).
    exists {| wl_Type := "user"; wl_Value := "octo" |}. split; [by left|].
    right. split; [reflexivity|]. split; [reflexivity|]. by exists "secrets".
  - reflexivity.
Defined.

(** X19.  [filterWhitelist] reads the whitelist once and keeps, in their
    order, the results that no entry covers; with an empty whitelist that
    is all of them.  When the whitelist cannot be read the results come
    back unfiltered.  The database is not written. *)
Theorem filterWhitelist_spec env results w filtered w' :
  filterWhitelist env results w = (filtered, w') ->
  db w' = db w
  /\ trace w' = trace w ++ [EvDB "SELECT * FROM whitelists"]
  /\ filtered `sublist_of` results
  /\ match dbFault env (tick w) with
     | Some _ => filtered = results
     | None =>
         forall result,
           result ∈ filtered
           <-> result ∈ results
               /\ ~ exists entry,
                      entry ∈ whitelists (db w)
                      /\ whitelist_match entry (RepoFullName result)
     end.
Proof.
  unfold filterWhitelist, dbExec.
  destruct (dbFault env (tick w)) as [msg|].
  { intros [= <- <-]. by repeat split. }
  cbn [db emit].
  assert (forall result,
            isWhitelisted result (whitelists (db w)) = false
            <-> ~ exists entry,
                    entry ∈ whitelists (db w)
                    /\ whitelist_match entry (RepoFullName result)) as Hspec.
  { intros result. rewrite <- isWhitelisted_spec.
    by destruct (isWhitelisted result (whitelists (db w))). }
  destruct (length (whitelists (db w)) =? 0)%nat eqn:Hempty; intros [= <- <-].
  - split; [done|]. split; [done|]. split; [done|].
    intros result. split; [|by intros [H _]].
    intros Hin. split; [done|]. intros (entry & Hentry & _).
    apply Nat.eqb_eq in Hempty. destruct (whitelists (db w)); [|done].
    by apply elem_of_nil in Hentry.
  - split; [done|]. split; [done|]. split; [apply sublist_filter|].
    intros result. rewrite list_elem_of_filter, Hspec. tauto.
Qed.

Lemma filterWhitelist_spec_witness :
  exists filtered w',
    filterWhitelist Scenario.ample Scenario.candidates Scenario.start = (filtered, w')
    /\ filtered = Scenario.candidates
    /\ db w' = db Scenario.start.
Proof.
  destruct (filterWhitelist Scenario.ample Scenario.candidates Scenario.start)
    as [filtered w'] eqn:Hfilter.
  destruct (filterWhitelist_spec Scenario.ample Scenario.candidates Scenario.start
              filtered w' Hfilter) as (Hdb & _ & _ & _).
  exists filtered, w'. split; [reflexivity|]. split; [|exact Hdb].
  vm_compute in Hfilter. by injection Hfilter as <- _.
Defined.

(** ** Normalising a hit *)

(** X20.  The snippet of a hit is its first fragment when that has at
    most 500 bytes, and otherwise the first 500 bytes of it followed by
    three dots; it never has more than 503 bytes, and a hit without
    fragments has the empty snippet. *)
Theorem extractSnippet_bounded result :
  (String.length (extractSnippet result) <= 503)%nat
  /\ match TextMatches result with
     | [] => extractSnippet result = EmptyString
     | m :: _ =>
         let fragment := GetString (Fragment m) in
         if (String.length fragment <=? 500)%nat
         then extractSnippet result = fragment
         else extractSnippet result = Strings.take 500 fragment +:+ "..."
              /\ String.length (extractSnippet result) = 503%nat
     end.
Proof.
  unfold extractSnippet. destruct (TextMatches result) as [|m rest].
  { split; [simpl; lia|done]. }
  cbv zeta.
  destruct (500 <? String.length (GetString (Fragment m)))%nat eqn:Hlong.
  - apply Nat.ltb_lt in Hlong.
    replace (String.length (GetString (Fragment m)) <=? 500)%nat with false
      by (symmetry; apply Nat.leb_gt; lia).
    assert (String.length (Strings.take 500 (GetString (Fragment m)) +:+ "...")
            = 503%nat) as Hlen.
    { rewrite length_append.
      assert (String.length (Strings.take 500 (GetString (Fragment m))) = 500%nat)
        as ->; [|done].
      generalize dependent (GetString (Fragment m)). generalize 500%nat.
      induction n as [|n IH]; intros [|c s] Hlen; simpl in *; try lia.
      rewrite IH; [done|lia]. }
    split; [lia|done].
  - apply Nat.ltb_ge in Hlong.
    replace (String.length (GetString (Fragment m)) <=? 500)%nat with true
      by (symmetry; apply Nat.leb_le; lia).
    split; [lia|done].
Qed.

(** X21.  The matched keywords of a hit are keywords of the rule, in
    their order and none of them empty; and a keyword that is not empty
    and occurs, in lower case, in the lower-cased name and path of the
    file is among them, whatever the fragments hold. *)
Theorem findMatchedKeywords_spec env result keywords :
  findMatchedKeywords env result keywords `sublist_of` keywords
  /\ (forall keyword,
        keyword ∈ findMatchedKeywords env result keywords ->
        keyword ∈ keywords /\ keyword <> EmptyString)
  /\ (forall keyword,
        keyword ∈ keywords ->
        keyword <> EmptyString ->
        Strings.Contains
          (ToLower env (GetString (Name result) +:+ " " +:+ GetString (Path result)))
          (ToLower env keyword) = true ->
        keyword ∈ findMatchedKeywords env result keywords).
Proof.
  unfold findMatchedKeywords. split; [apply sublist_filter|]. split.
  - intros keyword [Hmatch Hin]%list_elem_of_filter. split; [done|].
    intros ->. by simpl in Hmatch.
  - intros keyword Hin Hnonempty Hpath. apply list_elem_of_filter. split; [|done].
    apply andb_true_iff. split; [by destruct keyword|].
    generalize dependent (ToLower env (GetString (Name result) +:+ " "
                                         +:+ GetString (Path result))).
    induction (TextMatches result) as [|m rest IH]; intros content Hcontent; [done|].
    cbn [fold_left]. apply IH.
    by apply Contains_app_l.
Qed.

Lemma findMatchedKeywords_spec_witness :
  "config" ∈ findMatchedKeywords Scenario.ample Scenario.leak ["password"; ""; "config"].
Proof.
  destruct (findMatchedKeywords_spec Scenario.ample Scenario.leak
              ["password"; ""; "config"]) as (_ & _ & Hpath).
  apply Hpath.
  - right. right. by left.
  - discriminate.
  - vm_compute. reflexivity.
Defined.

(** ** Saving results, whatever the database does *)

Lemma saveResults_from_any env newCount ruleID results w newCount' w' :
  saveResults_from env newCount ruleID results w = (newCount', w') ->
  exists added,
    search_results (db w') = search_results (db w) ++ added
    /\ newCount' = newCount + Z.of_nat (length added)
    /\ (length added <= length results)%nat
    /\ Forall (fun row => exists c, c ∈ results /\ row = newResult env ruleID c) added
    /\ monitor_rules (db w') = monitor_rules (db w)
    /\ whitelists (db w') = whitelists (db w)
    /\ scan_histories (db w') = scan_histories (db w).
Proof.
  revert newCount w.
  induction results as [|c rest IH]; intros newCount w; cbn [saveResults_from].
  { intros [= <- <-]. exists []. rewrite app_nil_r. simpl.
    repeat (split; [done || lia|]). done. }
  assert (forall n w1,
            search_results (db w1) = search_results (db w) ->
            monitor_rules (db w1) = monitor_rules (db w) ->
            whitelists (db w1) = whitelists (db w) ->
            scan_histories (db w1) = scan_histories (db w) ->
            n = newCount ->
            saveResults_from env n ruleID rest w1 = (newCount', w') ->
            exists added,
              search_results (db w') = search_results (db w) ++ added
              /\ newCount' = newCount + Z.of_nat (length added)
              /\ (length added <= length (c :: rest))%nat
              /\ Forall (fun row => exists c0, c0 ∈ c :: rest
                                    /\ row = newResult env ruleID c0) added
              /\ monitor_rules (db w') = monitor_rules (db w)
              /\ whitelists (db w') = whitelists (db w)
              /\ scan_histories (db w') = scan_histories (db w)) as Hskip.
  { intros n w1 H1 H2 H3 H4 -> Hrun.
    apply IH in Hrun as (added & Hrows & Hcount & Hlen & Hall & H5 & H6 & H7).
    exists added. split; [congruence|]. split; [done|]. split; [simpl; lia|].
    split; [|repeat split; congruence].
    eapply Forall_impl; [exact Hall|]. intros row (c0 & Hc0 & ->).
    exists c0. split; [by right|done]. }
  unfold dbFirstResult, dbCreateResult, dbExec.
  assert (forall w1,
            search_results (db w1) = search_results (db w) ->
            monitor_rules (db w1) = monitor_rules (db w) ->
            whitelists (db w1) = whitelists (db w) ->
            scan_histories (db w1) = scan_histories (db w) ->
            (let '(created, w2) :=
               let '(err, w2) := (dbFault env (tick w1), emit (EvDB "INSERT INTO search_results") w1) in
               match err with
               | Some _ => (false, w2)
               | None =>
                   (true,
                    setDB {| monitor_rules := monitor_rules (db w2);
                             search_results := search_results (db w2)
                                               ++ [newResult env ruleID c];
                             whitelists := whitelists (db w2);
                             scan_histories := scan_histories (db w2) |} w2)
               end in
             if created then saveResults_from env (newCount + 1) ruleID rest w2
             else saveResults_from env newCount ruleID rest w2) = (newCount', w') ->
            exists added,
              search_results (db w') = search_results (db w) ++ added
              /\ newCount' = newCount + Z.of_nat (length added)
              /\ (length added <= length (c :: rest))%nat
              /\ Forall (fun row => exists c0, c0 ∈ c :: rest
                                    /\ row = newResult env ruleID c0) added
              /\ monitor_rules (db w') = monitor_rules (db w)
              /\ whitelists (db w') = whitelists (db w)
              /\ scan_histories (db w') = scan_histories (db w)) as Hcreate.
  { intros w1 H1 H2 H3 H4. destruct (dbFault env (tick w1)).
    - by apply Hskip.
    - intros Hrun. unfold setDB in Hrun. cbn [db emit trace] in Hrun.
      apply IH in Hrun as (added & Hrows & Hcount & Hlen & Hall & H5 & H6 & H7).
      cbn [db search_results monitor_rules whitelists scan_histories] in *.
      exists (newResult env ruleID c :: added).
      split; [rewrite Hrows, H1; by rewrite <- app_assoc|].
      split; [simpl length; lia|]. split; [simpl; lia|].
      split; [|repeat split; congruence].
      apply Forall_cons. split; [exists c; split; [by left|done]|].
      eapply Forall_impl; [exact Hall|]. intros row (c0 & Hc0 & ->).
      exists c0. split; [by right|done]. }
  destruct (dbFault env (tick w)).
  - by apply Hcreate.
  - destruct (List.find _ _); [by apply Hskip|by apply Hcreate].
Qed.

(** X22.  Whatever the database does, [saveResults] only adds rows, at
    the end of the table: the rows that were there stay as they were, each
    added row is the row of one of the candidates (with the rule's id and
    the status "pending"), the number returned is the number of rows
    added, at most one per candidate, and the other tables are left
    alone. *)
Theorem saveResults_only_adds env ruleID results w newCount w' :
  saveResults env ruleID results w = (newCount, w') ->
  exists added,
    search_results (db w') = search_results (db w) ++ added
    /\ newCount = Z.of_nat (length added)
    /\ (length added <= length results)%nat
    /\ Forall (fun row =>
                 sr_RuleID row = ruleID /\ sr_Status row = "pending"
                 /\ exists c, c ∈ results /\ row = newResult env ruleID c) added
    /\ monitor_rules (db w') = monitor_rules (db w)
    /\ whitelists (db w') = whitelists (db w)
    /\ scan_histories (db w') = scan_histories (db w).
Proof.
  intros Hrun.
  apply saveResults_from_any in Hrun as (added & H1 & H2 & H3 & H4 & H5).
  exists added. split; [done|]. split; [lia|]. split; [done|]. split; [|done].
  eapply Forall_impl; [exact H4|]. intros row (c & Hc & ->).
  split; [done|]. split; [done|]. by exists c.
Qed.

Lemma saveResults_only_adds_witness :
  exists newCount w' added,
    saveResults Scenario.hiccup 1 Scenario.candidates Scenario.oneStored = (newCount, w')
    /\ search_results (db w') = search_results (db Scenario.oneStored) ++ added
    /\ newCount = Z.of_nat (length added).
Proof.
  destruct (saveResults Scenario.hiccup 1 Scenario.candidates Scenario.oneStored)
    as [newCount w'] eqn:Hrun.
  destruct (saveResults_only_adds Scenario.hiccup 1 Scenario.candidates
              Scenario.oneStored newCount w' Hrun) as (added & H1 & H2 & _).
  by exists newCount, w', added.
Defined.

Lemma find_sameKey_None ruleID repoFullName filePath rows :
  List.find (sameKey ruleID repoFullName filePath) rows = None ->
  (ruleID, repoFullName, filePath) ∉ rowKey <$> rows.
Proof.
  induction rows as [|row rows IH]; cbn [List.find];
    [intros _; apply not_elem_of_nil|].
  destruct (sameKey ruleID repoFullName filePath row) eqn:Hkey; [done|].
  intros Hfind. rewrite fmap_cons. apply not_elem_of_cons. split; [|by apply IH].
  intros Heq. unfold rowKey in Heq. unfold sameKey in Hkey.
  injection Heq as H1 H2 H3. rewrite <- H1, <- H2, <- H3 in Hkey.
  by rewrite N.eqb_refl, !String.eqb_refl in Hkey.
Qed.

Lemma saveResults_from_unique env newCount ruleID results w :
  (forall m, dbFault env m = None) ->
  NoDup (rowKey <$> search_results (db w)) ->
  NoDup (rowKey <$> search_results (db (snd (saveResults_from env newCount ruleID results w)))).
Proof.
  intros Hreliable. revert newCount w.
  induction results as [|c rest IH]; intros newCount w Hunique; [done|].
  cbn [saveResults_from]. unfold dbFirstResult, dbCreateResult, dbExec.
  rewrite !Hreliable. cbn [db emit].
  destruct (List.find _ _) as [row|] eqn:Hfind.
  - by apply IH.
  - rewrite ?Hreliable. apply IH. unfold setDB. cbn [db search_results emit].
    rewrite fmap_app. apply NoDup_app. split; [done|]. split.
    + intros key Hin [->|Hnil%elem_of_nil]%elem_of_cons; [|done].
      by apply find_sameKey_None in Hfind.
    + apply NoDup_singleton.
Qed.

(** X23.  With a database that answers, [saveResults] keeps the key
    (rule id, repository full name, file path) unique: a table in which
    no two rows have the same key is still such a table afterwards. *)
Theorem saveResults_keeps_keys_unique env ruleID results w :
  (forall m, dbFault env m = None) ->
  NoDup (rowKey <$> search_results (db w)) ->
  NoDup (rowKey <$> search_results (db (snd (saveResults env ruleID results w)))).
Proof. apply saveResults_from_unique. Qed.

Lemma saveResults_keeps_keys_unique_witness :
  NoDup (rowKey <$> search_results
           (db (snd (saveResults Scenario.ample 1 Scenario.candidates Scenario.oneStored)))).
Proof.
  apply (saveResults_keeps_keys_unique Scenario.ample 1 Scenario.candidates
           Scenario.oneStored).
  - reflexivity.
  - simpl. apply NoDup_singleton.
Defined.

(** X24.  A failed look-up counts as "not there".  When the statement
    that looks a candidate up fails and the insertion that follows does
    not, the candidate is inserted and counted, whether or not a row with
    its key is in the table already. *)
Theorem saveResults_inserts_on_failed_lookup env ruleID c w msg :
  dbFault env (tick w) = Some msg ->
  dbFault env (S (tick w)) = None ->
  exists w',
    saveResults env ruleID [c] w = (1, w')
    /\ search_results (db w') = search_results (db w) ++ [newResult env ruleID c].
Proof.
  intros Hlookup Hinsert. unfold saveResults. cbn [saveResults_from].
  unfold dbFirstResult, dbCreateResult, dbExec.
  rewrite Hlookup, tick_emit, Hinsert. by eexists.
Qed.

Lemma saveResults_inserts_on_failed_lookup_witness :
  exists w',
    saveResults Scenario.hiccup 1 [Scenario.candidate "octo/site" ".env"]
      Scenario.oneStored = (1, w')
    /\ map rowKey (search_results (db w'))
       = [(1%N, "octo/site", ".env"); (1%N, "octo/site", ".env")].
Proof.
  destruct (saveResults_inserts_on_failed_lookup Scenario.hiccup 1
              (Scenario.candidate "octo/site" ".env") Scenario.oneStored
              "connection reset") as (w' & Hrun & Hrows).
  - reflexivity.
  - reflexivity.
  - exists w'. split; [exact Hrun|]. by rewrite Hrows.
Defined.

(** ** Scanning *)

(** X25.  A rule whose keywords do not parse is not searched: no token
    is acquired and no request is sent, the pool stays as it is, and the
    only thing done is the insertion of a history row with the status
    "failed", the parse error as its message, and zero results, new
    results and duration. *)
Theorem scanRule_malformed_keywords env rule p w msg :
  jsonUnmarshalStrings env (RuleKeywords rule) = inl msg ->
  exists w',
    scanRule env rule p w = (None, p, w')
    /\ trace w' = trace w ++ [EvDB "INSERT INTO scan_histories"]
    /\ search_results (db w') = search_results (db w)
    /\ (dbFault env (tick w) = None ->
        scan_histories (db w')
        = scan_histories (db w)
          ++ [ {| sh_RuleID := RuleID rule; sh_ResultsCount := 0; sh_NewResults := 0;
                  sh_TokenUsed := ""; sh_Status := "failed"; sh_ErrorMessage := msg;
                  sh_Duration := 0 |} ]).
Proof.
  intros Hparse. unfold scanRule, ParseKeywords. rewrite Hparse.
  eexists. split; [reflexivity|].
  unfold recordScanHistory, dbExec.
  destruct (dbFault env (tick w)); [by repeat split|].
  split; [done|]. split; [done|]. done.
Qed.

Lemma scanRule_malformed_keywords_witness :
  exists w',
    scanRule Scenario.ample Scenario.brokenKeywordsRule Scenario.twoTokens Scenario.start
    = (None, Scenario.twoTokens, w')
    /\ trace w' = [EvDB "INSERT INTO scan_histories"]
    /\ map sh_Status (scan_histories (db w')) = ["failed"].
Proof.
  destruct (scanRule_malformed_keywords Scenario.ample Scenario.brokenKeywordsRule
              Scenario.twoTokens Scenario.start
              "invalid character 'p' looking for beginning of object key string")
    as (w' & Hrun & Htrace & _ & Hrow).
  - reflexivity.
  - exists w'. split; [exact Hrun|]. split; [exact Htrace|].
    by rewrite (Hrow eq_refl).
Defined.

Section CountFacts.

Context (env : Env).




End CountFacts.



(** *** A whole cycle *)

Section CycleFacts.

Context (env : Env).

(** With a database that answers, the rows a cycle adds are those of the
    rules it scanned, one each and in their order: all its rules, unless
    a panic ended it. *)
Lemma scan_rules_rows rules p w :
  (forall m, dbFault env m = None) ->
  exists scanned hs,
    scanned `prefix_of` rules
    /\ scan_histories (db (snd (scan_rules env rules p w))) = scan_histories (db w) ++ hs
    /\ sh_RuleID <$> hs = RuleID <$> scanned
    /\ (fst (fst (scan_rules env rules p w)) = None -> scanned = rules).
Proof.
  intros Hreliable. revert p w.
  induction rules as [|rule rest IH]; intros p w; cbn [scan_rules].
  { exists [], []. rewrite app_nil_r. by repeat split. }
  destruct (scanRule_histories env rule p w) as (hs0 & Hhs0 & Hshape & Hone & Hnone).
  destruct (scanRule env rule p w) as [[[panic|] p1] w1]; cbn [fst snd] in *.
  - rewrite (Hnone ltac:(done)) in Hhs0. exists [], [].
    split; [apply prefix_nil|]. split; [done|]. by split.
  - specialize (Hone Hreliable eq_refl).
    destruct Hshape as [->|(h & -> & Hid & _)]; [done|].
    destruct (IH p1 (emit (EvSleep (5 * Second)) w1))
      as (scanned & hs & Hprefix & Hhs & Hids & Hall).
    exists (rule :: scanned), (h :: hs).
    split; [by apply prefix_cons|]. split.
    { rewrite Hhs. cbn [db emit]. rewrite Hhs0. by rewrite <- app_assoc. }
    split; [by rewrite !fmap_cons, Hid, Hids|].
    intros Hrest. by rewrite (Hall Hrest).
Qed.

(** The quota endpoint always reports a core rate. *)
Hypothesis Hcore : forall n token, rateLimitGet env n token <> RateLimitOk None.

Lemma GetClient_loop_no_nil startIndex maxAttempts remaining attempts p w res p' w' :
  GetClient_loop env startIndex maxAttempts remaining attempts p w = (res, p', w') ->
  res <> inl ErrNilDereference.
Proof.
  revert attempts p w.
  induction remaining as [|remaining IH]; intros attempts p w.
  { simpl. by intros [= <- <- <-]. }
  destruct (GetClient_loop_cases env startIndex maxAttempts remaining attempts p w)
    as [[_ ->]
       |[(t & t' & w1 & rate & _ & _ & _ & _ & _ & ->)
       |[(t & t' & w1 & _ & _ & Hupdate & Hrate & _)
       |[(q & w1 & _ & ->)|(q & w1 & _ & _ & ->)]]]];
    try (by intros [= <- <- <-]).
  - exfalso. unfold UpdateRateLimit in Hupdate.
    destruct (rateLimitGet env (tick w) (Token t)) as [msg|[core|]] eqn:Hanswer.
    + discriminate.
    + injection Hupdate as <- _. discriminate.
    + by apply (Hcore (tick w) (Token t)).
  - apply IH.
Qed.

Lemma GetClient_no_panic p w err p' w' :
  wf_pool p ->
  GetClient env p w = (inl err, p', w') ->
  isPanic err = false.
Proof.
  intros Hwf Hget.
  pose proof (GetClient_loop_no_nil _ _ _ _ _ _ _ _ _ Hget) as Hnil.
  apply GetClient_loop_keeps in Hget as (_ & _ & _ & Hrange & _); [|done].
  by destruct err.
Qed.

Lemma SearchCode_pages_no_panic left token query keywords results w err w' :
  SearchCode_pages env left token query keywords results w = (inl err, w') ->
  isPanic err = false.
Proof.
  revert results w.
  induction left as [|left IH]; intros results w; cbn [SearchCode_pages];
    destruct (searchCodeApi env _ token query _) as [status msg|items total].
  - by destruct (match status with Some code => code =? 403 | None => false end);
      intros [= <- <-].
  - done.
  - by destruct (match status with Some code => code =? 403 | None => false end);
      intros [= <- <-].
  - destruct (length items =? 0)%nat; [done|apply IH].
Qed.

Lemma SearchCode_no_panic opts p w res p' w' :
  wf_pool p ->
  SearchCode env opts p w = (res, p', w') ->
  wf_pool p' /\ forall err, res = inl err -> isPanic err = false.
Proof.
  intros Hwf. unfold SearchCode.
  destruct (GetClient env p w) as [[client p1] w1] eqn:Hget.
  pose proof (GetClient_loop_keeps env _ _ _ _ _ _ _ _ _ Hwf Hget) as (Hwf1 & _).
  destruct client as [err|i].
  - rewrite (GetClient_no_panic p w err p1 w1 Hwf Hget).
    intros [= <- <- <-]. split; [done|]. by intros err' [= <-].
  - apply GetClient_inr in Hget as (_ & _ & t & evs & Hlookup & _).
    rewrite Hlookup.
    destruct (SearchCode_pages env 9 (Token t) (buildQuery opts) (Keywords opts) [] w1)
      as [res1 w2] eqn:Hpages.
    intros [= <- <- <-]. split; [done|]. intros err ->.
    by apply SearchCode_pages_no_panic in Hpages.
Qed.

Lemma SearchWithRetry_loop_no_panic remaining i lastErr opts p w res p' w' :
  wf_pool p ->
  SearchWithRetry_loop env remaining i lastErr opts p w = (res, p', w') ->
  wf_pool p' /\ forall err, res = inl err -> isPanic err = false.
Proof.
  revert i lastErr p w.
  induction remaining as [|remaining IH]; intros i lastErr p w Hwf;
    cbn [SearchWithRetry_loop].
  { intros [= <- <- <-]. split; [done|]. intros err [= <-]. by destruct lastErr. }
  destruct (SearchCode env opts p w) as [[attempt p1] w1] eqn:Hsearch.
  apply SearchCode_no_panic in Hsearch as [Hwf1 Hattempt]; [|done].
  destruct attempt as [err|results].
  - rewrite (Hattempt err eq_refl).
    destruct (Strings.Contains _ _); [by apply IH|].
    intros [= <- <- <-]. split; [done|]. intros err' [= <-]. by apply Hattempt.
  - intros [= <- <- <-]. by split.
Qed.

Lemma scanRule_no_panic rule p w :
  wf_pool p ->
  fst (fst (scanRule env rule p w)) = None /\ wf_pool (snd (fst (scanRule env rule p w))).
Proof.
  intros Hwf. unfold scanRule.
  destruct (ParseKeywords env (RuleKeywords rule)) as [err|keywords]; [done|].
  match goal with
  | |- context [SearchWithRetry env ?o 3 p w] =>
      destruct (SearchWithRetry env o 3 p w) as [[res p1] w1] eqn:Hrun
  end.
  apply SearchWithRetry_loop_no_panic in Hrun as [Hwf1 Herr]; [|done].
  destruct res as [err|results].
  - by rewrite (Herr err eq_refl).
  - destruct (filterWhitelist env results w1) as [filtered w2].
    by destruct (saveResults env (RuleID rule) filtered w2) as [newCount w3].
Qed.

Lemma scan_rules_no_panic rules p w :
  wf_pool p -> fst (fst (scan_rules env rules p w)) = None.
Proof.
  revert p w. induction rules as [|rule rest IH]; intros p w Hwf; cbn [scan_rules];
    [done|].
  destruct (scanRule_no_panic rule p w Hwf) as [Hnone Hwf1].
  destruct (scanRule env rule p w) as [[panic p1] w1]; cbn [fst snd] in *.
  rewrite Hnone. by apply IH.
Qed.

End CycleFacts.

(** X27.  A scan cycle reads the rules once: no statement after the
    first reads them again, and when the first fails the cycle does
    nothing more.  With a database that answers, the cycle leaves one
    history row for each active rule it scanned, in the order of the
    rules, and none for the others; it scans every active rule, whether
    the scans before succeed or fail, unless a panic ends it.  And no
    panic ends a cycle that starts with the pointer inside the pool when
    the quota endpoint reports a core rate every time. *)
Theorem scan_covers_active_rules env p w :
  let active := filter (fun rule => RuleIsActive rule = true) (monitor_rules (db w)) in
  let rulesQuery := EvDB "SELECT * FROM monitor_rules WHERE is_active = ?" in
  (forall msg, dbFault env (tick w) = Some msg ->
     scan env p w = (None, p, emit rulesQuery w))
  /\ (dbFault env (tick w) = None ->
      follows (fun ev => ev <> rulesQuery) (emit rulesQuery w) (snd (scan env p w)))
  /\ ((forall m, dbFault env m = None) ->
      exists scanned hs,
        scanned `prefix_of` active
        /\ scan_histories (db (snd (scan env p w))) = scan_histories (db w) ++ hs
        /\ sh_RuleID <$> hs = RuleID <$> scanned
        /\ (fst (fst (scan env p w)) = None -> scanned = active))
  /\ (wf_pool p ->
      (forall n token, rateLimitGet env n token <> RateLimitOk None) ->
      fst (fst (scan env p w)) = None).
Proof.
  intros active rulesQuery. unfold scan, dbExec. split; [|split; [|split]].
  - intros msg Hfault. by rewrite Hfault.
  - intros Hfault. rewrite Hfault. apply scan_rules_follows; try done.
    intros statement Hne [= ->]. done.
  - intros Hreliable. rewrite Hreliable.
    destruct (scan_rules_rows env active p (emit rulesQuery w) Hreliable)
      as (scanned & hs & Hprefix & Hhs & Hids & Hall).
    by exists scanned, hs.
  - intros Hwf Hcore. destruct (dbFault env (tick w)); [done|].
    by apply scan_rules_no_panic.
Qed.

Lemma scan_covers_active_rules_witness :
  (exists hs,
      scan_histories
        (db (snd (scan Scenario.ample Scenario.twoTokens Scenario.threeRules)))
      = hs
      /\ sh_RuleID <$> hs = [1%N; 2%N])
  /\ fst (fst (scan Scenario.ample Scenario.twoTokens Scenario.threeRules)) = None
  /\ scan Scenario.hiccup Scenario.twoTokens Scenario.threeRules
     = (None, Scenario.twoTokens,
        emit (EvDB "SELECT * FROM monitor_rules WHERE is_active = ?") Scenario.threeRules).
Proof.
  destruct (scan_covers_active_rules Scenario.ample Scenario.twoTokens
              Scenario.threeRules) as (_ & _ & Hrows & Hsafe).
  destruct (scan_covers_active_rules Scenario.hiccup Scenario.twoTokens
              Scenario.threeRules) as (Hfault & _).
  assert (fst (fst (scan Scenario.ample Scenario.twoTokens Scenario.threeRules)) = None)
    as Hnone.
  { apply Hsafe; [unfold wf_pool; simpl; lia|]. intros n token. discriminate. }
  split; [|split; [exact Hnone|]].
  - destruct Hrows as (scanned & hs & _ & Hhs & Hids & Hall); [reflexivity|].
    exists hs. split; [exact Hhs|]. by rewrite Hids, (Hall Hnone).
  - apply (Hfault "connection reset"). reflexivity.
Defined.

(** When the quota endpoint answers without a core rate for a token that
    has no snapshot, the acquisition panics, and with it the cycle: no
    request is sent and no row is recorded. *)
Example scan_panics_without_core :
  exists p' w',
    scan Scenario.coreless Scenario.twoTokens Scenario.threeRules
    = (Some ErrNilDereference, p', w')
    /\ trace w' = [EvDB "SELECT * FROM monitor_rules WHERE is_active = ?";
                   EvRateLimitGet "ghp_A"]
    /\ scan_histories (db w') = [].
Proof. eexists _, _. split; [vm_compute; reflexivity|]. by split. Qed.
